(** * docker ztd: zero-downtime rolling updates behind Traefik

    A shallow embedding of the Go implementation
    ([main.go], [docker], [compose] and [traefik/generate.go]) together with
    the properties its specification states about the deployment state
    machine, the health gate, the routing-configuration synthesizer
    ([GenerateConfig]) and the patcher ([UpdateConfig]).

    Conventions of the embedding:
    - Go strings are byte strings: Rocq's [string].
    - Go maps with string keys are [gmap string _]; a nil map and an empty
      map are identified wherever the program only reads them.  Container
      label maps are association lists, because [extractHealthCheck] ranges
      over them and its result depends on the order of the visit.
    - A run-time panic of a pure helper is [None].
    - Go [error] results are values of [result].
    - Effectful code runs in the monad [M] over a [World]: the container
      inventory of the daemon, a logical clock, the file system and the
      trace of calls made to the outside.  Time passes in [time.Sleep]
      only.  Of the log, only the messages that [main] writes at warning
      level or above are kept. *)

From Stdlib Require Import Ascii.
From stdpp Require Import numbers strings gmap fin_maps list.
Set Warnings "-register-all,-clear-no-such-hyp".

(** ** Go runtime helpers *)

Module Go.

(** [s[:n]]: panics when [n] exceeds the length of [s]. *)
Definition slice_to (n : nat) (s : string) : option string :=
  if decide (n ≤ String.length s)%nat then Some (String.substring 0 n s) else None.

(** [strings.HasPrefix] and [strings.TrimPrefix]. *)
Definition HasPrefix (s pre : string) : bool := String.prefix pre s.

Definition TrimPrefix (s pre : string) : string :=
  if HasPrefix s pre
  then String.substring (String.length pre) (String.length s - String.length pre) s
  else s.

(** [strings.Split s sep] for a non-empty separator: the pieces between the
    leftmost non-overlapping occurrences of [sep].  [skip] counts the bytes
    of a matched separator that are still to be dropped. *)
Fixpoint Split_from (sep s : string) (skip : nat) : list string :=
  match s with
  | EmptyString => [""]
  | String c s' =>
      match skip with
      | S k => Split_from sep s' k
      | O =>
          if String.prefix sep s
          then "" :: Split_from sep s' (String.length sep - 1)
          else match Split_from sep s' 0 with
               | piece :: pieces => String c piece :: pieces
               | [] => [String c ""]
               end
      end
  end.

Definition Split (s sep : string) : list string := Split_from sep s 0.

(** [time.Duration] counts nanoseconds. *)
Definition Second : Z := 1000000000.

End Go.

(** Go functions that return [(T, error)] or [error]. *)
Inductive result (A : Type) : Type :=
| ok (a : A)
| err (msg : string).
Arguments ok {A} a.
Arguments err {A} msg.

Definition is_ok {A} (r : result A) : bool :=
  match r with ok _ => true | err _ => false end.

Definition result_get {A} (r : result A) : option A :=
  match r with ok a => Some a | err _ => None end.

(** ** Routing configuration model ([traefik/generate.go], lines 17-59) *)

Record Router := mkRouter {
  Rule : string;
  Router_Service : string
}.

Record HealthCheck := mkHealthCheck {
  Path : string; Interval : string;
  HC_Timeout : string; Scheme : string;
  Mode : string; Hostname : string;
  Port : string; FollowRedirects : string;
  Method : string; Status : string;
  Headers : gmap string string
}.

Record Server := mkServer { URL : string }.

Record LoadBalancer := mkLoadBalancer {
  Servers : list Server;
  LB_HealthCheck : option HealthCheck
}.

Record Service := mkService { Service_LoadBalancer : LoadBalancer }.

Record HTTPConfig := mkHTTP {
  Routers : gmap string Router;
  Services : gmap string Service
}.

Record TraefikConfig := mkTraefikConfig { HTTP : HTTPConfig }.


(** ** YAML documents

    The program reads and writes its files through [yaml.v3].  Documents are
    kept as trees: a scalar is its text, a mapping is a finite map from keys
    to documents. *)

Inductive yaml : Type :=
| YNull
| YStr (s : string)
| YSeq (l : list yaml)
| YMap (m : gmap string yaml).

Module Yaml.

(** [yaml.Marshal] of the structs above, following their field tags.  A
    string field tagged [omitempty] is left out when it is empty, a map
    field when it has no entry, a pointer field when it is nil. *)
Definition omitempty (k v : string) (m : gmap string yaml) : gmap string yaml :=
  if decide (v = "") then m else <[k := YStr v]> m.

Definition omitempty_map (k : string) (v : gmap string string)
    (m : gmap string yaml) : gmap string yaml :=
  if decide (v = ∅) then m else <[k := YMap (YStr <$> v)]> m.

Definition healthCheckFields (h : HealthCheck) : gmap string yaml :=
  omitempty "path" (Path h)
  (omitempty "interval" (Interval h)
  (omitempty "timeout" (HC_Timeout h)
  (omitempty "scheme" (Scheme h)
  (omitempty "mode" (Mode h)
  (omitempty "hostname" (Hostname h)
  (omitempty "port" (Port h)
  (omitempty "followRedirects" (FollowRedirects h)
  (omitempty "method" (Method h)
  (omitempty "status" (Status h)
  (omitempty_map "headers" (Headers h) ∅)))))))))).

Definition encodeHealthCheck (h : HealthCheck) : yaml := YMap (healthCheckFields h).

Definition encodeServer (s : Server) : yaml := YMap {[ "url" := YStr (URL s) ]}.

Definition loadBalancerFields (lb : LoadBalancer) : gmap string yaml :=
  <["servers" := YSeq (encodeServer <$> Servers lb)]>
    (match LB_HealthCheck lb with
     | Some h => {[ "healthcheck" := encodeHealthCheck h ]}
     | None => ∅
     end).

Definition encodeService (s : Service) : yaml :=
  YMap {[ "loadbalancer" := YMap (loadBalancerFields (Service_LoadBalancer s)) ]}.

Definition encodeRouter (r : Router) : yaml :=
  YMap (<["rule" := YStr (Rule r)]> {[ "service" := YStr (Router_Service r) ]}).

Definition Marshal (c : TraefikConfig) : yaml :=
  YMap {[ "http" :=
    YMap (<["routers" := YMap (encodeRouter <$> Routers (HTTP c))]>
           {[ "services" := YMap (encodeService <$> Services (HTTP c)) ]}) ]}.

(** [yaml.Unmarshal] into the structs above.  A key that is absent or null
    leaves the zero value; a key that no field is tagged with is ignored; a
    node of the wrong kind is an error. *)
Definition type_error {A} : result A := err "yaml: unmarshal errors".

Definition decodeString (y : option yaml) : result string :=
  match y with
  | None | Some YNull => ok ""
  | Some (YStr s) => ok s
  | Some _ => type_error
  end.

Definition decodeFields {A} (dec : gmap string yaml → result A) (zero : A)
    (y : option yaml) : result A :=
  match y with
  | None | Some YNull => ok zero
  | Some (YMap m) => dec m
  | Some _ => type_error
  end.

Definition decodeMap {A} (dec : yaml → result A) (y : option yaml)
    : result (gmap string A) :=
  match y with
  | None | Some YNull => ok ∅
  | Some (YMap m) =>
      if decide (map_Forall (λ _ v, is_ok (dec v) = true) m)
      then ok (omap (λ v, result_get (dec v)) m)
      else type_error
  | Some _ => type_error
  end.

Definition decodeSeq {A} (dec : yaml → result A) (y : option yaml)
    : result (list A) :=
  match y with
  | None | Some YNull => ok []
  | Some (YSeq l) =>
      if decide (Forall (λ v, is_ok (dec v) = true) l)
      then ok (omap (λ v, result_get (dec v)) l)
      else type_error
  | Some _ => type_error
  end.

Definition rbind {A B} (r : result A) (k : A → result B) : result B :=
  match r with ok a => k a | err e => err e end.

Notation "x ←ʳ r ; k" := (rbind r (λ x, k))
  (at level 20, r at level 100, k at level 200, only parsing).

Definition decodeHealthCheck (m : gmap string yaml) : result HealthCheck :=
  path ←ʳ decodeString (m !! "path");
  interval ←ʳ decodeString (m !! "interval");
  timeout ←ʳ decodeString (m !! "timeout");
  scheme ←ʳ decodeString (m !! "scheme");
  mode ←ʳ decodeString (m !! "mode");
  hostname ←ʳ decodeString (m !! "hostname");
  port ←ʳ decodeString (m !! "port");
  followRedirects ←ʳ decodeString (m !! "followRedirects");
  method ←ʳ decodeString (m !! "method");
  status ←ʳ decodeString (m !! "status");
  headers ←ʳ decodeMap (λ v, decodeString (Some v)) (m !! "headers");
  ok (mkHealthCheck path interval timeout scheme mode hostname port
        followRedirects method status headers).

Definition decodeServer (y : yaml) : result Server :=
  decodeFields (λ m, url ←ʳ decodeString (m !! "url"); ok (mkServer url))
    (mkServer "") (Some y).

Definition decodeLoadBalancer (m : gmap string yaml) : result LoadBalancer :=
  servers ←ʳ decodeSeq decodeServer (m !! "servers");
  hc ←ʳ match m !! "healthcheck" with
        | None | Some YNull => ok None
        | Some (YMap h) => h' ←ʳ decodeHealthCheck h; ok (Some h')
        | Some _ => type_error
        end;
  ok (mkLoadBalancer servers hc).

Definition decodeService (y : yaml) : result Service :=
  decodeFields
    (λ m, lb ←ʳ decodeFields decodeLoadBalancer (mkLoadBalancer [] None)
                  (m !! "loadbalancer");
          ok (mkService lb))
    (mkService (mkLoadBalancer [] None)) (Some y).

Definition decodeRouter (y : yaml) : result Router :=
  decodeFields
    (λ m, rule ←ʳ decodeString (m !! "rule");
          service ←ʳ decodeString (m !! "service");
          ok (mkRouter rule service))
    (mkRouter "" "") (Some y).

Definition decodeHTTP (m : gmap string yaml) : result HTTPConfig :=
  routers ←ʳ decodeMap decodeRouter (m !! "routers");
  services ←ʳ decodeMap decodeService (m !! "services");
  ok (mkHTTP routers services).

Definition Unmarshal (y : yaml) : result TraefikConfig :=
  decodeFields
    (λ m, http ←ʳ decodeFields decodeHTTP (mkHTTP ∅ ∅) (m !! "http");
          ok (mkTraefikConfig http))
    (mkTraefikConfig (mkHTTP ∅ ∅)) (Some y).

End Yaml.

(** ** The world outside the program

    The Docker daemon, the compose command line, the clock and the file
    system are external collaborators.  Their state is a [World]; how they
    answer is fixed by an [Env], over which every statement below is
    universally quantified. *)

(** [container.Summary], restricted to the fields the program reads. *)
Record Summary := mkSummary {
  ID : string;
  Labels : list (string * string);
  State : string
}.

(** [labels[key]] on a label map: the empty string when the key is absent. *)
Fixpoint label (labels : list (string * string)) (key : string) : string :=
  match labels with
  | [] => ""
  | (k, v) :: rest => if decide (k = key) then v else label rest key
  end.

(** What a file holds, up to YAML parsing: [Doc y] stands for bytes that
    parse to [y], [Invalid] for bytes that do not parse.  An empty file
    parses to the null document. *)
Inductive FileData : Type :=
| Invalid
| Doc (y : yaml).

Definition empty_file : FileData := Doc YNull.

(** Calls that leave the process, in the order they are made. *)
Inductive Event : Type :=
| EvReadFile (path : string)
| EvOpenTrunc (path : string)
| EvWriteData (path : string) (data : FileData)
| EvRename (source target : string)
| EvContainerList
| EvContainerInspect (id : string)
| EvContainerStop (id : string) (timeoutSeconds : Z)
| EvContainerRemove (id : string) (force : bool)
| EvComposeScale (service : string) (replicas : Z)
| EvDeployService (service : string) (detach : bool)
| EvSleep (d : Z)
| EvLog (level : string) (msg : string).

Record Env := mkEnv {
  (** whether the call made when [n] events have been recorded fails *)
  daemon_error : nat → option string;
  (** [State.Health] of a container at a time: [None] when the container
      defines no health check, [Some status] otherwise *)
  health_of : string → Z → option string;
  (** the inventory after [docker compose up --scale service=n --no-recreate] *)
  scaled : string → Z → list Summary → list Summary;
  (** the inventory after [DeployService] *)
  deployed : string → list Summary → list Summary;
  (** paths that cannot be opened for writing *)
  write_denied : string → bool
}.

Record World := mkWorld {
  containers : list Summary;
  clock : Z;
  fs : gmap string FileData;
  (** every state the file system has been in, newest first *)
  fs_history : list (gmap string FileData);
  (** newest first *)
  events : list Event
}.

Definition record (ev : Event) (w : World) : World :=
  mkWorld (containers w) (clock w) (fs w) (fs_history w) (ev :: events w).

Definition set_containers (cs : list Summary) (w : World) : World :=
  mkWorld cs (clock w) (fs w) (fs_history w) (events w).

Definition set_clock (t : Z) (w : World) : World :=
  mkWorld (containers w) t (fs w) (fs_history w) (events w).

Definition set_file (path : string) (d : FileData) (w : World) : World :=
  mkWorld (containers w) (clock w) (<[path := d]> (fs w))
          (<[path := d]> (fs w) :: fs_history w) (events w).

(** How a computation ends: it returns, the process exits ([os.Exit],
    [log.Fatalf]), it panics, or the recursion bound of the embedding is
    hit. *)
Inductive Outcome (A : Type) : Type :=
| Done (a : A)
| Exited (code : Z)
| Panicked
| OutOfFuel.
Arguments Done {A} a.
Arguments Exited {A} code.
Arguments Panicked {A}.
Arguments OutOfFuel {A}.

Definition M (A : Type) : Type := World → Outcome A * World.

#[global] Instance M_ret : MRet M := λ A a w, (Done a, w).

#[global] Instance M_bind : MBind M := λ A B k m w,
  match m w with
  | (Done a, w') => k a w'
  | (Exited c, w') => (Exited c, w')
  | (Panicked, w') => (Panicked, w')
  | (OutOfFuel, w') => (OutOfFuel, w')
  end.

Definition os_Exit {A} (code : Z) : M A := λ w, (Exited code, w).

Definition log_Errorf (msg : string) : M unit := λ w, (Done tt, record (EvLog "error" msg) w).

Definition log_Warnf (msg : string) : M unit := λ w, (Done tt, record (EvLog "warning" msg) w).

(** [log.Fatalf] logs and calls [os.Exit(1)]. *)
Definition log_Fatalf {A} (msg : string) : M A := λ w,
  (Exited 1, record (EvLog "fatal" msg) w).

Definition or_panic {A} (o : option A) : M A := λ w,
  match o with Some a => (Done a, w) | None => (Panicked, w) end.

(** Go's [error]: [None] is nil. *)
Abbreviation error := (option string).

Section Program.

Variable E : Env.

(** *** File system *)

Definition os_ReadFile (path : string) : M (result FileData) := λ w,
  (Done (match fs w !! path with
         | Some d => ok d
         | None => err "no such file or directory"
         end),
   record (EvReadFile path) w).

(** [os.WriteFile] opens the path with [O_WRONLY|O_CREATE|O_TRUNC], writes
    the data and closes the file: two steps that other processes can tell
    apart. *)
Definition sys_open_trunc (path : string) : M error := λ w,
  if write_denied E path
  then (Done (Some "permission denied"), record (EvOpenTrunc path) w)
  else (Done None, set_file path empty_file (record (EvOpenTrunc path) w)).

Definition sys_write (path : string) (data : FileData) : M unit := λ w,
  (Done tt, set_file path data (record (EvWriteData path data) w)).

Definition os_WriteFile (path : string) (data : FileData) : M error :=
  e ← sys_open_trunc path;
  match e with
  | Some e => mret (Some e)
  | None => _ ← sys_write path data; mret None
  end.

(** [mv source target]: one step; the target holds its old content or
    all of the new one.  The script [docker-ztd] publishes this way, from
    [dynamic.tmp]; the Go program does not. *)
Definition sys_rename (source target : string) : M error := λ w,
  match fs w !! source with
  | None => (Done (Some "no such file or directory"), record (EvRename source target) w)
  | Some data =>
      let files := delete source (<[target := data]> (fs w)) in
      (Done None,
       mkWorld (containers w) (clock w) files (files :: fs_history w)
               (EvRename source target :: events w))
  end.

Definition publish_by_rename (tmp path : string) (data : FileData) : M error :=
  e ← os_WriteFile tmp data;
  match e with
  | Some e => mret (Some e)
  | None => sys_rename tmp path
  end.

Definition yaml_Unmarshal (data : FileData) : result TraefikConfig :=
  match data with
  | Invalid => err "yaml: did not find expected node content"
  | Doc y => Yaml.Unmarshal y
  end.

(** *** Clock *)

Definition time_Now : M Z := λ w, (Done (clock w), w).

Definition time_Sleep (d : Z) : M unit := λ w,
  (Done tt, set_clock (clock w + Z.max 0 d) (record (EvSleep d) w)).

(** ** Package [traefik] *)

(** *** [extractHealthCheck] (lines 251-322)

    [encoding/json] is outside the repository: [json_Unmarshal value] is
    the outcome of [json.Unmarshal([]byte(value), &parsedHeaders)], [None]
    for an error, [Some None] when the value is JSON null and leaves the map
    nil, [Some (Some m)] for an object. *)

Variable json_Unmarshal : string → option (option (gmap string string)).

Definition healthCheckPrefix (serviceName : string) : string :=
  "traefik.http.services." +:+ serviceName +:+ ".loadbalancer.healthCheck".

(** The first loop: does any key start with the prefix? *)
Fixpoint hasConfig (labels : list (string * string)) (prefix : string) : bool :=
  match labels with
  | [] => false
  | (key, _) :: rest =>
      if Go.HasPrefix key prefix then true else hasConfig rest prefix
  end.

(** The headers loop, in the order the range visits the labels.  [headers]
    is [None] for a nil map; storing into a nil map panics. *)
Fixpoint extractHeaders (labels : list (string * string)) (prefix : string)
    (headers : option (gmap string string)) : option (option (gmap string string)) :=
  match labels with
  | [] => Some headers
  | (key, value) :: rest =>
      if decide (key = prefix +:+ ".headers") then
        match json_Unmarshal value with
        | Some parsedHeaders => extractHeaders rest prefix parsedHeaders
        | None => extractHeaders rest prefix headers
        end
      else if Go.HasPrefix key (prefix +:+ ".headers.") then
        match headers with
        | Some h =>
            let headerName := Go.TrimPrefix key (prefix +:+ ".headers.") in
            extractHeaders rest prefix (Some (<[headerName := value]> h))
        | None => None
        end
      else extractHeaders rest prefix headers
  end.

(** The result is [Some None] for a nil pointer. *)
Definition extractHealthCheck (labels : list (string * string))
    (serviceName : string) : option (option HealthCheck) :=
  let prefix := healthCheckPrefix serviceName in
  if negb (hasConfig labels prefix) then Some None
  else
    headers ← extractHeaders labels prefix (Some ∅);
    Some (Some (mkHealthCheck
      (label labels (prefix +:+ ".path"))
      (label labels (prefix +:+ ".interval"))
      (label labels (prefix +:+ ".timeout"))
      (label labels (prefix +:+ ".scheme"))
      (label labels (prefix +:+ ".mode"))
      (label labels (prefix +:+ ".hostname"))
      (label labels (prefix +:+ ".port"))
      (label labels (prefix +:+ ".followRedirects"))
      (label labels (prefix +:+ ".method"))
      (label labels (prefix +:+ ".status"))
      (default ∅ headers))).

(** *** [GenerateConfig] (lines 102-248) *)

(** The services a compose file declares: the keys under [services]. *)
Definition composeFileServices (data : FileData) : result (gset string) :=
  match data with
  | Invalid => err "yaml: did not find expected node content"
  | Doc y =>
      Yaml.decodeFields
        (λ m, match m !! "services" with
              | None | Some YNull => ok ∅
              | Some (YMap services) => ok (dom services)
              | Some _ => Yaml.type_error
              end)
        ∅ (Some y)
  end.

Fixpoint readComposeServices (composeFiles : list string)
    (composeServices : gset string) : M (result (gset string)) :=
  match composeFiles with
  | [] => mret (ok composeServices)
  | file :: rest =>
      data ← os_ReadFile file;
      match data with
      | err e => mret (err ("failed to read compose file " +:+ file +:+ ": " +:+ e))
      | ok data =>
          match composeFileServices data with
          | err e => mret (err ("failed to parse compose file " +:+ file +:+ ": " +:+ e))
          | ok services => readComposeServices rest (composeServices ∪ services)
          end
      end
  end.

(** The map from service names to their containers. *)
Fixpoint groupByService (composeServices : gset string) (cs : list Summary)
    (serviceContainers : gmap string (list Summary)) : gmap string (list Summary) :=
  match cs with
  | [] => serviceContainers
  | container :: rest =>
      let serviceName := label (Labels container) "com.docker.compose.service" in
      if decide (serviceName = "") then groupByService composeServices rest serviceContainers
      else if decide (serviceName ∈ composeServices) then
        groupByService composeServices rest
          (<[serviceName := (default [] (serviceContainers !! serviceName) ++ [container])%list]>
             serviceContainers)
      else groupByService composeServices rest serviceContainers
  end.

(** The servers list: one URL per container, from the short identifier. *)
Fixpoint serverList (serviceContainers : list Summary) (port : string)
    : option (list Server) :=
  match serviceContainers with
  | [] => Some []
  | c :: rest =>
      short ← Go.slice_to 12 (ID c);
      servers ← serverList rest port;
      Some (mkServer ("http://" +:+ short +:+ ":" +:+ port) :: servers)
  end.

Definition hasValues (healthCheck : HealthCheck) : bool :=
  bool_decide (Path healthCheck ≠ "" ∨ Interval healthCheck ≠ "" ∨
               HC_Timeout healthCheck ≠ "" ∨ Scheme healthCheck ≠ "" ∨
               Mode healthCheck ≠ "" ∨ Hostname healthCheck ≠ "" ∨
               Port healthCheck ≠ "" ∨ FollowRedirects healthCheck ≠ "" ∨
               Method healthCheck ≠ "" ∨ Status healthCheck ≠ "" ∨
               (0 < size (Headers healthCheck))%nat).

(** The body of the loop over services.  The result is [None] for a panic,
    [Some None] when the service is skipped, and otherwise the router and
    the service stored under [serviceName]. *)
Definition serviceEntry (serviceName : string) (serviceContainers : list Summary)
    : option (option (Router * Service)) :=
  match serviceContainers with
  | [] => Some None
  | container :: _ =>
      if negb (bool_decide (label (Labels container) "traefik.enable" = "true"))
      then Some None
      else
        let rule := label (Labels container)
                      ("traefik.http.routers." +:+ serviceName +:+ ".rule") in
        if decide (rule = "") then Some None
        else
          let port := label (Labels container)
                        ("traefik.http.services." +:+ serviceName
                           +:+ ".loadbalancer.server.port") in
          let port := if decide (port = "") then "80" else port in
          servers ← serverList serviceContainers port;
          if decide (length servers = 0)%nat then Some None
          else
            healthCheck ← extractHealthCheck (Labels container) serviceName;
            let attached :=
              match healthCheck with
              | Some hc => if hasValues hc then Some hc else None
              | None => None
              end in
            Some (Some (mkRouter rule serviceName,
                        mkService (mkLoadBalancer servers attached)))
  end.

(** The configuration built by the loop over [serviceContainers].  The
    range order is unspecified; an iteration reads nothing that another one
    writes, so the outcome is the same for every order: a panic when some
    iteration panics, and otherwise the entries of the services that were
    not skipped. *)
Definition buildConfig (serviceContainers : gmap string (list Summary))
    : option TraefikConfig :=
  if decide (map_Forall (λ name cs, is_Some (serviceEntry name cs)) serviceContainers)
  then
    let entries := map_imap (λ name cs, mjoin (serviceEntry name cs)) serviceContainers in
    Some (mkTraefikConfig (mkHTTP (fst <$> entries) (snd <$> entries)))
  else None.

Definition GenerateConfig (containers : list Summary) (composeFiles : list string)
    (configPath : string) : M error :=
  composeServices ← readComposeServices composeFiles ∅;
  match composeServices with
  | err e => mret (Some e)
  | ok composeServices =>
      let serviceContainers := groupByService composeServices containers ∅ in
      config ← or_panic (buildConfig serviceContainers);
      let yamlData := Yaml.Marshal config in
      e ← os_WriteFile configPath (Doc yamlData);
      match e with
      | Some e => mret (Some ("failed to write config file: " +:+ e))
      | None => mret None
      end
  end.

(** *** [UpdateConfig] (lines 325-382) *)

(** The map from old to new short identifiers (lines 340-345); [i] is the
    index of the head of [oldContainers]. *)
Fixpoint buildContainerMap (newContainers : list string) (i : nat)
    (oldContainers : list string) (containerMap : gmap string string)
    : option (gmap string string) :=
  match oldContainers with
  | [] => Some containerMap
  | oldID :: rest =>
      match newContainers !! i with
      | Some newID =>
          k ← Go.slice_to 12 oldID;
          v ← Go.slice_to 12 newID;
          buildContainerMap newContainers (S i) rest (<[k := v]> containerMap)
      | None => buildContainerMap newContainers (S i) rest containerMap
      end
  end.

(** The body of the loop over servers (lines 350-366). *)
Definition updateServer (containerMap : gmap string string) (server : Server) : Server :=
  match Go.Split (URL server) "//" with
  | [_; rest] =>
      match Go.Split rest ":" with
      | [oldContainerID; port] =>
          match containerMap !! oldContainerID with
          | Some newID => mkServer ("http://" +:+ newID +:+ ":" +:+ port)
          | None => server
          end
      | _ => server
      end
  | _ => server
  end.

Definition updateService (containerMap : gmap string string) (service : Service)
    : Service :=
  mkService (mkLoadBalancer
    (updateServer containerMap <$> Servers (Service_LoadBalancer service))
    (LB_HealthCheck (Service_LoadBalancer service))).

(** The loop over services writes server URLs only. *)
Definition updateServices (containerMap : gmap string string) (config : TraefikConfig)
    : TraefikConfig :=
  mkTraefikConfig (mkHTTP (Routers (HTTP config))
                          (updateService containerMap <$> Services (HTTP config))).

Definition UpdateConfig (oldContainers newContainers : list string)
    (configPath : string) : M error :=
  data ← os_ReadFile configPath;
  match data with
  | err e => mret (Some ("failed to read config file: " +:+ e))
  | ok data =>
      match yaml_Unmarshal data with
      | err e => mret (Some ("failed to parse config file: " +:+ e))
      | ok config =>
          containerMap ← or_panic (buildContainerMap newContainers 0 oldContainers ∅);
          let yamlData := Yaml.Marshal (updateServices containerMap config) in
          e ← os_WriteFile configPath (Doc yamlData);
          match e with
          | Some e => mret (Some ("failed to write updated config: " +:+ e))
          | None => mret None
          end
      end
  end.

(** ** The Docker daemon and the compose command line *)

Definition ContainerList : M (result (list Summary)) := λ w,
  match daemon_error E (length (events w)) with
  | Some e => (Done (err e), record EvContainerList w)
  | None => (Done (ok (containers w)), record EvContainerList w)
  end.

(** [ContainerInspect], restricted to [State.Health]: [None] for a nil
    [Health], [Some status] otherwise. *)
Definition ContainerInspect (containerID : string) : M (result (option string)) := λ w,
  match daemon_error E (length (events w)) with
  | Some e => (Done (err e), record (EvContainerInspect containerID) w)
  | None => (Done (ok (health_of E containerID (clock w))),
             record (EvContainerInspect containerID) w)
  end.

Definition stopped (containerID : string) (c : Summary) : Summary :=
  if decide (ID c = containerID) then mkSummary (ID c) (Labels c) "exited" else c.

Definition ContainerStop (containerID : string) (timeoutSeconds : Z) : M error := λ w,
  match daemon_error E (length (events w)) with
  | Some e => (Done (Some e), record (EvContainerStop containerID timeoutSeconds) w)
  | None => (Done None,
             set_containers (stopped containerID <$> containers w)
               (record (EvContainerStop containerID timeoutSeconds) w))
  end.

Definition ContainerRemove (containerID : string) (force : bool) : M error := λ w,
  match daemon_error E (length (events w)) with
  | Some e => (Done (Some e), record (EvContainerRemove containerID force) w)
  | None => (Done None,
             set_containers (filter (λ c, ID c ≠ containerID) (containers w))
               (record (EvContainerRemove containerID force) w))
  end.

(** [docker compose ... up --detach --scale service=replicas --no-recreate service] *)
Definition compose_up_scale (serviceName : string) (replicas : Z) : M error := λ w,
  match daemon_error E (length (events w)) with
  | Some e => (Done (Some e), record (EvComposeScale serviceName replicas) w)
  | None => (Done None,
             set_containers (scaled E serviceName replicas (containers w))
               (record (EvComposeScale serviceName replicas) w))
  end.

(** [compose.DeployService] starts the stack or one service and, on these
    start-up paths, regenerates the routing configuration.  No statement
    below looks inside it: it is one call with an outcome chosen by the
    environment. *)
Definition DeployService (serviceName : string) (detach : bool) : M error := λ w,
  match daemon_error E (length (events w)) with
  | Some e => (Done (Some e), record (EvDeployService serviceName detach) w)
  | None => (Done None,
             set_containers (deployed E serviceName (containers w))
               (record (EvDeployService serviceName detach) w))
  end.

(** ** Package [compose] *)

Fixpoint serviceContainerIDs (serviceName : string) (cs : list Summary) : list string :=
  match cs with
  | [] => []
  | container :: rest =>
      if decide (label (Labels container) "com.docker.compose.service" = serviceName)
      then ID container :: serviceContainerIDs serviceName rest
      else serviceContainerIDs serviceName rest
  end.

Definition GetServiceContainers (serviceName : string) : M (result (list string)) :=
  r ← ContainerList;
  match r with
  | err e => mret (err ("failed to list containers: " +:+ e))
  | ok cs => mret (ok (serviceContainerIDs serviceName cs))
  end.

Definition ScaleService (serviceName : string) (replicas : Z)
    : M (result (list string)) :=
  e ← compose_up_scale serviceName replicas;
  match e with
  | Some e => mret (err ("failed to scale service: " +:+ e))
  | None => GetServiceContainers serviceName
  end.

(** ** Package [docker] *)

Definition CheckContainerHealth (containerID : string) : M (result bool) :=
  r ← ContainerInspect containerID;
  match r with
  | err e => mret (err ("failed to inspect container: " +:+ e))
  | ok None => mret (ok true)
  | ok (Some status) => mret (ok (bool_decide (status = "healthy")))
  end.

(** The inner loop of [WaitForHealthyContainers]: [allHealthy], or the
    error of the first inspection that fails. *)
Fixpoint checkContainers (containerIDs : list string) : M (result bool) :=
  match containerIDs with
  | [] => mret (ok true)
  | containerID :: rest =>
      r ← CheckContainerHealth containerID;
      match r with
      | err e => mret (err ("failed to check container health: " +:+ e))
      | ok false => mret (ok false)
      | ok true => checkContainers rest
      end
  end.

Definition timeout_error : string := "timeout waiting for containers to become healthy".

(** The outer loop, bounded by [fuel] iterations. *)
Fixpoint waitLoop (fuel : nat) (containerIDs : list string) (deadline : Z) : M error :=
  match fuel with
  | O => λ w, (OutOfFuel, w)
  | S fuel' =>
      now ← time_Now;
      if decide (now < deadline)%Z then
        r ← checkContainers containerIDs;
        match r with
        | err e => mret (Some e)
        | ok true => mret None
        | ok false =>
            _ ← time_Sleep Go.Second;
            waitLoop fuel' containerIDs deadline
        end
      else mret (Some timeout_error)
  end.

(** Every iteration that does not return sleeps one second, so the loop
    runs at most [timeout / Second + 1] polls and one last test of the
    deadline. *)
Definition polls (timeout : Z) : nat := S (Z.to_nat (timeout / Go.Second + 1)).

Definition WaitForHealthyContainers (containerIDs : list string) (timeout : Z)
    : M error :=
  now ← time_Now;
  let deadline := (now + timeout)%Z in
  waitLoop (polls timeout) containerIDs deadline.

Fixpoint StopAndRemoveContainers (containerIDs : list string) : M error :=
  match containerIDs with
  | [] => mret None
  | containerID :: rest =>
      e ← ContainerStop containerID 10;
      match e with
      | Some e => mret (Some ("failed to stop container: " +:+ e))
      | None =>
          e ← ContainerRemove containerID true;
          match e with
          | Some e => mret (Some ("failed to remove container: " +:+ e))
          | None => StopAndRemoveContainers rest
          end
      end
  end.

(** ** [main] (main.go, lines 71-152), after the arguments are parsed *)

Record Config := mkConfig {
  HealthcheckTimeout : Z;
  NoHealthcheckTimeout : Z;
  WaitAfterHealthyDelay : Z;
  TraefikConfFile : string;
  ProxyType : string;
  ComposeFiles : list string;
  EnvFiles : list string;
  Config_Service : string;
  Detach : bool
}.

(** Lines 110-123: the identifiers of [newContainers] that are not old. *)
Fixpoint isOld (newID : string) (oldContainers : list string) : bool :=
  match oldContainers with
  | [] => false
  | oldID :: rest => if decide (newID = oldID) then true else isOld newID rest
  end.

Fixpoint filteredNewContainers (oldContainers newContainers : list string)
    : list string :=
  match newContainers with
  | [] => []
  | newID :: rest =>
      if isOld newID oldContainers
      then filteredNewContainers oldContainers rest
      else newID :: filteredNewContainers oldContainers rest
  end.

Definition rolling_back : string := "New containers are not healthy. Rolling back.".

(** Lines 129-133: the new containers did not become healthy. *)
Definition rollBack (newContainers : list string) : M unit :=
  _ ← log_Errorf rolling_back;
  e ← StopAndRemoveContainers newContainers;
  _ ← match e with
      | Some e => log_Errorf ("Failed to rollback: " +:+ e)
      | None => mret tt
      end;
  os_Exit 1.

(** Lines 135-151: the new containers are healthy. *)
Definition switchOver (config : Config) (oldContainers newContainers : list string)
    : M unit :=
  e ← UpdateConfig oldContainers newContainers (TraefikConfFile config);
  _ ← match e with
      | Some e => log_Warnf ("Failed to update Traefik configuration: " +:+ e)
      | None => mret tt
      end;
  _ ← (if decide (0 < WaitAfterHealthyDelay config)%Z
       then time_Sleep (WaitAfterHealthyDelay config)
       else mret tt);
  _ ← time_Sleep (NoHealthcheckTimeout config);
  e ← StopAndRemoveContainers oldContainers;
  match e with
  | Some e => log_Fatalf ("Failed to stop and remove old containers: " +:+ e)
  | None => mret tt
  end.

(** Lines 127-152: the health gate and what follows it. *)
Definition finishUpdate (config : Config) (oldContainers newContainers : list string)
    : M unit :=
  e ← WaitForHealthyContainers newContainers (HealthcheckTimeout config);
  match e with
  | Some _ => rollBack newContainers
  | None => switchOver config oldContainers newContainers
  end.

(** Lines 96-126: scaling, for a service that has [containers]. *)
Definition rollingUpdate (config : Config) (containers : list string) : M unit :=
  r ← GetServiceContainers (Config_Service config);
  match r with
  | err e => log_Fatalf ("Failed to get current containers: " +:+ e)
  | ok oldContainers =>
      let scale := (Z.of_nat (length containers) * 2)%Z in
      r ← ScaleService (Config_Service config) scale;
      match r with
      | err e => log_Fatalf ("Failed to scale service: " +:+ e)
      | ok newContainers =>
          finishUpdate config oldContainers
            (filteredNewContainers oldContainers newContainers)
      end
  end.

Definition main (config : Config) : M unit :=
  if decide (Config_Service config = "up" ∨ Config_Service config = "up -d") then
    let detach := bool_decide (Config_Service config = "up -d") in
    e ← DeployService "up" detach;
    match e with
    | Some e => log_Fatalf ("Failed to deploy services: " +:+ e)
    | None => mret tt
    end
  else
    r ← GetServiceContainers (Config_Service config);
    match r with
    | err e => log_Fatalf ("Failed to get service containers: " +:+ e)
    | ok containers =>
        if decide (length containers = 0)%nat then
          e ← DeployService (Config_Service config) true;
          match e with
          | Some e => log_Fatalf ("Failed to start service: " +:+ e)
          | None => mret tt
          end
        else rollingUpdate config containers
    end.

End Program.

(** ** The compose files, as [compose.DeployService] reads them
    (package [compose]: the types of lines 535-545, [parseComposeFile],
    lines 578-590, and lines 734-760 of [DeployService]) *)

Record ComposeService := mkComposeService {
  Image : string;
  ContainerName : string;
  Environment : gmap string string
}.

Record ComposeFile := mkComposeFile {
  ComposeFile_Services : gmap string ComposeService
}.

Definition decodeComposeService (y : yaml) : result ComposeService :=
  Yaml.decodeFields
    (λ m,
       Yaml.rbind (Yaml.decodeString (m !! "image")) (λ image,
       Yaml.rbind (Yaml.decodeString (m !! "container_name")) (λ containerName,
       Yaml.rbind (Yaml.decodeMap (λ v, Yaml.decodeString (Some v)) (m !! "environment"))
         (λ environment,
       ok (mkComposeService image containerName environment)))))
    (mkComposeService "" "" ∅) (Some y).

(** [yaml.Unmarshal(data, &composeFile)] for a [ComposeFile]. *)
Definition yaml_Unmarshal_ComposeFile (data : FileData) : result ComposeFile :=
  match data with
  | Invalid => err "yaml: did not find expected node content"
  | Doc y =>
      Yaml.decodeFields
        (λ m, Yaml.rbind (Yaml.decodeMap decodeComposeService (m !! "services"))
                (λ services, ok (mkComposeFile services)))
        (mkComposeFile ∅) (Some y)
  end.

Definition parseComposeFile (filePath : string) : M (result ComposeFile) :=
  data ← os_ReadFile filePath;
  match data with
  | err e => mret (err ("failed to read compose file: " +:+ e))
  | ok data =>
      match yaml_Unmarshal_ComposeFile data with
      | err e => mret (err ("failed to parse compose file: " +:+ e))
      | ok composeFile => mret (ok composeFile)
      end
  end.

(** [DeployService] for one service, up to the test that the service is
    declared (lines 734-760).  The names are collected in a slice that is
    only searched: a set holds what the search reads. *)
Fixpoint composeServiceNames (composeFiles : list string)
    (composeServices : gset string) : M (result (gset string)) :=
  match composeFiles with
  | [] => mret (ok composeServices)
  | file :: rest =>
      r ← parseComposeFile file;
      match r with
      | err e => mret (err ("failed to parse compose file " +:+ file +:+ ": " +:+ e))
      | ok composeFile =>
          composeServiceNames rest
            (composeServices ∪ dom (ComposeFile_Services composeFile))
      end
  end.

(** [None] when the deployment goes on. *)
Definition serviceExists (serviceName : string) (composeFiles : list string) : M error :=
  r ← composeServiceNames composeFiles ∅;
  match r with
  | err e => mret (Some e)
  | ok composeServices =>
      if decide (serviceName ∈ composeServices) then mret None
      else mret (Some ("service " +:+ serviceName +:+ " not found in compose files"))
  end.

(** ** [parseArgs] (main.go, lines 195-295) *)

Definition set_HealthcheckTimeout (d : Z) (c : Config) : Config :=
  mkConfig d (NoHealthcheckTimeout c) (WaitAfterHealthyDelay c) (TraefikConfFile c)
    (ProxyType c) (ComposeFiles c) (EnvFiles c) (Config_Service c) (Detach c).

Definition set_NoHealthcheckTimeout (d : Z) (c : Config) : Config :=
  mkConfig (HealthcheckTimeout c) d (WaitAfterHealthyDelay c) (TraefikConfFile c)
    (ProxyType c) (ComposeFiles c) (EnvFiles c) (Config_Service c) (Detach c).

Definition set_WaitAfterHealthyDelay (d : Z) (c : Config) : Config :=
  mkConfig (HealthcheckTimeout c) (NoHealthcheckTimeout c) d (TraefikConfFile c)
    (ProxyType c) (ComposeFiles c) (EnvFiles c) (Config_Service c) (Detach c).

Definition set_TraefikConfFile (path : string) (c : Config) : Config :=
  mkConfig (HealthcheckTimeout c) (NoHealthcheckTimeout c) (WaitAfterHealthyDelay c) path
    (ProxyType c) (ComposeFiles c) (EnvFiles c) (Config_Service c) (Detach c).

Definition set_ProxyType (proxy : string) (c : Config) : Config :=
  mkConfig (HealthcheckTimeout c) (NoHealthcheckTimeout c) (WaitAfterHealthyDelay c)
    (TraefikConfFile c) proxy (ComposeFiles c) (EnvFiles c) (Config_Service c) (Detach c).

Definition set_ComposeFiles (files : list string) (c : Config) : Config :=
  mkConfig (HealthcheckTimeout c) (NoHealthcheckTimeout c) (WaitAfterHealthyDelay c)
    (TraefikConfFile c) (ProxyType c) files (EnvFiles c) (Config_Service c) (Detach c).

Definition set_EnvFiles (files : list string) (c : Config) : Config :=
  mkConfig (HealthcheckTimeout c) (NoHealthcheckTimeout c) (WaitAfterHealthyDelay c)
    (TraefikConfFile c) (ProxyType c) (ComposeFiles c) files (Config_Service c) (Detach c).

Definition set_Service (service : string) (c : Config) : Config :=
  mkConfig (HealthcheckTimeout c) (NoHealthcheckTimeout c) (WaitAfterHealthyDelay c)
    (TraefikConfFile c) (ProxyType c) (ComposeFiles c) (EnvFiles c) service (Detach c).

(** Lines 196-203: the default values. *)
Definition defaultConfig : Config :=
  mkConfig (60 * Go.Second) (10 * Go.Second) (0 * Go.Second)
    "traefik/dynamic_conf.yml" "traefik" [] [] "" false.

(** [args[n:]] on a slice: panics when [n] exceeds its length. *)
Definition slice_from (n : nat) (args : list string) : option (list string) :=
  if decide (n ≤ length args)%nat then Some (drop n args) else None.

Section Arguments.

(** [time.ParseDuration] is outside the repository. *)
Variable time_ParseDuration : string → result Z.

(** The loop of lines 208-287 over the arguments that are left.  A flag
    with a value takes the next argument, whatever it looks like.  What
    [printUsage] writes on standard output is not part of the trace. *)
Fixpoint parseLoop (config : Config) (args : list string) : M Config :=
  match args with
  | [] => mret config
  | arg :: rest =>
      if decide (arg = "--help" ∨ arg = "-h") then os_Exit 0
      else if decide (arg = "--timeout" ∨ arg = "-t") then
        match rest with
        | [] => log_Fatalf "Missing value for --timeout flag"
        | value :: rest =>
            match time_ParseDuration (value +:+ "s") with
            | err e => log_Fatalf ("Invalid timeout value: " +:+ e)
            | ok duration => parseLoop (set_HealthcheckTimeout duration config) rest
            end
        end
      else if decide (arg = "--wait" ∨ arg = "-w") then
        match rest with
        | [] => log_Fatalf "Missing value for --wait flag"
        | value :: rest =>
            match time_ParseDuration (value +:+ "s") with
            | err e => log_Fatalf ("Invalid wait value: " +:+ e)
            | ok duration => parseLoop (set_NoHealthcheckTimeout duration config) rest
            end
        end
      else if decide (arg = "--wait-after-healthy" ∨ arg = "-wa") then
        match rest with
        | [] => log_Fatalf "Missing value for --wait-after-healthy flag"
        | value :: rest =>
            match time_ParseDuration (value +:+ "s") with
            | err e => log_Fatalf ("Invalid wait-after-healthy value: " +:+ e)
            | ok duration => parseLoop (set_WaitAfterHealthyDelay duration config) rest
            end
        end
      else if decide (arg = "--traefik-conf" ∨ arg = "-tc") then
        match rest with
        | [] => log_Fatalf "Missing value for --traefik-conf flag"
        | value :: rest => parseLoop (set_TraefikConfFile value config) rest
        end
      else if decide (arg = "--proxy" ∨ arg = "-p") then
        match rest with
        | [] => log_Fatalf "Missing value for --proxy flag"
        | value :: rest => parseLoop (set_ProxyType value config) rest
        end
      else if decide (arg = "--file" ∨ arg = "-f") then
        match rest with
        | [] => log_Fatalf "Missing value for --file flag"
        | value :: rest =>
            parseLoop (set_ComposeFiles (ComposeFiles config ++ [value])%list config) rest
        end
      else if decide (arg = "--env-file" ∨ arg = "-e") then
        match rest with
        | [] => log_Fatalf "Missing value for --env-file flag"
        | value :: rest =>
            parseLoop (set_EnvFiles (EnvFiles config ++ [value])%list config) rest
        end
      else if Go.HasPrefix arg "-" then log_Fatalf ("Unknown flag: " +:+ arg)
      else if decide (Config_Service config ≠ "")
      then log_Fatalf "Service name can only be specified once"
      else parseLoop (set_Service arg config) rest
  end.

(** [os_Args] is [os.Args]: the program, the plugin name, and what the
    user typed. *)
Definition parseArgs (os_Args : list string) : M Config :=
  args ← or_panic (slice_from 2 os_Args);
  config ← parseLoop defaultConfig args;
  if decide (ProxyType config ≠ "traefik" ∧ ProxyType config ≠ "nginx-proxy")
  then log_Fatalf ("Invalid proxy type: " +:+ ProxyType config
                     +:+ ". Must be either 'traefik' or 'nginx-proxy'")
  else mret config.

End Arguments.

(** * Vocabulary of the statements *)

(** ** Identifiers and addresses *)

(** Whether a byte occurs in a string. *)
Fixpoint occurs (c : ascii) (s : string) : bool :=
  match s with
  | EmptyString => false
  | String x s' => if ascii_dec x c then true else occurs c s'
  end.

(** The 12-byte short form of an identifier. *)
Definition short (id : string) : string := String.substring 0 12 id.

(** Position [i] is paired when both lists have it. *)
Definition paired (oldIds newIds : list string) (i : nat) (oldID newID : string) : Prop :=
  oldIds !! i = Some oldID ∧ newIds !! i = Some newID.

Definition long_enough (id : string) : Prop := (12 ≤ String.length id)%nat.

Definition paired_ids_long (oldIds newIds : list string) : Prop :=
  Forall (λ p, long_enough p.1 ∧ long_enough p.2) (zip oldIds newIds).

#[global] Instance paired_ids_long_dec oldIds newIds : Decision (paired_ids_long oldIds newIds).
Proof. unfold paired_ids_long, long_enough. apply _. Defined.

(** ** A small deployment, used to run the program on *)

Module Example.

Definition id_a : string := "aaaaaaaaaaaa1111".
Definition id_b : string := "bbbbbbbbbbbb2222".
Definition id_c : string := "cccccccccccc3333".
Definition id_d : string := "dddddddddddd4444".

Definition api_labels (rule : string) : list (string * string) :=
  [("com.docker.compose.service", "api");
   ("traefik.enable", "true");
   ("traefik.http.routers.api.rule", rule)].

Definition api (id rule : string) : Summary := mkSummary id (api_labels rule) "running".

Definition conf : string := "traefik/dynamic_conf.yml".
Definition compose_file : string := "docker-compose.yml".

Definition compose_doc : yaml := YMap {[ "services" := YMap {[ "api" := YNull ]} ]}.

(** The routing document of one service [api] with the given servers. *)
Definition routing (rule : string) (urls : list string) : TraefikConfig :=
  mkTraefikConfig (mkHTTP
    {[ "api" := mkRouter rule "api" ]}
    {[ "api" := mkService (mkLoadBalancer (mkServer <$> urls) None) ]}).

(** An environment in which nothing fails, no container defines a health
    check, and scaling [api] adds the containers [added]. *)
Definition quiet (added : list Summary) : Env :=
  mkEnv (λ _, None) (λ _ _, None) (λ _ _ cs, (cs ++ added)%list) (λ _ cs, cs) (λ _, false).

(** An environment in which the call made after [n] events fails, every
    container reports [health], and scaling adds the containers [added]. *)
Definition failing (n : nat) (health : option string) (added : list Summary) : Env :=
  mkEnv (λ i, if decide (i = n) then Some "boom" else None) (λ _ _, health)
        (λ _ _ cs, (cs ++ added)%list) (λ _ cs, cs) (λ _, false).

(** An environment in which nothing fails and every container starts to
    report healthy at time [t]. *)
Definition healthy_from (t : Z) : Env :=
  mkEnv (λ _, None)
        (λ _ now, if decide (now < t)%Z then Some "starting" else Some "healthy")
        (λ _ _ cs, cs) (λ _ cs, cs) (λ _, false).

Definition world (cs : list Summary) (config : TraefikConfig) : World :=
  mkWorld cs 0
    (<[conf := Doc (Yaml.Marshal config)]> {[ compose_file := Doc compose_doc ]})
    [] [].

Definition config (service : string) : Config :=
  mkConfig (5 * Go.Second) (10 * Go.Second) 0 conf "traefik" [compose_file] [] service false.

Definition no_json : string → option (option (gmap string string)) := λ _, None.

End Example.

(** The two splits of lines 351-358: the host and the port of an address
    of the shape [scheme://id:port]. *)
Definition parseTarget (url : string) : option (string * string) :=
  match Go.Split url "//" with
  | [_; rest] =>
      match Go.Split rest ":" with
      | [id; port] => Some (id, port)
      | _ => None
      end
  | _ => None
  end.

(** Whether [sep] occurs in [s]. *)
Fixpoint contains (sep s : string) : bool :=
  String.prefix sep s
  || match s with
     | EmptyString => false
     | String _ s' => contains sep s'
     end.

(** [url] reads [scheme://id:port]: the [//] that ends the scheme is the
    first one in [url] and no other follows it, and the [:] between [id] and
    [port] is the only one after it.  The scheme may be empty and may hold
    a [:], as [http:] does. *)
Definition address_of (url id port : string) : Prop :=
  ∃ scheme,
    url = scheme +:+ "//" +:+ id +:+ ":" +:+ port ∧
    contains "//" (scheme +:+ "/") = false ∧
    contains "//" (id +:+ ":" +:+ port) = false ∧
    contains ":" id = false ∧ contains ":" port = false.


(** ** Traces and the health gate *)

(** A world after more calls were recorded, with nothing else changed. *)
Definition observe (evs : list Event) (w : World) : World :=
  mkWorld (containers w) (clock w) (fs w) (fs_history w) (evs ++ events w).

(** How the gate reads [State.Health]. *)
Definition is_healthy (health : option string) : bool :=
  match health with
  | None => true
  | Some status => bool_decide (status = "healthy")
  end.

Definition inspect_error (msg : string) : string :=
  "failed to check container health: " +:+ ("failed to inspect container: " +:+ msg).

(** A call of the gate, seen from outside: inspections of the given
    containers and sleeps of one second. *)
Definition gate_event (containerIDs : list string) (ev : Event) : Prop :=
  (∃ id, id ∈ containerIDs ∧ ev = EvContainerInspect id) ∨ ev = EvSleep Go.Second.

(** The poll at tick [j] found a container that was not healthy. *)
Definition failed_poll (E : Env) (containerIDs : list string) (t : Z) : Prop :=
  ∃ id, id ∈ containerIDs ∧ is_healthy (health_of E id t) = false.

Definition all_healthy (E : Env) (containerIDs : list string) (t : Z) : Prop :=
  Forall (λ id, is_healthy (health_of E id t) = true) containerIDs.

(** How the gate ended after [k] failed polls, at time [t]. *)
Definition gate_verdict (E : Env) (containerIDs : list string) (deadline t : Z) (e : error)
    : Prop :=
  match e with
  | None => (t < deadline)%Z ∧ all_healthy E containerIDs t
  | Some msg =>
      (msg = timeout_error ∧ (deadline ≤ t)%Z)
      ∨ ((t < deadline)%Z ∧ ∃ m i, msg = inspect_error m ∧ daemon_error E i = Some m)
  end.

(** The inspections of one poll find the containers [ids] healthy: the
    call for the [i]-th of them, made when [n + i] calls have been
    recorded, is answered and reports no health check or [healthy] at
    time [t]. *)
Definition inspected_healthy (E : Env) (ids : list string) (t : Z) (n : nat) : Prop :=
  ∀ i id, ids !! i = Some id →
    daemon_error E (n + i) = None ∧ is_healthy (health_of E id t) = true.

(** The world after the containers [ids] have been inspected in order. *)
Definition inspected (ids : list string) (w : World) : World :=
  observe (rev (EvContainerInspect <$> ids)) w.

(** A run of the gate, tick by tick, from the world [w]: after [k] polls
    that stopped at a container that was not healthy and slept one second,
    the gate returns [e] in the world [w'].  A poll inspects the containers
    in order; the containers after the first one that is not healthy, or
    whose inspection fails, are not inspected in that poll. *)
Inductive gate_run (E : Env) (ids : list string) (deadline : Z)
    : World → nat → error → World → Prop :=
| gate_timeout w :
    (deadline ≤ clock w)%Z →
    gate_run E ids deadline w 0 (Some timeout_error) w
| gate_success w :
    (clock w < deadline)%Z →
    inspected_healthy E ids (clock w) (length (events w)) →
    gate_run E ids deadline w 0 None (inspected ids w)
| gate_inspection_failed w before id rest msg :
    (clock w < deadline)%Z →
    ids = before ++ id :: rest →
    inspected_healthy E before (clock w) (length (events w)) →
    daemon_error E (length (events w) + length before) = Some msg →
    gate_run E ids deadline w 0 (Some (inspect_error msg)) (inspected (before ++ [id]) w)
| gate_tick w before id rest k e w' :
    (clock w < deadline)%Z →
    ids = before ++ id :: rest →
    inspected_healthy E before (clock w) (length (events w)) →
    daemon_error E (length (events w) + length before) = None →
    is_healthy (health_of E id (clock w)) = false →
    gate_run E ids deadline
      (set_clock (clock w + Go.Second)
         (record (EvSleep Go.Second) (inspected (before ++ [id]) w))) k e w' →
    gate_run E ids deadline w (S k) e w'.

(** Every call that [m] records satisfies [P], and [m] forgets none. *)
Definition adds {A} (P : Event → Prop) (m : M A) : Prop :=
  ∀ w, ∃ evs, events (snd (m w)) = evs ++ events w ∧ Forall P evs.

(** The calls of the patcher: one read and at most one write of the
    configuration file. *)
Definition file_event (path : string) (ev : Event) : Prop :=
  ev = EvReadFile path ∨ ev = EvOpenTrunc path ∨ ∃ data, ev = EvWriteData path data.

(** The calls that stop and remove [containerIDs], in order. *)
Definition cleanup_calls (containerIDs : list string) : list Event :=
  containerIDs ≫= λ id, [EvContainerStop id 10; EvContainerRemove id true].

(** The error that [StopAndRemoveContainers] returns when the call [ev]
    fails with [msg]. *)
Definition cleanup_error (ev : Event) (msg : string) : string :=
  match ev with
  | EvContainerStop _ _ => "failed to stop container: " +:+ msg
  | _ => "failed to remove container: " +:+ msg
  end.

Definition cleanup_event (containerIDs : list string) (ev : Event) : Prop :=
  ∃ id, id ∈ containerIDs ∧ (ev = EvContainerStop id 10 ∨ ev = EvContainerRemove id true).

Definition rollback_logged (w : World) : Prop :=
  EvLog "error" rolling_back ∈ events w.

Definition not_rollback (ev : Event) : Prop := ev ≠ EvLog "error" rolling_back.

Definition any_event (ev : Event) : Prop := True.

(** The sentence of the specification on the rollback trigger, word for
    word: the rollback branch is entered exactly when the gate timed out. *)
Definition rollback_iff_timeout (E : Env) (config : Config)
    (oldContainers newContainers : list string) (w : World) : Prop :=
  rollback_logged (snd (finishUpdate E config oldContainers newContainers w)) ↔
  fst (WaitForHealthyContainers E newContainers (HealthcheckTimeout config) w)
    = Done (Some timeout_error).

(** The sentence of the specification on what the rollback removes, word
    for word: after a failed gate exactly the new containers are gone. *)
Definition rollback_removes_exactly (E : Env) (config : Config)
    (oldContainers newContainers : list string) (w : World) : Prop :=
  (∃ e, fst (WaitForHealthyContainers E newContainers (HealthcheckTimeout config) w)
        = Done (Some e)) →
  containers (snd (finishUpdate E config oldContainers newContainers w))
  = filter (λ c, ID c ∉ newContainers) (containers w).

(** The sentence of the specification on the gate, word for word: success
    at the first tick on which every container is healthy, the timeout error
    when the deadline passes without such a tick. *)
Definition gate_as_specified (E : Env) (containerIDs : list string) (timeout : Z)
    (w : World) : Prop :=
  let run := WaitForHealthyContainers E containerIDs timeout w in
  (∀ k : nat,
     (Z.of_nat k * Go.Second < timeout)%Z →
     all_healthy E containerIDs (clock w + Z.of_nat k * Go.Second) →
     (∀ j : nat, (j < k)%nat →
        ¬ all_healthy E containerIDs (clock w + Z.of_nat j * Go.Second)) →
     fst run = Done None ∧ clock (snd run) = (clock w + Z.of_nat k * Go.Second)%Z) ∧
  ((∀ k : nat, (Z.of_nat k * Go.Second < timeout)%Z →
      ¬ all_healthy E containerIDs (clock w + Z.of_nat k * Go.Second)) →
   fst run = Done (Some timeout_error) ∧ (clock w + timeout ≤ clock (snd run))%Z).

(** How often a container is inspected in a trace. *)
Fixpoint inspections (id : string) (evs : list Event) : nat :=
  match evs with
  | [] => 0
  | EvContainerInspect id' :: rest =>
      (if decide (id' = id) then 1 else 0) + inspections id rest
  | _ :: rest => inspections id rest
  end.

(** The sentence of the specification on what a tick does, word for word:
    on each tick the status of every container is queried, so that the gate
    has inspected each of the containers as often as any other. *)
Definition gate_polls_every_container (E : Env) (containerIDs : list string)
    (timeout : Z) (w : World) : Prop :=
  ∃ evs,
    events (snd (WaitForHealthyContainers E containerIDs timeout w)) = evs ++ events w ∧
    ∀ id id', id ∈ containerIDs → id' ∈ containerIDs →
      inspections id evs = inspections id' evs.


(** While a document is being published, a reader of [path] finds what was
    there before or all of the new document: this holds of the states the
    file system goes through. *)
Definition atomic_publication (path : string) (before : option FileData)
    (after : FileData) (states : list (gmap string FileData)) : Prop :=
  Forall (λ files, files !! path = before ∨ files !! path = Some after) states.

(** The sentence of the specification on publication, word for word, for a
    program [m] that publishes at [path]. *)
Definition publishes_atomically (m : M error) (path : string) (w : World) : Prop :=
  ∃ states,
    fs_history (snd (m w)) = states ++ fs_history w ∧
    ∀ after, fs (snd (m w)) !! path = Some after →
      atomic_publication path (fs w !! path) after states.











(** ** Command line, compose files and what is published *)

(** The spellings of the flags of [parseArgs]. *)
Definition flagSpellings : list string :=
  ["--help"; "-h"; "--timeout"; "-t"; "--wait"; "-w"; "--wait-after-healthy"; "-wa";
   "--traefik-conf"; "-tc"; "--proxy"; "-p"; "--file"; "-f"; "--env-file"; "-e"].

(** The flags that take the next argument as their value, with the name
    the messages give them. *)
Definition valueFlags : list (string * string) :=
  [("--timeout", "timeout"); ("-t", "timeout"); ("--wait", "wait"); ("-w", "wait");
   ("--wait-after-healthy", "wait-after-healthy"); ("-wa", "wait-after-healthy");
   ("--traefik-conf", "traefik-conf"); ("-tc", "traefik-conf");
   ("--proxy", "proxy"); ("-p", "proxy"); ("--file", "file"); ("-f", "file");
   ("--env-file", "env-file"); ("-e", "env-file")].

(** A duration parser that knows two values. *)
Definition sample_durations (v : string) : result Z :=
  if decide (v = "120s") then ok (120 * Go.Second)%Z
  else if decide (v = "0s") then ok 0%Z
  else err ("time: invalid duration " +:+ v).

(** A world in which nothing has happened. *)
Definition idle : World := mkWorld [] 0 ∅ [] [].

(** The compose file parses as [DeployService] reads it. *)
Definition compose_file_parses (w : World) (file : string) : Prop :=
  ∃ data composeFile,
    fs w !! file = Some data ∧ yaml_Unmarshal_ComposeFile data = ok composeFile.

(** The compose file parses and declares the service. *)
Definition compose_file_declares (w : World) (serviceName file : string) : Prop :=
  ∃ data composeFile,
    fs w !! file = Some data ∧ yaml_Unmarshal_ComposeFile data = ok composeFile ∧
    serviceName ∈ dom (ComposeFile_Services composeFile).

(** The event is the reading of one of the files. *)
Definition reads_of (files : list string) (ev : Event) : Prop :=
  ∃ file, file ∈ files ∧ ev = EvReadFile file.

(** A compose file whose service [api] lists its environment. *)
Definition compose_with_list_environment : yaml :=
  YMap {[ "services" :=
    YMap {[ "api" :=
      YMap (<["image" := YStr "nginx"]>
            {[ "environment" := YSeq [YStr "PORT=80"] ]}) ]} ]}.




(** The container carries the compose label of the service. *)
Definition in_service (serviceName : string) (c : Summary) : Prop :=
  label (Labels c) "com.docker.compose.service" = serviceName.

#[global] Instance in_service_dec serviceName c : Decision (in_service serviceName c).
Proof. unfold in_service. apply _. Defined.

(** The labels that make [GenerateConfig] publish a service: Traefik is
    enabled and the router has a rule. *)
Definition routed (serviceName : string) (c : Summary) : Prop :=
  label (Labels c) "traefik.enable" = "true" ∧
  label (Labels c) ("traefik.http.routers." +:+ serviceName +:+ ".rule") ≠ "".

#[global] Instance routed_dec serviceName c : Decision (routed serviceName c).
Proof. unfold routed. apply _. Defined.

(** The port of the targets of a service: the port label, 80 without it. *)
Definition server_port (serviceName : string) (c : Summary) : string :=
  let port := label (Labels c)
                ("traefik.http.services." +:+ serviceName +:+ ".loadbalancer.server.port") in
  if decide (port = "") then "80" else port.

(** The target that stands for a container. *)
Definition server_of (port : string) (c : Summary) : Server :=
  mkServer ("http://" +:+ short (ID c) +:+ ":" +:+ port).

(** The compose file parses as [GenerateConfig] reads it. *)
Definition compose_file_lists (w : World) (file : string) : Prop :=
  ∃ data services, fs w !! file = Some data ∧ composeFileServices data = ok services.

(** A text that can stand in an address between [//] and [:], or after
    the [:]. *)
Definition address_safe (s : string) : Prop :=
  occurs "/"%char s = false ∧ occurs ":"%char s = false.

(** The labels that [GenerateConfig] reads for a service say the same on
    both containers. *)
Definition same_routing_labels (json : string → option (option (gmap string string)))
    (serviceName : string) (c c' : Summary) : Prop :=
  label (Labels c') "traefik.enable" = label (Labels c) "traefik.enable" ∧
  label (Labels c') ("traefik.http.routers." +:+ serviceName +:+ ".rule")
    = label (Labels c) ("traefik.http.routers." +:+ serviceName +:+ ".rule") ∧
  label (Labels c') ("traefik.http.services." +:+ serviceName +:+ ".loadbalancer.server.port")
    = label (Labels c)
        ("traefik.http.services." +:+ serviceName +:+ ".loadbalancer.server.port") ∧
  extractHealthCheck json (Labels c') serviceName
    = extractHealthCheck json (Labels c) serviceName.


(** The configuration without routers and services. *)
Definition emptyConfig : TraefikConfig := mkTraefikConfig (mkHTTP ∅ ∅).

(** No label value decodes to a nil map, as the JSON [null] does. *)
Definition no_null_label (json : string → option (option (gmap string string)))
    (labels : list (string * string)) : Prop :=
  ∀ key value, (key, value) ∈ labels → json value ≠ Some None.

(** The delay that [main] lets pass between a successful gate and the
    removal of the old containers. *)
Definition hand_over_delay (config : Config) : Z :=
  (if decide (0 < WaitAfterHealthyDelay config)%Z then WaitAfterHealthyDelay config else 0)
  + Z.max 0 (NoHealthcheckTimeout config).

(** No call to the daemon or to the compose command line fails. *)
Definition daemon_answers (E : Env) : Prop := ∀ i, daemon_error E i = None.

(** * Properties *)

(** ** Strings *)

Section StringFacts.

Lemma slice_to_Some n s :
  (n ≤ String.length s)%nat → Go.slice_to n s = Some (String.substring 0 n s).
Proof. intros H. unfold Go.slice_to. by rewrite decide_True. Qed.

Lemma slice_to_None n s :
  (String.length s < n)%nat → Go.slice_to n s = None.
Proof. intros H. unfold Go.slice_to. rewrite decide_False; [done | lia]. Qed.

Lemma app_nil (s : string) : "" +:+ s = s.
Proof. reflexivity. Qed.

Lemma app_cons c (a s : string) : String c a +:+ s = String c (a +:+ s).
Proof. reflexivity. Qed.

Lemma prefix_app p s : String.prefix p (p +:+ s) = true.
Proof.
  induction p as [|c p IH].
  - rewrite app_nil. by destruct s.
  - rewrite app_cons. simpl. destruct (ascii_dec c c); [done | congruence].
Qed.

Lemma HasPrefix_app p s : Go.HasPrefix (p +:+ s) p = true.
Proof. apply prefix_app. Qed.

Lemma prefix_head c sep s x :
  String.prefix (String c sep) (String x s) = true → x = c.
Proof. simpl. destruct (ascii_dec c x); [done | discriminate]. Qed.

(** A string without the first byte of the separator is one piece. *)
Lemma Split_from_no_sep c sep s :
  occurs c s = false → Go.Split_from (String c sep) s 0 = [s].
Proof.
  induction s as [|x s IH]; [done |]. cbn [occurs Go.Split_from].
  destruct (ascii_dec x c) as [-> | Hne]; [discriminate |]. intros Hs.
  destruct (String.prefix (String c sep) (String x s)) eqn:Hp.
  - apply prefix_head in Hp. congruence.
  - by rewrite (IH Hs).
Qed.

Lemma Split_from_skip sep s t :
  Go.Split_from sep (s +:+ t) (String.length s) = Go.Split_from sep t 0.
Proof.
  induction s as [|x s IH]; [done |]. rewrite app_cons. simpl. apply IH.
Qed.

(** The first piece ends at the first occurrence of the separator, when
    what comes before does not hold its first byte. *)
Lemma Split_from_first c sep a b :
  occurs c a = false →
  Go.Split_from (String c sep) (a +:+ String c sep +:+ b) 0
  = a :: Go.Split_from (String c sep) b 0.
Proof.
  induction a as [|x a IH]; intros Ha.
  - rewrite app_nil, app_cons. cbn [Go.Split_from].
    rewrite <- app_cons, prefix_app. f_equal.
    replace (String.length (String c sep) - 1)%nat with (String.length sep)
      by (simpl; lia).
    apply Split_from_skip.
  - cbn [occurs] in Ha. destruct (ascii_dec x c) as [-> | Hne]; [discriminate |].
    rewrite app_cons. cbn [Go.Split_from].
    destruct (String.prefix (String c sep) (String x (a +:+ String c sep +:+ b))) eqn:Hp.
    + apply prefix_head in Hp. congruence.
    + by rewrite (IH Ha).
Qed.

Example Split_address : Go.Split "http://abc:80" "//" = ["http:"; "abc:80"].
Proof. reflexivity. Qed.

Example Split_leftmost : Go.Split "a///b" "//" = ["a"; "/b"].
Proof. reflexivity. Qed.

Example Split_trailing : Go.Split "abc:" ":" = ["abc"; ""].
Proof. reflexivity. Qed.

End StringFacts.

(** ** Splitting at a separator *)

Section SplitFacts.

Lemma append_empty (s : string) : s +:+ "" = s.
Proof. induction s as [|c s IH]; [done |]. by rewrite app_cons, IH. Qed.

Lemma append_assoc (a b c : string) : (a +:+ b) +:+ c = a +:+ b +:+ c.
Proof. induction a as [|x a IH]; [done |]. by rewrite !app_cons, IH. Qed.

Lemma append_length (a b : string) :
  String.length (a +:+ b) = (String.length a + String.length b)%nat.
Proof. induction a as [|x a IH]; [done |]. rewrite app_cons. simpl. by rewrite IH. Qed.

Lemma prefix_split p s : String.prefix p s = true → ∃ t, s = p +:+ t.
Proof.
  revert s. induction p as [|c p IH]; intros s Hp; [by exists s |].
  destruct s as [|x s]; [done |]. simpl in Hp.
  destruct (ascii_dec c x) as [-> |]; [| done].
  destruct (IH s Hp) as [t ->]. by exists t.
Qed.

Lemma prefix_short p s :
  (String.length s < String.length p)%nat → String.prefix p s = false.
Proof.
  revert s. induction p as [|c p IH]; intros s Hlen; [simpl in Hlen; lia |].
  destruct s as [|x s]; [done |]. simpl in Hlen |- *.
  destruct (ascii_dec c x); [| done]. apply IH. lia.
Qed.

(** A prefix test looks at the first bytes only. *)
Lemma prefix_app_long p u v :
  (String.length p ≤ String.length u)%nat →
  String.prefix p (u +:+ v) = String.prefix p u.
Proof.
  revert u. induction p as [|c p IH]; intros u Hlen; [by destruct u, v |].
  destruct u as [|x u]; [simpl in Hlen; lia |].
  rewrite app_cons. simpl in Hlen |- *.
  destruct (ascii_dec c x); [| done]. apply IH. lia.
Qed.

Lemma contains_cons sep c s :
  contains sep (String c s) = String.prefix sep (String c s) || contains sep s.
Proof. done. Qed.

Lemma contains_short sep s :
  (String.length s < String.length sep)%nat → contains sep s = false.
Proof.
  induction s as [|c s IH]; intros Hlen.
  - cbn [contains]. by rewrite prefix_short.
  - rewrite contains_cons, prefix_short by done. simpl in Hlen. apply IH. lia.
Qed.

Lemma Split_from_not_nil sep s : ∀ skip, Go.Split_from sep s skip ≠ [].
Proof.
  induction s as [|c s IH]; intros skip; [done |]. cbn [Go.Split_from].
  destruct skip as [|k]; [| apply IH].
  destruct (String.prefix sep (String c s)); [done |].
  by destruct (Go.Split_from sep s 0).
Qed.

(** A string in which the separator does not occur is one piece. *)
Lemma Split_from_absent sep s :
  contains sep s = false → Go.Split_from sep s 0 = [s].
Proof.
  induction s as [|c s IH]; [done |].
  rewrite contains_cons. intros [Hp Hs]%orb_false_iff.
  cbn [Go.Split_from]. by rewrite Hp, (IH Hs).
Qed.

Section Separator.

(** A separator that is not empty: [init] is all of it but its last
    byte. *)
Variables (sep init : string) (last : ascii).
Hypothesis Hsep : sep = init +:+ String last "".

Lemma sep_length : String.length sep = S (String.length init).
Proof. rewrite Hsep, append_length. simpl. lia. Qed.

Lemma sep_cons : ∃ c sep0, sep = String c sep0.
Proof. rewrite Hsep. destruct init; by eexists _, _. Qed.

Lemma sep_shift x a b :
  String x (a +:+ sep +:+ b) = String x (a +:+ init) +:+ String last "" +:+ b.
Proof. rewrite Hsep, app_cons, !append_assoc. done. Qed.

(** The first piece ends where the separator first occurs. *)
Lemma Split_from_occurrence a b :
  contains sep (a +:+ init) = false →
  Go.Split_from sep (a +:+ sep +:+ b) 0 = a :: Go.Split_from sep b 0.
Proof.
  destruct sep_cons as (c & sep0 & Hc).
  induction a as [|x a IH]; intros Ha.
  - rewrite app_nil. rewrite Hc at 2. rewrite app_cons. cbn [Go.Split_from].
    rewrite <- app_cons, <- Hc, prefix_app. f_equal.
    replace (String.length sep - 1)%nat with (String.length sep0)
      by (rewrite Hc; simpl; lia).
    apply Split_from_skip.
  - rewrite app_cons, contains_cons in Ha. apply orb_false_iff in Ha as [Hp Ha].
    rewrite app_cons. cbn [Go.Split_from].
    assert (String.prefix sep (String x (a +:+ sep +:+ b)) = false) as ->.
    { rewrite <- Hp, sep_shift. apply prefix_app_long.
      rewrite sep_length. simpl. rewrite append_length. lia. }
    by rewrite (IH Ha).
Qed.

(** Where the separator occurs, it occurs a first time. *)
Lemma contains_first s :
  contains sep s = true →
  ∃ a b, s = a +:+ sep +:+ b ∧ contains sep (a +:+ init) = false.
Proof.
  induction s as [|x s IH].
  - cbn [contains]. rewrite prefix_short; [done |]. rewrite sep_length. simpl. lia.
  - rewrite contains_cons. intros Hs.
    destruct (String.prefix sep (String x s)) eqn:Hp.
    + apply prefix_split in Hp as [b Hb]. exists "", b. split; [done |].
      rewrite app_nil. apply contains_short. rewrite sep_length. lia.
    + simpl in Hs. destruct (IH Hs) as (a & b & -> & Ha).
      exists (String x a), b. split; [done |].
      rewrite app_cons, contains_cons, Ha, orb_false_r.
      rewrite <- Hp, sep_shift. symmetry. apply prefix_app_long.
      rewrite sep_length. simpl. rewrite append_length. lia.
Qed.

(** Exactly two pieces: the separator occurs once. *)
Lemma Split_from_two s x y :
  Go.Split_from sep s 0 = [x; y] ↔
  s = x +:+ sep +:+ y ∧ contains sep (x +:+ init) = false ∧ contains sep y = false.
Proof.
  split.
  - intros Hsplit.
    destruct (contains sep s) eqn:Hs.
    2: { by rewrite (Split_from_absent _ _ Hs) in Hsplit. }
    destruct (contains_first s Hs) as (a & b & -> & Ha).
    rewrite (Split_from_occurrence _ _ Ha) in Hsplit.
    injection Hsplit as -> Hb.
    destruct (contains sep b) eqn:Hcb.
    + destruct (contains_first b Hcb) as (a' & b' & -> & Ha').
      rewrite (Split_from_occurrence _ _ Ha') in Hb.
      injection Hb as _ Hb. by apply Split_from_not_nil in Hb.
    + rewrite (Split_from_absent _ _ Hcb) in Hb. by simplify_eq.
  - intros (-> & Hx & Hy).
    by rewrite (Split_from_occurrence _ _ Hx), (Split_from_absent _ _ Hy).
Qed.

End Separator.

End SplitFacts.

(** ** The patcher: the identifier map *)

Section ContainerMap.

Lemma paired_ids_long_lookup oldIds newIds :
  paired_ids_long oldIds newIds ↔
  ∀ i oldID newID, paired oldIds newIds i oldID newID →
    long_enough oldID ∧ long_enough newID.
Proof.
  unfold paired_ids_long, paired. rewrite Forall_lookup. split.
  - intros H i o n [Ho Hn]. apply (H i (o, n)).
    rewrite lookup_zip_with, Ho. simpl. by rewrite Hn.
  - intros H i [o n] Hi.
    apply lookup_zip_with_Some in Hi as (o' & n' & ? & Ho & Hn). simplify_eq.
    by apply (H i).
Qed.

Lemma buildContainerMap_is_Some newIds oldIds : ∀ i m,
  is_Some (buildContainerMap newIds i oldIds m) ↔
  ∀ j oldID newID, oldIds !! j = Some oldID → newIds !! (i + j)%nat = Some newID →
    long_enough oldID ∧ long_enough newID.
Proof.
  unfold long_enough.
  induction oldIds as [|o rest IH]; intros i m; cbn [buildContainerMap].
  - split; [intros _ j ?? Hj; by rewrite lookup_nil in Hj | by eauto].
  - destruct (newIds !! i) as [n|] eqn:Hn.
    + destruct (decide (12 ≤ String.length o)%nat) as [Ho | Ho];
        [rewrite (slice_to_Some _ _ Ho) | rewrite (slice_to_None 12 o) by lia]; simpl.
      2: { split; [by intros [? ?] |]. intros H.
           destruct (H 0%nat o n) as [? _]; [done | by rewrite Nat.add_0_r | lia]. }
      destruct (decide (12 ≤ String.length n)%nat) as [Hl | Hl];
        [rewrite (slice_to_Some _ _ Hl) | rewrite (slice_to_None 12 n) by lia]; simpl.
      2: { split; [by intros [? ?] |]. intros H.
           destruct (H 0%nat o n) as [_ ?]; [done | by rewrite Nat.add_0_r | lia]. }
      rewrite IH. split; intros H j oldID newID Hj Hj'.
      * destruct j as [|j]; simpl in Hj.
        -- rewrite Nat.add_0_r in Hj'. by simplify_eq.
        -- apply (H j); [done |]. by replace (S i + j)%nat with (i + S j)%nat by lia.
      * apply (H (S j)); [done |]. by replace (i + S j)%nat with (S i + j)%nat by lia.
    + rewrite IH. split; intros H j oldID newID Hj Hj'.
      * destruct j as [|j]; simpl in Hj.
        -- rewrite Nat.add_0_r in Hj'. congruence.
        -- apply (H j); [done |]. by replace (S i + j)%nat with (i + S j)%nat by lia.
      * apply (H (S j)); [done |]. by replace (i + S j)%nat with (S i + j)%nat by lia.
Qed.

Lemma buildContainerMap_total oldIds newIds :
  is_Some (buildContainerMap newIds 0 oldIds ∅) ↔ paired_ids_long oldIds newIds.
Proof.
  rewrite buildContainerMap_is_Some, paired_ids_long_lookup. unfold paired.
  split; intros H i o n; [intros [? ?] | intros ? ?]; by apply (H i).
Qed.

(** What the map holds for a host: the short form of the new identifier
    at a paired position whose old identifier has that short form, and
    nothing when there is no such position. *)
Lemma buildContainerMap_lookup newIds oldIds host : ∀ i m cm,
  buildContainerMap newIds i oldIds m = Some cm →
  (cm !! host = m !! host ∧
   ∀ j oldID, oldIds !! j = Some oldID → is_Some (newIds !! (i + j)%nat) →
     short oldID ≠ host)
  ∨ (∃ j oldID newID, oldIds !! j = Some oldID ∧ newIds !! (i + j)%nat = Some newID ∧
       short oldID = host ∧ cm !! host = Some (short newID)).
Proof.
  induction oldIds as [|o rest IH]; intros i m cm; cbn [buildContainerMap].
  - intros [= ->]. left. split; [done |]. intros j ? Hj. by rewrite lookup_nil in Hj.
  - destruct (newIds !! i) as [n|] eqn:Hn.
    + unfold Go.slice_to. repeat case_decide; simpl; try done. intros Hb.
      destruct (IH _ _ _ Hb) as [[Hcm Hno] | (j & oldID & newID & Hj & Hj' & Hs & Hcm)].
      * destruct (decide (short o = host)) as [Heq | Hne].
        -- right. exists 0%nat, o, n. rewrite Nat.add_0_r. split_and!; try done.
           rewrite Hcm. unfold short in Heq. rewrite Heq. apply lookup_insert_eq.
        -- left. split.
           ++ rewrite Hcm. by apply lookup_insert_ne.
           ++ intros [|j] oldID Hj Hj'; simpl in Hj; [by simplify_eq |].
              apply (Hno j); [done |]. by replace (S i + j)%nat with (i + S j)%nat by lia.
      * right. exists (S j), oldID, newID.
        by replace (i + S j)%nat with (S i + j)%nat by lia.
    + intros Hb.
      destruct (IH _ _ _ Hb) as [[Hcm Hno] | (j & oldID & newID & Hj & Hj' & Hs & Hcm)].
      * left. split; [done |].
        intros [|j] oldID Hj Hj'; simpl in Hj.
        -- rewrite Nat.add_0_r, Hn in Hj'. by destruct Hj'.
        -- apply (Hno j); [done |]. by replace (S i + j)%nat with (i + S j)%nat by lia.
      * right. exists (S j), oldID, newID.
        by replace (i + S j)%nat with (S i + j)%nat by lia.
Qed.

End ContainerMap.

(** ** Running programs *)

Section Runs.

Variable E : Env.

Lemma bind_Done {A B} (m : M A) (k : A → M B) w a w' :
  m w = (Done a, w') → (m ≫= k) w = k a w'.
Proof. intros H. unfold mbind, M_bind. by rewrite H. Qed.

(** [UpdateConfig], one outcome per way through it. *)
Lemma UpdateConfig_unfold oldIds newIds path w :
  UpdateConfig E oldIds newIds path w =
  let w1 := record (EvReadFile path) w in
  match fs w !! path with
  | None => (Done (Some ("failed to read config file: " +:+ "no such file or directory")), w1)
  | Some data =>
      match yaml_Unmarshal data with
      | err e => (Done (Some ("failed to parse config file: " +:+ e)), w1)
      | ok config =>
          match buildContainerMap newIds 0 oldIds ∅ with
          | None => (Panicked, w1)
          | Some cm =>
              let w2 := record (EvOpenTrunc path) w1 in
              if write_denied E path
              then (Done (Some ("failed to write updated config: " +:+ "permission denied")), w2)
              else
                let doc := Doc (Yaml.Marshal (updateServices cm config)) in
                (Done None,
                 set_file path doc (record (EvWriteData path doc) (set_file path empty_file w2)))
          end
      end
  end.
Proof.
  unfold UpdateConfig, os_ReadFile, os_WriteFile, sys_open_trunc, sys_write, or_panic,
    mbind, M_bind, mret, M_ret. simpl.
  destruct (fs w !! path) as [data|]; [| done].
  destruct (yaml_Unmarshal data) as [config | e]; [| done].
  destruct (buildContainerMap newIds 0 oldIds ∅) as [cm|]; [| done].
  by destruct (write_denied E path).
Qed.

End Runs.

(** ** The patcher: target addresses *)

Section Patcher.

Variable E : Env.

Lemma updateServer_parseTarget cm server :
  updateServer cm server =
  match parseTarget (URL server) with
  | Some (id, port) =>
      match cm !! id with
      | Some newID => mkServer ("http://" +:+ newID +:+ ":" +:+ port)
      | None => server
      end
  | None => server
  end.
Proof. unfold updateServer, parseTarget. repeat case_match; by simplify_eq. Qed.

Lemma occurs_app c a b : occurs c (a +:+ b) = occurs c a || occurs c b.
Proof.
  induction a as [|x a IH]; [done |]. rewrite app_cons. simpl.
  by destruct (ascii_dec x c).
Qed.

(** The addresses that [GenerateConfig] writes have that shape. *)
Lemma parseTarget_generated id port :
  occurs "/"%char id = false → occurs ":"%char id = false →
  occurs "/"%char port = false → occurs ":"%char port = false →
  parseTarget ("http://" +:+ id +:+ ":" +:+ port) = Some (id, port).
Proof.
  intros Hid1 Hid2 Hp1 Hp2. unfold parseTarget, Go.Split.
  change ("http://" +:+ id +:+ ":" +:+ port)
    with ("http:" +:+ "//" +:+ (id +:+ ":" +:+ port)).
  rewrite Split_from_first by done.
  rewrite Split_from_no_sep.
  2: { rewrite !occurs_app, Hid1, Hp1. done. }
  rewrite Split_from_first by done.
  by rewrite Split_from_no_sep.
Qed.

Example parseTarget_address : parseTarget "http://abc:80" = Some ("abc", "80").
Proof. reflexivity. Qed.

Example parseTarget_no_port : parseTarget "http://abc" = None.
Proof. reflexivity. Qed.

Example parseTarget_path : parseTarget "https://abc:443/x" = Some ("abc", "443/x").
Proof. reflexivity. Qed.

(** With two old identifiers and one new one, only the first is replaced. *)
Example patch_short_list :
  (buildContainerMap [Example.id_c] 0 [Example.id_a; Example.id_b] ∅ ≫= λ cm,
     Some (updateServer cm <$>
             [mkServer "http://aaaaaaaaaaaa:80"; mkServer "http://bbbbbbbbbbbb:80";
              mkServer "https://aaaaaaaaaaaa:443"; mkServer "aaaaaaaaaaaa:80"]))
  = Some [mkServer "http://cccccccccccc:80"; mkServer "http://bbbbbbbbbbbb:80";
          mkServer "http://cccccccccccc:443"; mkServer "aaaaaaaaaaaa:80"].
Proof. vm_compute. reflexivity. Qed.

End Patcher.

Section Addresses.

(** The two splits of the patcher accept exactly the addresses that read
    [scheme://id:port]. *)
Lemma parseTarget_address_of url id port :
  parseTarget url = Some (id, port) ↔ address_of url id port.
Proof.
  unfold parseTarget, address_of, Go.Split. split.
  - destruct (Go.Split_from "//" url 0) as [|scheme [|rest [|? ?]]] eqn:Hurl; try done.
    destruct (Go.Split_from ":" rest 0) as [|id' [|port' [|? ?]]] eqn:Hrest; try done.
    intros [= -> ->].
    apply (Split_from_two "//" "/" "/"%char eq_refl) in Hurl as (-> & Hscheme & Hfree).
    apply (Split_from_two ":" "" ":"%char eq_refl) in Hrest as (-> & Hid & Hport).
    rewrite append_empty in Hid. by exists scheme.
  - intros (scheme & -> & Hscheme & Hfree & Hid & Hport).
    rewrite (proj2 (Split_from_two "//" "/" "/"%char eq_refl _ scheme
                      (id +:+ ":" +:+ port))) by done.
    rewrite (proj2 (Split_from_two ":" "" ":"%char eq_refl _ id port)); [done |].
    by rewrite append_empty.
Qed.



(** Addresses as the patcher reads them. *)
Example address_of_generated : address_of "http://aaaaaaaaaaaa:80" "aaaaaaaaaaaa" "80".
Proof. by apply parseTarget_address_of. Qed.

Example address_of_path : address_of "https://abc:443/x" "abc" "443/x".
Proof. by apply parseTarget_address_of. Qed.

Example address_of_no_port id port : ¬ address_of "http://abc" id port.
Proof. by intros ?%parseTarget_address_of. Qed.

Example address_of_two_colons id port : ¬ address_of "http://[::1]:80" id port.
Proof. by intros ?%parseTarget_address_of. Qed.

End Addresses.

Section PatcherClaims.




(** C10 — [UpdateConfig] slices the first 12 bytes of every paired
    identifier: with a paired identifier shorter than 12 bytes it panics
    (once the document has been read and parsed), and when every paired
    identifier has at least 12 bytes it does not panic. *)
Theorem UpdateConfig_panics_on_short_identifier E oldIds newIds configPath w :
  (paired_ids_long oldIds newIds →
     fst (UpdateConfig E oldIds newIds configPath w) ≠ Panicked) ∧
  (∀ data config i oldID newID,
     fs w !! configPath = Some data →
     yaml_Unmarshal data = ok config →
     paired oldIds newIds i oldID newID →
     (String.length oldID < 12 ∨ String.length newID < 12)%nat →
     fst (UpdateConfig E oldIds newIds configPath w) = Panicked).
Proof.
  rewrite UpdateConfig_unfold. cbv zeta. split.
  - intros [cm Hcm]%buildContainerMap_total. rewrite Hcm.
    repeat case_match; done.
  - intros data config i oldID newID Hfile Hparse Hp Hshort.
    rewrite Hfile, Hparse.
    destruct (buildContainerMap newIds 0 oldIds ∅) as [cm|] eqn:Hcm; [| done].
    assert (paired_ids_long oldIds newIds) as Hlong
      by (apply buildContainerMap_total; eauto).
    rewrite paired_ids_long_lookup in Hlong.
    destruct (Hlong _ _ _ Hp) as [H1 H2]. unfold long_enough in *. lia.
Qed.

Lemma UpdateConfig_panics_on_short_identifier_witness :
  let config := Example.routing "Host(`a.com`)" ["http://a1:80"] in
  fst (UpdateConfig (Example.quiet []) [Example.id_a] [Example.id_c] Example.conf
         (Example.world [] config)) ≠ Panicked ∧
  fst (UpdateConfig (Example.quiet []) ["a1"; "b2"] ["c3"] Example.conf
         (Example.world [] config)) = Panicked.
Proof.
  intros config. split.
  - apply (proj1 (UpdateConfig_panics_on_short_identifier (Example.quiet []) [Example.id_a] [Example.id_c]
                    Example.conf (Example.world [] config))).
    vm_compute. repeat constructor.
  - apply (proj2 (UpdateConfig_panics_on_short_identifier (Example.quiet []) ["a1"; "b2"] ["c3"]
                    Example.conf (Example.world [] config))
             (Doc (Yaml.Marshal config)) config 0%nat "a1" "c3").
    + reflexivity.
    + vm_compute. reflexivity.
    + split; reflexivity.
    + simpl. lia.
Defined.

End PatcherClaims.

(** ** The health gate *)

Section HealthGate.

Variable E : Env.

Lemma observe_nil w : observe [] w = w.
Proof. by destruct w. Qed.

Lemma observe_observe evs evs' w : observe evs (observe evs' w) = observe (evs ++ evs') w.
Proof. unfold observe. simpl. by rewrite app_assoc. Qed.

Lemma CheckContainerHealth_unfold containerID w :
  CheckContainerHealth E containerID w =
  (Done match daemon_error E (length (events w)) with
        | Some e => err ("failed to inspect container: " +:+ e)
        | None => ok (is_healthy (health_of E containerID (clock w)))
        end,
   record (EvContainerInspect containerID) w).
Proof.
  unfold CheckContainerHealth, ContainerInspect, mbind, M_bind, mret, M_ret, is_healthy.
  destruct (daemon_error E (length (events w))); [done |].
  by destruct (health_of E containerID (clock w)).
Qed.

(** One poll: the containers are inspected in order up to the first one
    that is not healthy or whose inspection fails. *)
Lemma checkContainers_spec containerIDs : ∀ w,
  ∃ r seen rest,
    checkContainers E containerIDs w
      = (Done r, observe (rev (EvContainerInspect <$> seen)) w) ∧
    containerIDs = seen ++ rest ∧
    match r with
    | ok true =>
        rest = [] ∧ Forall (λ id, is_healthy (health_of E id (clock w)) = true) containerIDs
    | ok false =>
        ∃ before id, seen = before ++ [id] ∧
          is_healthy (health_of E id (clock w)) = false
    | err e =>
        ∃ before id msg, seen = before ++ [id] ∧ e = inspect_error msg ∧
          daemon_error E (length (events w) + length before) = Some msg
    end.
Proof.
  induction containerIDs as [|id ids IH]; intros w; cbn [checkContainers].
  - exists (ok true), [], []. rewrite observe_nil. by repeat split.
  - unfold mbind, M_bind. rewrite CheckContainerHealth_unfold.
    destruct (daemon_error E (length (events w))) as [msg|] eqn:Herr.
    + exists (err (inspect_error msg)), [id], ids. repeat split.
      exists [], id, msg. rewrite Nat.add_0_r. by repeat split.
    + destruct (is_healthy (health_of E id (clock w))) eqn:Hh.
      * destruct (IH (record (EvContainerInspect id) w)) as (r & seen & rest & -> & -> & Hr).
        exists r, (id :: seen), rest. split; [| split; [done |]].
        { f_equal. unfold observe, record. simpl. by rewrite <- app_assoc. }
        destruct r as [[|] | e]; simpl in *.
        -- destruct Hr as [-> Hall]. split; [done |]. by constructor.
        -- destruct Hr as (before & id' & -> & Hid'). by exists (id :: before), id'.
        -- destruct Hr as (before & id' & msg & -> & -> & Hi).
           exists (id :: before), id', msg. repeat split.
           simpl. by rewrite <- Nat.add_succ_comm.
      * exists (ok false), [id], ids. repeat split. by exists [], id.
Qed.

Lemma waitLoop_spec fuel : ∀ containerIDs deadline w,
  (1 ≤ fuel)%nat →
  (deadline - clock w ≤ (Z.of_nat fuel - 1) * Go.Second)%Z →
  ∃ e (k : nat) evs,
    waitLoop E fuel containerIDs deadline w
      = (Done e, set_clock (clock w + Z.of_nat k * Go.Second) (observe evs w)) ∧
    Forall (gate_event containerIDs) evs ∧
    (∀ j : nat, (j < k)%nat →
       (clock w + Z.of_nat j * Go.Second < deadline)%Z ∧
       failed_poll E containerIDs (clock w + Z.of_nat j * Go.Second)) ∧
    gate_verdict E containerIDs deadline (clock w + Z.of_nat k * Go.Second) e.
Proof.
  induction fuel as [|fuel IH]; intros ids deadline w Hfuel Hbound; [lia |].
  cbn [waitLoop]. unfold mbind at 1, M_bind at 1, time_Now at 1.
  case_decide as Hnow.
  2: { exists (Some timeout_error), 0%nat, []. split_and!.
       - unfold mret, M_ret. f_equal. destruct w; unfold set_clock, observe; simpl.
         f_equal. lia.
       - constructor.
       - intros j Hj. lia.
       - left. split; [done |]. lia. }
  destruct (checkContainers_spec ids w) as (r & seen & rest & Hrun & Hids & Hr).
  unfold mbind, M_bind. rewrite Hrun.
  assert (Forall (gate_event ids) (rev (EvContainerInspect <$> seen))) as Hseen.
  { apply Forall_rev, Forall_fmap, list.Forall_forall. intros id Hid. left. exists id.
    split; [| done]. rewrite Hids. apply elem_of_app. by left. }
  assert (observe (rev (EvContainerInspect <$> seen)) w
          = set_clock (clock w + Z.of_nat 0 * Go.Second)
              (observe (rev (EvContainerInspect <$> seen)) w)) as Hw0.
  { destruct w; unfold set_clock, observe; simpl. f_equal. lia. }
  destruct r as [[|] | e].
  - exists None, 0%nat, (rev (EvContainerInspect <$> seen)). split_and!.
    + unfold mret, M_ret. by rewrite <- Hw0.
    + done.
    + intros j Hj. lia.
    + destruct Hr as [_ Hall]. split; [lia |].
      by replace (clock w + Z.of_nat 0 * Go.Second)%Z with (clock w) by lia.
  - set (w1 := observe (rev (EvContainerInspect <$> seen)) w).
    unfold time_Sleep at 1.
    set (w2 := set_clock (clock w1 + Z.max 0 Go.Second) (record (EvSleep Go.Second) w1)).
    assert (clock w2 = clock w + Go.Second)%Z as Hc2 by (unfold w2, w1, Go.Second; simpl; lia).
    destruct (IH ids deadline w2) as (e & k & evs & Hloop & Hevs & Hpolls & Hv).
    { unfold Go.Second in *. lia. }
    { rewrite Hc2. unfold Go.Second in *. lia. }
    exists e, (S k), (evs ++ EvSleep Go.Second :: rev (EvContainerInspect <$> seen)).
    split_and!.
    + rewrite Hloop. f_equal. rewrite Hc2. unfold set_clock, observe, w2; simpl.
      f_equal; [lia |]. by rewrite <- app_assoc.
    + apply Forall_app. split; [done |]. constructor; [by right | done].
    + intros [|j] Hj.
      * split; [lia |]. destruct Hr as (before & id & -> & Hid). exists id.
        replace (clock w + Z.of_nat 0 * Go.Second)%Z with (clock w) by lia.
        split; [| done]. rewrite Hids, !elem_of_app, list_elem_of_singleton. auto.
      * destruct (Hpolls j) as [Hlt Hfail]; [lia |]. rewrite Hc2 in Hlt, Hfail.
        replace (clock w + Z.of_nat (S j) * Go.Second)%Z
          with (clock w + Go.Second + Z.of_nat j * Go.Second)%Z by lia.
        done.
    + rewrite Hc2 in Hv.
      replace (clock w + Z.of_nat (S k) * Go.Second)%Z
        with (clock w + Go.Second + Z.of_nat k * Go.Second)%Z by lia.
      done.
  - exists (Some e), 0%nat, (rev (EvContainerInspect <$> seen)). split_and!.
    + unfold mret, M_ret. by rewrite <- Hw0.
    + done.
    + intros j Hj. lia.
    + right. split; [lia |]. destruct Hr as (before & id & msg & _ & -> & Hmsg). eauto.
Qed.

Lemma polls_enough timeout :
  (1 ≤ polls timeout)%nat ∧ (timeout ≤ (Z.of_nat (polls timeout) - 1) * Go.Second)%Z.
Proof.
  unfold polls. split; [lia |].
  pose proof (Z.mul_succ_div_gt timeout Go.Second) as H.
  unfold Go.Second in *. destruct (decide (0 ≤ timeout / 1000000000 + 1)%Z); lia.
Qed.

(** The gate always returns, and this is all it can do. *)
Lemma WaitForHealthyContainers_spec containerIDs timeout w :
  ∃ e (k : nat) evs,
    WaitForHealthyContainers E containerIDs timeout w
      = (Done e, set_clock (clock w + Z.of_nat k * Go.Second) (observe evs w)) ∧
    Forall (gate_event containerIDs) evs ∧
    (∀ j : nat, (j < k)%nat →
       (Z.of_nat j * Go.Second < timeout)%Z ∧
       failed_poll E containerIDs (clock w + Z.of_nat j * Go.Second)) ∧
    gate_verdict E containerIDs (clock w + timeout) (clock w + Z.of_nat k * Go.Second) e.
Proof.
  destruct (polls_enough timeout) as [H1 H2].
  destruct (waitLoop_spec (polls timeout) containerIDs (clock w + timeout) w)
    as (e & k & evs & Hrun & Hevs & Hpolls & Hv); [done | lia |].
  exists e, k, evs. split_and!; try done.
  intros j Hj. destruct (Hpolls j Hj) as [? ?]. split; [lia | done].
Qed.

(** Two containers that are healthy from the second tick on: success at
    two seconds, before the deadline of five. *)
Example gate_succeeds_at_tick_2 :
  let run := WaitForHealthyContainers (Example.healthy_from (2 * Go.Second))
               [Example.id_c; Example.id_d] (5 * Go.Second) (Example.world [] (Example.routing "" [])) in
  fst run = Done None ∧ clock (snd run) = (2 * Go.Second)%Z.
Proof. vm_compute. split; reflexivity. Qed.

(** Containers that never get healthy: the timeout error at five seconds,
    after five polls that stop at the first container. *)
Example gate_times_out_at_tick_5 :
  let run := WaitForHealthyContainers (Example.healthy_from (60 * Go.Second))
               [Example.id_c; Example.id_d] (5 * Go.Second) (Example.world [] (Example.routing "" [])) in
  fst run = Done (Some timeout_error) ∧ clock (snd run) = (5 * Go.Second)%Z ∧
  events (snd run)
  = [EvSleep Go.Second; EvContainerInspect Example.id_c;
     EvSleep Go.Second; EvContainerInspect Example.id_c;
     EvSleep Go.Second; EvContainerInspect Example.id_c;
     EvSleep Go.Second; EvContainerInspect Example.id_c;
     EvSleep Go.Second; EvContainerInspect Example.id_c].
Proof. vm_compute. split_and!; reflexivity. Qed.

End HealthGate.

Section HealthGateRuns.

Variable E : Env.

Lemma inspected_nil w : inspected [] w = w.
Proof. apply observe_nil. Qed.

Lemma inspected_cons id ids w :
  inspected (id :: ids) w = inspected ids (record (EvContainerInspect id) w).
Proof.
  unfold inspected, observe, record. simpl. by rewrite <- app_assoc.
Qed.

Lemma inspected_healthy_cons id ids t n :
  inspected_healthy E (id :: ids) t n ↔
  daemon_error E n = None ∧ is_healthy (health_of E id t) = true ∧
  inspected_healthy E ids t (S n).
Proof.
  unfold inspected_healthy. split.
  - intros H. destruct (H 0%nat id eq_refl) as [H0 H1]. rewrite Nat.add_0_r in H0.
    split_and!; [done | done |]. intros i id' Hi.
    destruct (H (S i) id' Hi) as [? ?]. by rewrite Nat.add_succ_comm.
  - intros (H0 & H1 & H) [|i] id' Hi; simpl in Hi.
    + simplify_eq. by rewrite Nat.add_0_r.
    + rewrite <- Nat.add_succ_comm. by apply H.
Qed.

(** One poll, with the calls it makes: every container is inspected and
    found healthy, or the poll stops at the first container whose
    inspection fails or that is not healthy. *)
Lemma checkContainers_run containerIDs : ∀ w,
  (inspected_healthy E containerIDs (clock w) (length (events w)) ∧
   checkContainers E containerIDs w = (Done (ok true), inspected containerIDs w))
  ∨ ∃ before id rest,
      containerIDs = before ++ id :: rest ∧
      inspected_healthy E before (clock w) (length (events w)) ∧
      ((∃ msg,
          daemon_error E (length (events w) + length before) = Some msg ∧
          checkContainers E containerIDs w
            = (Done (err (inspect_error msg)), inspected (before ++ [id]) w))
       ∨ (daemon_error E (length (events w) + length before) = None ∧
          is_healthy (health_of E id (clock w)) = false ∧
          checkContainers E containerIDs w
            = (Done (ok false), inspected (before ++ [id]) w))).
Proof.
  induction containerIDs as [|id ids IH]; intros w; cbn [checkContainers].
  - left. split; [| by rewrite inspected_nil]. intros i id Hi. by rewrite lookup_nil in Hi.
  - unfold mbind, M_bind. rewrite CheckContainerHealth_unfold.
    destruct (daemon_error E (length (events w))) as [msg|] eqn:Herr.
    { right. exists [], id, ids. split_and!; [done | |].
      - intros i id' Hi. by rewrite lookup_nil in Hi.
      - left. exists msg. simpl. rewrite Nat.add_0_r. split; [done |].
        by rewrite inspected_cons, inspected_nil. }
    destruct (is_healthy (health_of E id (clock w))) eqn:Hh.
    2: { right. exists [], id, ids. split_and!; [done | |].
         - intros i id' Hi. by rewrite lookup_nil in Hi.
         - right. simpl. rewrite Nat.add_0_r. split_and!; [done | done |].
           by rewrite inspected_cons, inspected_nil. }
    destruct (IH (record (EvContainerInspect id) w))
      as [[Hall Hrun] | (before & id' & rest & -> & Hall & Hend)].
    + left. rewrite inspected_cons. split; [| done].
      apply inspected_healthy_cons. by split_and!.
    + right. exists (id :: before), id', rest. split_and!; [done | |].
      * apply inspected_healthy_cons. by split_and!.
      * simpl in Hend |- *. rewrite <- Nat.add_succ_comm, inspected_cons.
        destruct Hend as [(msg & Hmsg & Hrun) | (Hok & Hbad & Hrun)].
        -- left. by exists msg.
        -- right. by split_and!.
Qed.

(** The loop of the gate follows [gate_run] and returns. *)
Lemma waitLoop_run fuel : ∀ containerIDs deadline w,
  (1 ≤ fuel)%nat →
  (deadline - clock w ≤ (Z.of_nat fuel - 1) * Go.Second)%Z →
  ∃ e k w',
    waitLoop E fuel containerIDs deadline w = (Done e, w') ∧
    gate_run E containerIDs deadline w k e w'.
Proof.
  induction fuel as [|fuel IH]; intros ids deadline w Hfuel Hbound; [lia |].
  cbn [waitLoop]. unfold mbind at 1, M_bind at 1, time_Now at 1.
  case_decide as Hnow.
  2: { exists (Some timeout_error), 0%nat, w. split; [done |]. constructor. lia. }
  unfold mbind, M_bind.
  destruct (checkContainers_run ids w)
    as [[Hall ->] | (before & id & rest & Hids & Hall & [(msg & Hmsg & ->) | (Hok & Hbad & ->)])].
  - exists None, 0%nat, (inspected ids w). split; [done |]. by constructor.
  - exists (Some (inspect_error msg)), 0%nat, (inspected (before ++ [id]) w).
    split; [done |]. by econstructor.
  - unfold time_Sleep at 1.
    set (w2 := set_clock _ _).
    assert (w2 = set_clock (clock w + Go.Second)
                   (record (EvSleep Go.Second) (inspected (before ++ [id]) w))) as Hw2.
    { unfold w2, set_clock, record, inspected, observe. simpl. f_equal. }
    destruct (IH ids deadline w2) as (e & k & w' & Hloop & Hrun).
    { unfold Go.Second in *. lia. }
    { rewrite Hw2. simpl. unfold Go.Second in *. lia. }
    exists e, (S k), w'. split; [done |].
    rewrite Hw2 in Hrun. by econstructor.
Qed.

Lemma gate_run_clock ids deadline w k e w' :
  gate_run E ids deadline w k e w' → clock w' = (clock w + Z.of_nat k * Go.Second)%Z.
Proof.
  induction 1 as [w | w | w before id rest msg | w before id rest k e w' _ _ _ _ _ _ IH];
    simpl; try lia.
  rewrite IH. simpl. lia.
Qed.

(** A poll stops at one place only. *)
Lemma poll_stop_unique (ids before before' rest rest' : list string) id id' t n :
  ids = before ++ id :: rest → ids = before' ++ id' :: rest' →
  inspected_healthy E before t n → inspected_healthy E before' t n →
  daemon_error E (n + length before) ≠ None ∨ is_healthy (health_of E id t) = false →
  daemon_error E (n + length before') ≠ None ∨ is_healthy (health_of E id' t) = false →
  before = before' ∧ id = id' ∧ rest = rest'.
Proof.
  intros Hids Hids' Hall Hall' Hstop Hstop'.
  assert (∀ (b b' : list string) i i' r r',
            b ++ i :: r = b' ++ i' :: r' → (length b < length b')%nat →
            inspected_healthy E b' t n →
            daemon_error E (n + length b) ≠ None ∨ is_healthy (health_of E i t) = false →
            False) as Hlt.
  { intros b b' i i' r r' Heq Hlen Hb' Hs.
    assert (b' !! length b = Some i) as Hi.
    { assert ((b ++ i :: r) !! length b = Some i) as Hl by apply list_lookup_middle, eq_refl.
      rewrite Heq, lookup_app_l in Hl by done. done. }
    destruct (Hb' _ _ Hi) as [Hok Hh]. destruct Hs; congruence. }
  destruct (Nat.lt_trichotomy (length before) (length before')) as [Hl | [Heq | Hl]].
  - exfalso. eapply (Hlt before before'); [by rewrite <- Hids, <- Hids' | done | done | done].
  - rewrite Hids in Hids'. apply app_inj_1 in Hids' as [-> [= -> ->]]; done.
  - exfalso. eapply (Hlt before' before); [by rewrite <- Hids, <- Hids' | done | done | done].
Qed.

Lemma poll_healthy_no_stop (before rest : list string) id t n :
  inspected_healthy E (before ++ id :: rest) t n →
  daemon_error E (n + length before) ≠ None ∨ is_healthy (health_of E id t) = false →
  False.
Proof.
  intros Hall Hstop.
  destruct (Hall (length before) id) as [Hok Hh]; [by apply list_lookup_middle |].
  destruct Hstop; congruence.
Qed.

(** [gate_run] describes one run. *)
Lemma gate_run_deterministic ids deadline w k e w' :
  gate_run E ids deadline w k e w' →
  ∀ k0 e0 w0, gate_run E ids deadline w k0 e0 w0 → k0 = k ∧ e0 = e ∧ w0 = w'.
Proof.
  induction 1 as [w Hd | w Hd Hall | w before id rest msg Hd Hids Hall Hmsg
                  | w before id rest k e w' Hd Hids Hall Hok Hbad _ IH];
    intros k0 e0 w0 Hrun; inversion Hrun; subst; try lia; try done;
    try (exfalso; eapply poll_healthy_no_stop; [done |];
         first [by right | left; congruence]);
    match goal with
    | Heq : ?b ++ ?i :: ?r = ?b0 ++ ?i0 :: ?r0 |- _ =>
        destruct (poll_stop_unique (b ++ i :: r) b b0 r r0 i i0
                    (clock w) (length (events w)) eq_refl Heq)
          as (? & ? & ?);
          [done | done | first [by right | left; congruence]
                       | first [by right | left; congruence] |];
          subst
    end.
  - split_and!; [done | congruence | done].
  - congruence.
  - congruence.
  - match goal with Hr : gate_run _ _ _ _ _ _ _ |- _ =>
      destruct (IH _ _ _ Hr) as (-> & -> & ->) end.
    done.
Qed.

(** The gate returns, and its run is the one [gate_run] describes. *)
Lemma WaitForHealthyContainers_run containerIDs timeout w :
  (∃ e k w',
     WaitForHealthyContainers E containerIDs timeout w = (Done e, w') ∧
     gate_run E containerIDs (clock w + timeout) w k e w') ∧
  (∀ k e w',
     gate_run E containerIDs (clock w + timeout) w k e w' →
     WaitForHealthyContainers E containerIDs timeout w = (Done e, w')).
Proof.
  destruct (polls_enough timeout) as [H1 H2].
  destruct (waitLoop_run (polls timeout) containerIDs (clock w + timeout) w)
    as (e & k & w' & Hrun & Hgate); [done | lia |].
  split; [by exists e, k, w' |].
  intros k0 e0 w0 Hgate0.
  destruct (gate_run_deterministic _ _ _ _ _ _ Hgate _ _ _ Hgate0) as (-> & -> & ->).
  done.
Qed.

End HealthGateRuns.

(** ** What a program adds to the trace *)

Section Trace.

Variable E : Env.

Lemma adds_ret {A} P (a : A) : adds P (mret a).
Proof. intros w. by exists []. Qed.

Lemma adds_bind {A B} P (m : M A) (k : A → M B) :
  adds P m → (∀ a, adds P (k a)) → adds P (m ≫= k).
Proof.
  intros Hm Hk w. unfold mbind, M_bind.
  destruct (Hm w) as (evs & Hevs & HP).
  destruct (m w) as [[a | c | |] w1]; simpl in *; try by exists evs.
  destruct (Hk a w1) as (evs' & Hevs' & HP').
  exists (evs' ++ evs). rewrite Hevs', Hevs, app_assoc. split; [done |].
  by apply Forall_app.
Qed.

Lemma adds_one {A} (P : Event → Prop) (m : M A) ev :
  P ev → (∀ w, events (snd (m w)) = ev :: events w) → adds P m.
Proof. intros HP Hm w. exists [ev]. rewrite Hm. split; [done | by constructor]. Qed.

Lemma adds_weaken {A} (P Q : Event → Prop) (m : M A) :
  (∀ ev, P ev → Q ev) → adds P m → adds Q m.
Proof.
  intros HPQ Hm w. destruct (Hm w) as (evs & ? & HP). exists evs. split; [done |].
  by eapply Forall_impl.
Qed.

Lemma adds_Sleep (P : Event → Prop) d : P (EvSleep d) → adds P (time_Sleep d).
Proof. intros HP. by apply (adds_one P _ (EvSleep d)). Qed.

Lemma adds_log_Errorf (P : Event → Prop) msg :
  P (EvLog "error" msg) → adds P (log_Errorf msg).
Proof. intros HP. by apply (adds_one P _ (EvLog "error" msg)). Qed.

Lemma adds_log_Warnf (P : Event → Prop) msg :
  P (EvLog "warning" msg) → adds P (log_Warnf msg).
Proof. intros HP. by apply (adds_one P _ (EvLog "warning" msg)). Qed.

Lemma adds_log_Fatalf {A} (P : Event → Prop) msg :
  P (EvLog "fatal" msg) → adds P (@log_Fatalf A msg).
Proof. intros HP. by apply (adds_one P _ (EvLog "fatal" msg)). Qed.

Lemma adds_os_Exit {A} P code : adds P (@os_Exit A code).
Proof. intros w. by exists []. Qed.

Lemma adds_UpdateConfig oldIds newIds path :
  adds (file_event path) (UpdateConfig E oldIds newIds path).
Proof.
  assert (file_event path (EvReadFile path)) as Hr by (by left).
  assert (file_event path (EvOpenTrunc path)) as Ho by (right; by left).
  assert (∀ d, file_event path (EvWriteData path d)) as Hw by (right; right; eauto).
  intros w. rewrite UpdateConfig_unfold. cbv zeta.
  repeat case_match; simpl.
  all: try (exists [EvReadFile path]; split; [done |]; by apply Forall_singleton).
  - exists [EvOpenTrunc path; EvReadFile path]. split; [done |].
    by repeat apply Forall_cons_2.
  - eexists [EvWriteData path _; EvOpenTrunc path; EvReadFile path]. split; [done |].
    by repeat apply Forall_cons_2.
Qed.

Lemma cleanup_calls_events containerIDs :
  Forall (cleanup_event containerIDs) (cleanup_calls containerIDs).
Proof.
  unfold cleanup_calls. apply list.Forall_forall. intros ev Hev.
  apply list_elem_of_bind in Hev as (id & Hev & Hid). exists id. split; [done |].
  apply elem_of_cons in Hev as [-> | Hev]; [auto |].
  apply list_elem_of_singleton in Hev as ->. auto.
Qed.

Lemma filter_all {A} (P : A → Prop) `{!∀ x, Decision (P x)} (l : list A) :
  (∀ x, P x) → filter P l = l.
Proof.
  intros HP. induction l as [|x l IH]; [done |].
  by rewrite filter_cons_True, IH.
Qed.

Lemma ID_stopped id c : ID (stopped id c) = ID c.
Proof. unfold stopped. by case_decide. Qed.

Lemma stopped_other id c : ID c ≠ id → stopped id c = c.
Proof. intros H. unfold stopped. by rewrite decide_False. Qed.

Lemma filter_stopped (P : Summary → Prop) `{!∀ c, Decision (P c)} id (cs : list Summary) :
  (∀ c, ID c = id → ¬ P c) →
  filter P (stopped id <$> cs) = filter P cs.
Proof.
  intros Hid. induction cs as [|c cs IH]; [done |]. rewrite fmap_cons.
  destruct (decide (ID c = id)) as [Heq | Hne].
  - rewrite !filter_cons_False; [done | by apply Hid |].
    apply Hid. by rewrite ID_stopped.
  - by rewrite (stopped_other _ _ Hne), !filter_cons, IH.
Qed.

Lemma cleanup_calls_cons id ids :
  cleanup_calls (id :: ids)
  = EvContainerStop id 10 :: EvContainerRemove id true :: cleanup_calls ids.
Proof. done. Qed.

(** Stopping and removing containers: the calls made are the first calls
    of [cleanup_calls], up to the first one that fails; containers outside
    [containerIDs] are not touched. *)
Lemma StopAndRemoveContainers_spec containerIDs : ∀ w,
  ∃ e calls w',
    StopAndRemoveContainers E containerIDs w = (Done e, w') ∧
    events w' = rev calls ++ events w ∧
    calls `prefix_of` cleanup_calls containerIDs ∧
    clock w' = clock w ∧ fs w' = fs w ∧ fs_history w' = fs_history w ∧
    filter (λ c, ID c ∉ containerIDs) (containers w')
      = filter (λ c, ID c ∉ containerIDs) (containers w) ∧
    (e = None →
       calls = cleanup_calls containerIDs ∧
       containers w' = filter (λ c, ID c ∉ containerIDs) (containers w)).
Proof.
  induction containerIDs as [|id ids IH]; intros w; cbn [StopAndRemoveContainers].
  - exists None, [], w. split_and!; try done.
    intros _. split; [done |]. symmetry. apply filter_all. set_solver.
  - rewrite cleanup_calls_cons. unfold mbind, M_bind, ContainerStop at 1.
    destruct (daemon_error E (length (events w))) as [msg|] eqn:Hstop.
    { eexists _, [EvContainerStop id 10], _. split; [done |]. split_and!; try done.
      by apply prefix_cons, prefix_nil. }
    unfold ContainerRemove at 1.
    set (w1 := set_containers (stopped id <$> containers w)
                 (record (EvContainerStop id 10) w)).
    destruct (daemon_error E (length (events w1))) as [msg|] eqn:Hremove.
    { eexists _, [EvContainerStop id 10; EvContainerRemove id true], _.
      split; [done |]. split_and!; try done.
      - by apply prefix_cons, prefix_cons, prefix_nil.
      - simpl. apply filter_stopped. set_solver. }
    set (w2 := set_containers (filter (λ c, ID c ≠ id) (containers w1))
                 (record (EvContainerRemove id true) w1)).
    destruct (IH w2) as (e & calls & w' & Hrun & Hev & Hpre & Hclock & Hfs & Hhist & Hkeep & Hok).
    exists e, (EvContainerStop id 10 :: EvContainerRemove id true :: calls), w'.
    assert (filter (λ c, ID c ≠ id) (stopped id <$> containers w)
            = filter (λ c, ID c ≠ id) (containers w)) as Hrem
      by (apply filter_stopped; auto).
    split_and!; try done.
    + rewrite Hev. simpl. by rewrite <- !app_assoc.
    + by apply prefix_cons, prefix_cons.
    + rewrite <- (list_filter_filter_l (λ c, ID c ∉ id :: ids) (λ c, ID c ∉ ids))
        by set_solver.
      rewrite Hkeep. simpl. rewrite Hrem.
      rewrite !list_filter_filter. apply list_filter_iff. set_solver.
    + intros He. destruct (Hok He) as [-> ->]. split; [done |].
      simpl. rewrite Hrem, list_filter_filter. apply list_filter_iff. set_solver.
Qed.

Lemma adds_StopAndRemoveContainers containerIDs :
  adds (cleanup_event containerIDs) (StopAndRemoveContainers E containerIDs).
Proof.
  intros w.
  destruct (StopAndRemoveContainers_spec containerIDs w)
    as (e & calls & w' & Hrun & Hev & Hpre & _).
  exists (rev calls). rewrite Hrun. split; [done |].
  apply Forall_rev. destruct Hpre as [rest Hrest].
  pose proof (cleanup_calls_events containerIDs) as Hall.
  rewrite Hrest in Hall. by apply Forall_app in Hall as [? _].
Qed.

Lemma adds_WaitForHealthyContainers containerIDs timeout :
  adds (gate_event containerIDs) (WaitForHealthyContainers E containerIDs timeout).
Proof.
  intros w.
  destruct (WaitForHealthyContainers_spec E containerIDs timeout w)
    as (e & k & evs & Hrun & Hevs & _).
  exists evs. by rewrite Hrun.
Qed.

End Trace.

Section CleanupAnswers.

Variable E : Env.

(** Stopping and removing containers, with the answers of the daemon: every
    call but the last one made was answered; the run ends without error
    exactly when the last one was answered too, and then all the calls of
    [cleanup_calls] were made; otherwise the error is that of the last call.
    A container whose removal was answered is gone, one whose stop was
    answered and that is still there has exited, and no container
    appears. *)
Lemma StopAndRemoveContainers_answers containerIDs : ∀ w,
  ∃ e calls w',
    StopAndRemoveContainers E containerIDs w = (Done e, w') ∧
    events w' = rev calls ++ events w ∧
    calls `prefix_of` cleanup_calls containerIDs ∧
    (∀ i, (S i < length calls)%nat → daemon_error E (length (events w) + i) = None) ∧
    (∀ c, c ∈ containers w' → ∃ c0, c0 ∈ containers w ∧ ID c0 = ID c) ∧
    (∀ i id, calls !! i = Some (EvContainerRemove id true) →
       daemon_error E (length (events w) + i) = None →
       ∀ c, c ∈ containers w' → ID c ≠ id) ∧
    (∀ i id, calls !! i = Some (EvContainerStop id 10) →
       daemon_error E (length (events w) + i) = None →
       ∀ c, c ∈ containers w' → ID c = id → State c = "exited") ∧
    filter (λ c, ID c ∉ containerIDs) (containers w')
      = filter (λ c, ID c ∉ containerIDs) (containers w) ∧
    match e with
    | None =>
        calls = cleanup_calls containerIDs ∧
        (∀ i, (i < length calls)%nat → daemon_error E (length (events w) + i) = None) ∧
        containers w' = filter (λ c, ID c ∉ containerIDs) (containers w)
    | Some text =>
        ∃ i ev msg,
          calls !! i = Some ev ∧ length calls = S i ∧
          daemon_error E (length (events w) + i) = Some msg ∧
          text = cleanup_error ev msg
    end.
Proof.
  induction containerIDs as [|id ids IH]; intros w; cbn [StopAndRemoveContainers].
  - exists None, [], w. split_and!; try done.
    + intros i Hi. simpl in Hi. lia.
    + intros c Hc. by exists c.
    + intros i Hi. simpl in Hi. lia.
    + symmetry. apply filter_all. set_solver.
  - rewrite cleanup_calls_cons. unfold mbind, M_bind, ContainerStop at 1.
    destruct (daemon_error E (length (events w))) as [msg|] eqn:Hstop.
    { eexists _, [EvContainerStop id 10], _. split; [done |]. split_and!; try done.
      - by apply prefix_cons, prefix_nil.
      - intros i Hi. simpl in Hi. lia.
      - intros c Hc. by exists c.
      - intros [|i] id' Hi; simpl in Hi; [done | by rewrite lookup_nil in Hi].
      - intros [|i] id' Hi; simpl in Hi; [| by rewrite lookup_nil in Hi].
        rewrite Nat.add_0_r. congruence.
      - exists 0%nat, (EvContainerStop id 10), msg. rewrite Nat.add_0_r. by split_and!. }
    unfold ContainerRemove at 1.
    set (w1 := set_containers (stopped id <$> containers w)
                 (record (EvContainerStop id 10) w)).
    assert (∀ c, c ∈ stopped id <$> containers w → ∃ c0, c0 ∈ containers w ∧ ID c0 = ID c)
      as Hstopped.
    { intros c (c0 & -> & Hc0)%list_elem_of_fmap. exists c0. by rewrite ID_stopped. }
    destruct (daemon_error E (length (events w1))) as [msg|] eqn:Hremove.
    { eexists _, [EvContainerStop id 10; EvContainerRemove id true], _.
      split; [done |]. split_and!; try done.
      - by apply prefix_cons, prefix_cons, prefix_nil.
      - intros i Hi. simpl in Hi. assert (i = 0)%nat as -> by lia. by rewrite Nat.add_0_r.
      - intros [|[|i]] id' Hi; simpl in Hi; [done | | by rewrite lookup_nil in Hi].
        simplify_eq. intros Hok. simpl in Hremove.
        replace (length (events w) + 1)%nat with (S (length (events w))) in Hok by lia.
        congruence.
      - intros [|[|i]] id' Hi; simpl in Hi; [| done | by rewrite lookup_nil in Hi].
        simplify_eq. intros _ c (c0 & -> & _)%list_elem_of_fmap Hid.
        rewrite ID_stopped in Hid. unfold stopped. by rewrite decide_True.
      - simpl. apply filter_stopped. set_solver.
      - exists 1%nat, (EvContainerRemove id true), msg. simpl in Hremove |- *.
        replace (length (events w) + 1)%nat with (S (length (events w))) by lia.
        by split_and!. }
    set (w2 := set_containers (filter (λ c, ID c ≠ id) (containers w1))
                 (record (EvContainerRemove id true) w1)).
    destruct (IH w2)
      as (e & calls & w' & Hrun & Hev & Hpre & Hans & Hsub & Hgone & Hexited & Hkeep & He).
    exists e, (EvContainerStop id 10 :: EvContainerRemove id true :: calls), w'.
    assert (filter (λ c, ID c ≠ id) (stopped id <$> containers w)
            = filter (λ c, ID c ≠ id) (containers w)) as Hrem
      by (apply filter_stopped; auto).
    assert (∀ i, daemon_error E (length (events w2) + i)
                 = daemon_error E (length (events w) + S (S i))) as Hidx.
    { intros i. simpl. f_equal. lia. }
    assert (∀ i, (i < 2)%nat → daemon_error E (length (events w) + i) = None) as Hfirst.
    { intros [|[|i]] Hi; [by rewrite Nat.add_0_r | | lia]. simpl in Hremove.
      by replace (length (events w) + 1)%nat with (S (length (events w))) by lia. }
    split_and!; try done.
    + rewrite Hev. simpl. by rewrite <- !app_assoc.
    + by apply prefix_cons, prefix_cons.
    + intros [|[|i]] Hi; [apply Hfirst; lia | apply Hfirst; lia |].
      rewrite <- Hidx. apply Hans. simpl in Hi. lia.
    + intros c Hc. destruct (Hsub c Hc) as (c1 & Hc1 & Hid1). simpl in Hc1.
      apply list_elem_of_filter in Hc1 as [_ Hc1].
      destruct (Hstopped c1 Hc1) as (c0 & Hc0 & Hid0). exists c0. split; [done | congruence].
    + intros [|[|i]] id' Hi Hok c Hc; simpl in Hi.
      * done.
      * simplify_eq. destruct (Hsub c Hc) as (c1 & Hc1 & Hid1). simpl in Hc1.
        apply list_elem_of_filter in Hc1 as [Hne _]. congruence.
      * apply (Hgone i id' Hi); [by rewrite Hidx | done].
    + intros [|[|i]] id' Hi Hok c Hc Hid; simpl in Hi.
      * simplify_eq. destruct (Hsub c Hc) as (c1 & Hc1 & Hid1). simpl in Hc1.
        apply list_elem_of_filter in Hc1 as [Hne _]. congruence.
      * done.
      * apply (Hexited i id' Hi); [by rewrite Hidx | done | done].
    + rewrite <- (list_filter_filter_l (λ c, ID c ∉ id :: ids) (λ c, ID c ∉ ids))
        by set_solver.
      rewrite Hkeep. simpl. rewrite Hrem.
      rewrite !list_filter_filter. apply list_filter_iff. set_solver.
    + destruct e as [text|].
      * destruct He as (i & ev & msg & Hi & Hlen & Hmsg & ->).
        exists (S (S i)), ev, msg. rewrite Hidx in Hmsg. simpl. by split_and!; [| lia | |].
      * destruct He as (-> & Hall & ->). split_and!; [done | |].
        -- intros [|[|i]] Hi; [apply Hfirst; lia | apply Hfirst; lia |].
           rewrite <- Hidx. apply Hall. simpl in Hi. lia.
        -- simpl. rewrite Hrem, list_filter_filter. apply list_filter_iff. set_solver.
Qed.

Lemma length_cleanup_calls containerIDs :
  length (cleanup_calls containerIDs) = (2 * length containerIDs)%nat.
Proof.
  induction containerIDs as [|id ids IH]; [done |].
  rewrite cleanup_calls_cons. simpl. rewrite IH. lia.
Qed.

End CleanupAnswers.

(** ** The new containers *)

Section NewContainers.

Lemma isOld_elem_of newID oldContainers :
  isOld newID oldContainers = true ↔ newID ∈ oldContainers.
Proof.
  induction oldContainers as [|oldID rest IH]; simpl.
  - split; [done | by intros ?%elem_of_nil].
  - case_decide as Heq.
    + split; [intros _; subst; by left | done].
    + rewrite IH, elem_of_cons. naive_solver.
Qed.

(** The loop of lines 110-122 is a filter. *)
Lemma filteredNewContainers_filter oldContainers newContainers :
  filteredNewContainers oldContainers newContainers
  = filter (λ id, id ∉ oldContainers) newContainers.
Proof.
  induction newContainers as [|newID rest IH]; [done |]. simpl.
  rewrite filter_cons, IH.
  destruct (isOld newID oldContainers) eqn:Hold.
  - apply isOld_elem_of in Hold. by rewrite decide_False by auto.
  - rewrite decide_True; [done |]. intros Hin%isOld_elem_of. congruence.
Qed.

Lemma elem_of_filteredNewContainers oldContainers newContainers id :
  id ∈ filteredNewContainers oldContainers newContainers
  ↔ id ∈ newContainers ∧ id ∉ oldContainers.
Proof. rewrite filteredNewContainers_filter, list_elem_of_filter. tauto. Qed.

Lemma length_filteredNewContainers oldContainers newContainers :
  NoDup oldContainers → NoDup newContainers →
  oldContainers ⊆ newContainers →
  length (filteredNewContainers oldContainers newContainers)
  = length newContainers - length oldContainers.
Proof.
  intros Hold Hnew Hsub. rewrite filteredNewContainers_filter.
  pose proof (filter_app_complement (λ id, id ∉ oldContainers) newContainers) as Hperm.
  apply Permutation_length in Hperm. rewrite length_app in Hperm.
  assert (filter (λ id : string, ¬ (id ∉ oldContainers)) newContainers ≡ₚ oldContainers) as Hkept.
  { apply NoDup_Permutation; [by apply NoDup_filter | done |].
    intros id. rewrite list_elem_of_filter. split.
    - intros [Hin _]. by destruct (decide (id ∈ oldContainers)).
    - intros Hin. split; [tauto | by apply Hsub]. }
  apply Permutation_length in Hkept. lia.
Qed.

End NewContainers.

(** ** The orchestrator *)

Section Orchestrator.

Variable E : Env.

(** The run of [main] up to the health gate, when no call fails. *)
Lemma main_scaling config w :
  let service := Config_Service config in
  let pre := serviceContainerIDs service (containers w) in
  let scale := (Z.of_nat (length pre) * 2)%Z in
  let w3 := record (EvComposeScale service scale)
              (record EvContainerList (record EvContainerList w)) in
  let w4 := record EvContainerList
              (set_containers (scaled E service scale (containers w)) w3) in
  let post := serviceContainerIDs service (containers w4) in
  service ≠ "up" → service ≠ "up -d" → pre ≠ [] →
  daemon_error E (length (events w)) = None →
  daemon_error E (S (length (events w))) = None →
  daemon_error E (S (S (length (events w)))) = None →
  daemon_error E (S (S (S (length (events w))))) = None →
  main E config w = finishUpdate E config pre (filteredNewContainers pre post) w4.
Proof.
  intros service pre scale w3 w4 post Hup Hupd Hpre H0 H1 H2 H3.
  unfold main. rewrite decide_False by (intros [? | ?]; done).
  unfold GetServiceContainers at 1, ContainerList at 1, mbind, M_bind, mret, M_ret.
  rewrite H0. fold service pre.
  rewrite decide_False by (by destruct pre).
  unfold rollingUpdate, GetServiceContainers at 1, ContainerList at 1,
    mbind, M_bind, mret, M_ret. simpl. rewrite H1.
  unfold ScaleService, compose_up_scale, GetServiceContainers, ContainerList,
    mbind, M_bind, mret, M_ret. simpl. rewrite H2. simpl. rewrite H3. done.
Qed.

(** A failure of a call made while scaling ends [main] through
    [log.Fatalf], without the rollback. *)
Lemma main_scaling_failure_run config w :
  let service := Config_Service config in
  service ≠ "up" → service ≠ "up -d" →
  serviceContainerIDs service (containers w) ≠ [] →
  (is_Some (daemon_error E (length (events w))) ∨
   is_Some (daemon_error E (S (length (events w)))) ∨
   is_Some (daemon_error E (S (S (length (events w))))) ∨
   is_Some (daemon_error E (S (S (S (length (events w))))))) →
  ∃ msg calls w',
    main E config w = (Exited 1, w') ∧
    events w' = EvLog "fatal" msg :: calls ++ events w ∧
    Forall (λ ev, ev ≠ EvLog "error" rolling_back) calls.
Proof.
  intros service Hup Hupd Hpre Hfail.
  unfold main. rewrite decide_False by (intros [? | ?]; done).
  unfold GetServiceContainers at 1, ContainerList at 1, mbind, M_bind, mret, M_ret.
  destruct (daemon_error E (length (events w))) as [e0|] eqn:H0.
  { by eexists _, [EvContainerList], _; split_and!; [done | done | repeat constructor]. }
  fold service. rewrite decide_False by (by destruct (serviceContainerIDs _ _)).
  unfold rollingUpdate, GetServiceContainers at 1, ContainerList at 1,
    mbind, M_bind, mret, M_ret. simpl.
  destruct (daemon_error E (S (length (events w)))) as [e1|] eqn:H1.
  { by eexists _, [EvContainerList; EvContainerList], _;
      split_and!; [done | done | repeat constructor]. }
  unfold ScaleService, compose_up_scale, GetServiceContainers, ContainerList,
    mbind, M_bind, mret, M_ret. simpl.
  destruct (daemon_error E (S (S (length (events w))))) as [e2|] eqn:H2.
  { by eexists _, [EvComposeScale _ _; EvContainerList; EvContainerList], _;
      split_and!; [done | done | repeat constructor]. }
  simpl.
  destruct (daemon_error E (S (S (S (length (events w)))))) as [e3|] eqn:H3.
  { by eexists _, [EvContainerList; EvComposeScale _ _; EvContainerList; EvContainerList], _;
      split_and!; [done | done | repeat constructor]. }
  destruct Hfail as [[? ?] | [[? ?] | [[? ?] | [? ?]]]]; done.
Qed.

Lemma main_scaling_failure config w :
  let service := Config_Service config in
  service ≠ "up" → service ≠ "up -d" →
  serviceContainerIDs service (containers w) ≠ [] →
  ¬ rollback_logged w →
  (is_Some (daemon_error E (length (events w))) ∨
   is_Some (daemon_error E (S (length (events w)))) ∨
   is_Some (daemon_error E (S (S (length (events w))))) ∨
   is_Some (daemon_error E (S (S (S (length (events w))))))) →
  fst (main E config w) = Exited 1 ∧
  ¬ rollback_logged (snd (main E config w)) ∧
  ∃ msg rest, events (snd (main E config w)) = EvLog "fatal" msg :: rest.
Proof.
  intros service Hup Hupd Hpre Hlog Hfail.
  destruct (main_scaling_failure_run config w Hup Hupd Hpre Hfail)
    as (msg & calls & w' & -> & Hev & Hcalls).
  simpl. split_and!; [done | | eauto].
  unfold rollback_logged. rewrite Hev, elem_of_cons, elem_of_app.
  intros [? | [Hin | ?]]; [done | | done].
  rewrite list.Forall_forall in Hcalls. by apply (Hcalls _ Hin).
Qed.

Lemma bind_Done_inv {A B} (m : M A) (k : A → M B) w b :
  fst ((m ≫= k) w) = Done b →
  ∃ a w1, m w = (Done a, w1) ∧ (m ≫= k) w = k a w1.
Proof.
  unfold mbind, M_bind. destruct (m w) as [[a | c | |] w1]; simpl; try done.
  intros _. by exists a, w1.
Qed.

(** The rollback: the log line, the calls that stop and remove the new
    containers up to the first one that fails, and exit code 1. *)
Lemma rollBack_spec newContainers w :
  ∃ calls failure w',
    rollBack E newContainers w = (Exited 1, w') ∧
    events w' = failure ++ rev calls ++ EvLog "error" rolling_back :: events w ∧
    calls `prefix_of` cleanup_calls newContainers ∧
    (failure = [] ∨ ∃ msg, failure = [EvLog "error" ("Failed to rollback: " +:+ msg)]) ∧
    filter (λ c, ID c ∉ newContainers) (containers w')
      = filter (λ c, ID c ∉ newContainers) (containers w) ∧
    (failure = [] →
       calls = cleanup_calls newContainers ∧
       containers w' = filter (λ c, ID c ∉ newContainers) (containers w)).
Proof.
  unfold rollBack.
  rewrite (bind_Done _ _ w tt (record (EvLog "error" rolling_back) w)) by done.
  destruct (StopAndRemoveContainers_spec E newContainers
              (record (EvLog "error" rolling_back) w))
    as (e & calls & w' & Hrun & Hev & Hpre & _ & _ & _ & Hkeep & Hok).
  rewrite (bind_Done _ _ _ _ _ Hrun). unfold mbind, M_bind.
  destruct e as [msg|]; simpl.
  - eexists calls, [EvLog "error" ("Failed to rollback: " +:+ msg)], _.
    split_and!; [done | by simpl; rewrite Hev | done | eauto | done | done].
  - exists calls, [], w'. split_and!; [done | by rewrite Hev | done | eauto | done | auto].
Qed.

Lemma adds_switchOver config oldContainers newContainers :
  adds not_rollback (switchOver E config oldContainers newContainers).
Proof.
  unfold switchOver.
  apply adds_bind.
  { eapply adds_weaken; [| apply adds_UpdateConfig].
    intros ev [-> | [-> | [? ->]]]; done. }
  intros e. apply adds_bind.
  { destruct e; [by apply adds_log_Warnf | apply adds_ret]. }
  intros _. apply adds_bind.
  { case_decide; [by apply adds_Sleep | apply adds_ret]. }
  intros _. apply adds_bind; [by apply adds_Sleep |].
  intros _. apply adds_bind.
  { eapply adds_weaken; [| apply adds_StopAndRemoveContainers].
    intros ev (id & _ & [-> | ->]); done. }
  intros [msg|]; [by apply adds_log_Fatalf | apply adds_ret].
Qed.

(** When the switch-over returns, the last thing it did was to remove the
    last old container. *)
Lemma switchOver_Done config oldContainers newContainers w :
  fst (switchOver E config oldContainers newContainers w) = Done tt →
  ∃ earlier,
    events (snd (switchOver E config oldContainers newContainers w))
      = rev (cleanup_calls oldContainers) ++ earlier.
Proof.
  unfold switchOver. intros H.
  apply bind_Done_inv in H as Hs. destruct Hs as (e1 & w1 & _ & Hs). rewrite Hs in H |- *.
  clear Hs.
  apply bind_Done_inv in H as Hs. destruct Hs as (? & w2 & _ & Hs). rewrite Hs in H |- *.
  clear Hs.
  apply bind_Done_inv in H as Hs. destruct Hs as (? & w3 & _ & Hs). rewrite Hs in H |- *.
  clear Hs.
  apply bind_Done_inv in H as Hs. destruct Hs as (? & w4 & _ & Hs). rewrite Hs in H |- *.
  clear Hs.
  destruct (StopAndRemoveContainers_spec E oldContainers w4)
    as (e & calls & w' & Hrun & Hev & _ & _ & _ & _ & _ & Hok).
  unfold mbind, M_bind in *. rewrite Hrun in *. destruct e as [msg|]; [done |].
  destruct (Hok eq_refl) as [-> _]. simpl. rewrite Hev. eauto.
Qed.

(** How the switch-over can end: a panic of the patcher, or the outcome of
    the cleanup of the old containers. *)
Lemma switchOver_outcome config oldContainers newContainers w :
  fst (switchOver E config oldContainers newContainers w) = Panicked ∨
  ∃ e w_c w',
    StopAndRemoveContainers E oldContainers w_c = (Done e, w') ∧
    switchOver E config oldContainers newContainers w
    = match e with
      | None => (Done tt, w')
      | Some msg =>
          (Exited 1,
           record (EvLog "fatal" ("Failed to stop and remove old containers: " +:+ msg)) w')
      end.
Proof.
  unfold switchOver.
  destruct (UpdateConfig E oldContainers newContainers (TraefikConfFile config) w)
    as [o w1] eqn:Hupd.
  assert (o = Panicked ∨ ∃ e, o = Done e) as [-> | [e1 ->]].
  { rewrite UpdateConfig_unfold in Hupd. cbv zeta in Hupd.
    repeat case_match; simplify_eq; eauto. }
  { left. unfold mbind, M_bind. by rewrite Hupd. }
  right. rewrite (bind_Done _ _ _ _ _ Hupd).
  set (warn := match e1 with
               | Some e => log_Warnf ("Failed to update Traefik configuration: " +:+ e)
               | None => mret tt
               end).
  assert (∃ w2, warn w1 = (Done tt, w2)) as [w2 Hw2] by (destruct e1; by eexists).
  rewrite (bind_Done _ _ _ _ _ Hw2).
  set (settle := if decide (0 < WaitAfterHealthyDelay config)%Z
                 then time_Sleep (WaitAfterHealthyDelay config) else mret tt).
  assert (∃ w3, settle w2 = (Done tt, w3)) as [w3 Hw3]
    by (unfold settle; case_decide; by eexists).
  rewrite (bind_Done _ _ _ _ _ Hw3).
  rewrite (bind_Done (time_Sleep (NoHealthcheckTimeout config)) _ w3 tt _ eq_refl).
  set (w4 := set_clock _ _).
  destruct (StopAndRemoveContainers_spec E oldContainers w4)
    as (e & calls & w' & Hrun & _).
  exists e, w4, w'. split; [done |].
  rewrite (bind_Done _ _ _ _ _ Hrun). by destruct e.
Qed.

Lemma finishUpdate_unfold config oldContainers newContainers w :
  ∃ e (k : nat) evs,
    let w1 := set_clock (clock w + Z.of_nat k * Go.Second) (observe evs w) in
    WaitForHealthyContainers E newContainers (HealthcheckTimeout config) w = (Done e, w1) ∧
    Forall (gate_event newContainers) evs ∧
    gate_verdict E newContainers (clock w + HealthcheckTimeout config)
      (clock w + Z.of_nat k * Go.Second) e ∧
    finishUpdate E config oldContainers newContainers w
    = match e with
      | Some _ => rollBack E newContainers w1
      | None => switchOver E config oldContainers newContainers w1
      end.
Proof.
  destruct (WaitForHealthyContainers_spec E newContainers (HealthcheckTimeout config) w)
    as (e & k & evs & Hrun & Hevs & _ & Hv).
  exists e, k, evs. cbv zeta. split_and!; try done.
  unfold finishUpdate. rewrite (bind_Done _ _ _ _ _ Hrun). by destruct e.
Qed.

Lemma gate_event_not_rollback ids evs :
  Forall (gate_event ids) evs → Forall not_rollback evs.
Proof.
  intros H. eapply Forall_impl; [done |]. intros ev [(id & _ & ->) | ->]; done.
Qed.

Lemma adds_finishUpdate config oldContainers newContainers :
  adds any_event (finishUpdate E config oldContainers newContainers).
Proof.
  unfold finishUpdate. apply adds_bind.
  { eapply adds_weaken; [| apply adds_WaitForHealthyContainers]. done. }
  intros [msg|].
  - unfold rollBack. apply adds_bind; [by apply adds_log_Errorf |].
    intros _. apply adds_bind.
    { eapply adds_weaken; [| apply adds_StopAndRemoveContainers]. done. }
    intros e. apply adds_bind; [| intros _; apply adds_os_Exit].
    destruct e; [by apply adds_log_Errorf | apply adds_ret].
  - eapply adds_weaken; [| apply adds_switchOver]. done.
Qed.

(** Once the two readings of the container set have succeeded, the next
    call of [main] is the scaling to twice the size of that set. *)
Lemma main_requests_double config w :
  let service := Config_Service config in
  let pre := serviceContainerIDs service (containers w) in
  service ≠ "up" → service ≠ "up -d" → pre ≠ [] →
  daemon_error E (length (events w)) = None →
  daemon_error E (S (length (events w))) = None →
  ∃ later,
    events (snd (main E config w))
    = later ++ EvComposeScale service (Z.of_nat (length pre) * 2)
         :: EvContainerList :: EvContainerList :: events w.
Proof.
  intros service pre Hup Hupd Hpre H0 H1.
  destruct (daemon_error E (S (S (length (events w))))) as [e2|] eqn:H2;
    [| destruct (daemon_error E (S (S (S (length (events w)))))) as [e3|] eqn:H3].
  3: { rewrite main_scaling by done. cbv zeta.
       match goal with
       | |- context [finishUpdate E config ?old ?new ?w4] =>
           destruct (adds_finishUpdate config old new w4) as (evs & -> & _)
       end.
       exists (evs ++ [EvContainerList]). simpl. by rewrite <- app_assoc. }
  all: unfold main; rewrite decide_False by (intros [? | ?]; done);
    unfold GetServiceContainers at 1, ContainerList at 1, mbind, M_bind, mret, M_ret;
    rewrite H0; fold service; fold pre; rewrite decide_False by (by destruct pre);
    unfold rollingUpdate, GetServiceContainers at 1, ContainerList at 1,
      mbind, M_bind, mret, M_ret; simpl; rewrite H1;
    unfold ScaleService, compose_up_scale, GetServiceContainers, ContainerList,
      mbind, M_bind, mret, M_ret; simpl; rewrite H2.
  - by eexists [_].
  - simpl. rewrite H3. by eexists [_; _].
Qed.

End Orchestrator.

(** ** The deployment state machine: what the specification states *)

Section OrchestratorClaims.

(** A failed inspection of a new container also starts the rollback, long
    before the deadline. *)
Lemma rollback_without_timeout :
  ¬ rollback_iff_timeout (Example.failing 0 (Some "starting") [])
      (Example.config "api") [Example.id_a] [Example.id_c]
      (Example.world [Example.api Example.id_a "Host(`a.com`)";
                      Example.api Example.id_c "Host(`a.com`)"]
         (Example.routing "Host(`a.com`)" ["http://aaaaaaaaaaaa:80"])).
Proof.
  intros [Hlogged _].
  assert (Done (Some (inspect_error "boom")) = Done (Some timeout_error)) as Hbad;
    [| discriminate Hbad].
  rewrite <- Hlogged; [vm_compute; reflexivity |].
  unfold rollback_logged.
  assert (events (snd (finishUpdate (Example.failing 0 (Some "starting") [])
            (Example.config "api") [Example.id_a] [Example.id_c]
            (Example.world [Example.api Example.id_a "Host(`a.com`)";
                            Example.api Example.id_c "Host(`a.com`)"]
               (Example.routing "Host(`a.com`)" ["http://aaaaaaaaaaaa:80"]))))
          = [EvContainerRemove Example.id_c true; EvContainerStop Example.id_c 10;
             EvLog "error" rolling_back; EvContainerInspect Example.id_c]) as ->
    by (vm_compute; reflexivity).
  rewrite !elem_of_cons. auto.
Qed.

(** C3 (amended) — the rollback branch is entered exactly when the health
    gate returns an error, which is the timeout or the failure of an
    inspection made while polling; it ends with exit code 1.  When the gate
    succeeds the rollback is not entered, and a failure of the cleanup ends
    the run through [log.Fatalf].  A failure of a call made while scaling
    ends [main] through [log.Fatalf] with exit code 1, without rollback. *)
Theorem rollback_iff_gate_error E config w :
  ¬ rollback_logged w →
  (∀ oldContainers newContainers,
     let gate := fst (WaitForHealthyContainers E newContainers
                        (HealthcheckTimeout config) w) in
     let run := finishUpdate E config oldContainers newContainers w in
     (rollback_logged (snd run) ↔ ∃ e, gate = Done (Some e)) ∧
     (∀ e, gate = Done (Some e) →
        (e = timeout_error ∨ ∃ m, e = inspect_error m) ∧ fst run = Exited 1) ∧
     (gate = Done None →
        fst run = Panicked ∨
        ∃ e w_c w',
          StopAndRemoveContainers E oldContainers w_c = (Done e, w') ∧
          run = match e with
                | None => (Done tt, w')
                | Some msg =>
                    (Exited 1,
                     record (EvLog "fatal"
                       ("Failed to stop and remove old containers: " +:+ msg)) w')
                end)) ∧
  (Config_Service config ≠ "up" → Config_Service config ≠ "up -d" →
   serviceContainerIDs (Config_Service config) (containers w) ≠ [] →
   (is_Some (daemon_error E (length (events w))) ∨
    is_Some (daemon_error E (S (length (events w)))) ∨
    is_Some (daemon_error E (S (S (length (events w))))) ∨
    is_Some (daemon_error E (S (S (S (length (events w))))))) →
   fst (main E config w) = Exited 1 ∧
   ¬ rollback_logged (snd (main E config w)) ∧
   ∃ msg rest, events (snd (main E config w)) = EvLog "fatal" msg :: rest).
Proof.
  intros Hlog. split; [| intros; by apply main_scaling_failure].
  intros old new gate run.
  destruct (finishUpdate_unfold E config old new w) as (e & k & evs & Hgate & Hevs & Hv & Hrun).
  cbv zeta in Hgate, Hrun. subst gate run. rewrite Hgate, Hrun. simpl.
  set (w1 := set_clock _ _) in *.
  assert (¬ rollback_logged w1) as Hlog1.
  { unfold rollback_logged, w1. simpl. rewrite elem_of_app. intros [Hin | Hin]; [| done].
    apply gate_event_not_rollback in Hevs. rewrite list.Forall_forall in Hevs.
    by apply (Hevs _ Hin). }
  destruct e as [msg|].
  - destruct (rollBack_spec E new w1) as (calls & failure & w' & Hrb & Hev & _).
    rewrite Hrb. simpl. split_and!.
    + split; [eauto |]. intros _. unfold rollback_logged. rewrite Hev.
      rewrite !elem_of_app, elem_of_cons. auto.
    + intros e [= <-]. split; [| done]. destruct Hv as [[-> _] | [_ (m & i & -> & _)]]; eauto.
    + done.
  - split_and!.
    + split; [| by intros [? ?]]. intros Hin. exfalso.
      destruct (adds_switchOver E config old new w1) as (added & Hadd & Hnot).
      unfold rollback_logged in Hin. rewrite Hadd, elem_of_app in Hin.
      destruct Hin as [Hin | Hin]; [| done].
      rewrite list.Forall_forall in Hnot. by apply (Hnot _ Hin).
    + done.
    + intros _. apply switchOver_outcome.
Qed.

Lemma rollback_iff_gate_error_witness :
  let E := Example.failing 0 (Some "starting") [] in
  let w := Example.world [Example.api Example.id_a "Host(`a.com`)"]
             (Example.routing "Host(`a.com`)" ["http://aaaaaaaaaaaa:80"]) in
  (rollback_logged (snd (finishUpdate E (Example.config "api")
                           [Example.id_a] [Example.id_c] w))
   ↔ ∃ e, fst (WaitForHealthyContainers E [Example.id_c]
                 (HealthcheckTimeout (Example.config "api")) w) = Done (Some e)) ∧
  fst (main E (Example.config "api") w) = Exited 1.
Proof.
  intros E w.
  assert (¬ rollback_logged w) as Hlog by (by intros ?%elem_of_nil).
  destruct (rollback_iff_gate_error E (Example.config "api") w Hlog) as [Hgate Hscale].
  split.
  - apply (Hgate [Example.id_a] [Example.id_c]).
  - apply Hscale; [done | done | done |]. left. by eexists.
Defined.

(** When the daemon refuses to stop a new container, the rollback gives
    up and the container stays. *)
Lemma rollback_gives_up_on_error :
  ¬ rollback_removes_exactly (Example.failing 11 (Some "starting") [])
      (Example.config "api") [Example.id_a] [Example.id_c]
      (Example.world [Example.api Example.id_a "Host(`a.com`)";
                      Example.api Example.id_c "Host(`a.com`)"]
         (Example.routing "Host(`a.com`)" ["http://aaaaaaaaaaaa:80"])).
Proof.
  intros H.
  assert ([Example.api Example.id_a "Host(`a.com`)";
           Example.api Example.id_c "Host(`a.com`)"]
          = [Example.api Example.id_a "Host(`a.com`)"]) as Hbad; [| discriminate Hbad].
  etrans; [| etrans; [apply H |]].
  - vm_compute. reflexivity.
  - eexists. vm_compute. reflexivity.
  - vm_compute. reflexivity.
Qed.

(** C4 (amended) — when the gate fails, the rollback exits with code 1
    after making the calls that stop and remove the identifiers of
    [newContainers], in order, up to the first call that fails: every call
    made but the last succeeded ([answer i] is the error of the [i]-th call,
    if any), and the rollback reports a failure exactly when the last call
    made failed.  When no call fails, every new container is stopped and
    removed; a container whose removal succeeded is gone in any case, and
    one whose stop succeeded and that is still there has exited.  No
    identifier of [oldContainers] is among the calls, and every container
    that is not new, the old ones among them, is left as it was. *)
Theorem rollback_touches_new_containers_only E config oldContainers scaledContainers w :
  let newContainers := filteredNewContainers oldContainers scaledContainers in
  ∀ e w1,
    WaitForHealthyContainers E newContainers (HealthcheckTimeout config) w
      = (Done (Some e), w1) →
    ∃ calls failure w',
      let answer i := daemon_error E (S (length (events w1)) + i) in
      finishUpdate E config oldContainers newContainers w = (Exited 1, w') ∧
      events w' = failure ++ rev calls ++ EvLog "error" rolling_back :: events w1 ∧
      calls `prefix_of` cleanup_calls newContainers ∧
      Forall (λ ev, ∀ id, ev = EvContainerStop id 10 ∨ ev = EvContainerRemove id true →
                id ∈ newContainers ∧ id ∉ oldContainers) calls ∧
      (∀ i, (S i < length calls)%nat → answer i = None) ∧
      ((failure = [] ∧ ∀ i, (i < length calls)%nat → answer i = None)
       ∨ ∃ i ev msg,
           calls !! i = Some ev ∧ length calls = S i ∧ answer i = Some msg ∧
           failure = [EvLog "error" ("Failed to rollback: " +:+ cleanup_error ev msg)]) ∧
      ((∀ i, (i < 2 * length newContainers)%nat → answer i = None) → failure = []) ∧
      (failure = [] →
         calls = cleanup_calls newContainers ∧
         containers w' = filter (λ c, ID c ∉ newContainers) (containers w)) ∧
      (∀ i id, calls !! i = Some (EvContainerRemove id true) → answer i = None →
         ∀ c, c ∈ containers w' → ID c ≠ id) ∧
      (∀ i id, calls !! i = Some (EvContainerStop id 10) → answer i = None →
         ∀ c, c ∈ containers w' → ID c = id → State c = "exited") ∧
      filter (λ c, ID c ∉ newContainers) (containers w')
        = filter (λ c, ID c ∉ newContainers) (containers w) ∧
      (∀ c, c ∈ containers w → ID c ∈ oldContainers → c ∈ containers w').
Proof.
  intros new e w1 Hgate.
  destruct (finishUpdate_unfold E config oldContainers new w)
    as (e' & k & evs & Hgate' & _ & _ & Hrun).
  cbv zeta in Hgate', Hrun. rewrite Hgate in Hgate'. injection Hgate' as <- Hw1.
  rewrite <- Hw1 in Hrun. rewrite Hrun.
  assert (containers w1 = containers w) as Hcs by (by rewrite Hw1).
  unfold rollBack.
  rewrite (bind_Done _ _ w1 tt (record (EvLog "error" rolling_back) w1)) by done.
  destruct (StopAndRemoveContainers_answers E new (record (EvLog "error" rolling_back) w1))
    as (e' & calls & w' & Hstop & Hev & Hpre & Hans & _ & Hgone & Hexited & Hkeep & He).
  rewrite (bind_Done _ _ _ _ _ Hstop). simpl in Hans, Hgone, Hexited, He, Hkeep, Hev.
  rewrite Hcs in Hkeep.
  assert (length calls ≤ 2 * length new)%nat as Hlen.
  { apply prefix_length in Hpre. by rewrite length_cleanup_calls in Hpre. }
  exists calls,
    (match e' with
     | Some text => [EvLog "error" ("Failed to rollback: " +:+ text)]
     | None => []
     end),
    (match e' with
     | Some text => record (EvLog "error" ("Failed to rollback: " +:+ text)) w'
     | None => w'
     end).
  assert (containers (match e' with
                      | Some text => record (EvLog "error" ("Failed to rollback: " +:+ text)) w'
                      | None => w'
                      end) = containers w') as -> by (by destruct e').
  cbv zeta. split_and!.
  - unfold mbind, M_bind. by destruct e'.
  - destruct e'; simpl; by rewrite Hev.
  - done.
  - destruct Hpre as [rest Hrest].
    pose proof (cleanup_calls_events new) as Hall. rewrite Hrest in Hall.
    apply Forall_app in Hall as [Hall _]. eapply Forall_impl; [done |].
    intros ev (id & Hid & Hev') id' Hid'.
    assert (id' = id) as -> by (destruct Hev', Hid'; congruence).
    split; [done |]. unfold new in Hid.
    apply elem_of_filteredNewContainers in Hid. tauto.
  - done.
  - destruct e' as [text|].
    + right. destruct He as (i & ev & msg & Hi & Hl & Hmsg & ->). by exists i, ev, msg.
    + left. by destruct He as (_ & Hall & _).
  - intros Hquiet. destruct e' as [text|]; [| done].
    destruct He as (i & ev & msg & Hi & Hl & Hmsg & _).
    assert (daemon_error E (S (length (events w1)) + i) = None) as Hnone
      by (apply Hquiet; lia).
    simpl in Hnone. congruence.
  - intros Hf. destruct e' as [text|]; [done |].
    destruct He as (-> & _ & ->). by rewrite Hcs.
  - done.
  - done.
  - done.
  - intros c Hc Hold.
    assert (ID c ∉ new) as Hnew
      by (intros Hin%elem_of_filteredNewContainers; tauto).
    assert (c ∈ filter (λ c, ID c ∉ new) (containers w')) as Hin.
    { rewrite Hkeep. by apply list_elem_of_filter. }
    by apply list_elem_of_filter in Hin as [_ ?].
Qed.

Lemma rollback_touches_new_containers_only_witness :
  let E := Example.failing 0 None [] in
  let w := Example.world [Example.api Example.id_a "Host(`a.com`)";
                          Example.api Example.id_c "Host(`a.com`)"]
             (Example.routing "Host(`a.com`)" ["http://aaaaaaaaaaaa:80"]) in
  let config := Example.config "api" in
  let w1 := snd (WaitForHealthyContainers E [Example.id_c] (HealthcheckTimeout config) w) in
  ∃ calls failure w',
    let answer i := daemon_error E (S (length (events w1)) + i) in
    finishUpdate E config [Example.id_a] [Example.id_c] w = (Exited 1, w') ∧
    events w' = failure ++ rev calls ++ EvLog "error" rolling_back :: events w1 ∧
    calls `prefix_of` cleanup_calls [Example.id_c] ∧
    Forall (λ ev, ∀ id, ev = EvContainerStop id 10 ∨ ev = EvContainerRemove id true →
              id ∈ [Example.id_c] ∧ id ∉ [Example.id_a]) calls ∧
    (∀ i, (S i < length calls)%nat → answer i = None) ∧
    ((failure = [] ∧ ∀ i, (i < length calls)%nat → answer i = None)
     ∨ ∃ i ev msg,
         calls !! i = Some ev ∧ length calls = S i ∧ answer i = Some msg ∧
         failure = [EvLog "error" ("Failed to rollback: " +:+ cleanup_error ev msg)]) ∧
    ((∀ i, (i < 2 * length [Example.id_c])%nat → answer i = None) → failure = []) ∧
    (failure = [] →
       calls = cleanup_calls [Example.id_c] ∧
       containers w' = filter (λ c, ID c ∉ [Example.id_c]) (containers w)) ∧
    (∀ i id, calls !! i = Some (EvContainerRemove id true) → answer i = None →
       ∀ c, c ∈ containers w' → ID c ≠ id) ∧
    (∀ i id, calls !! i = Some (EvContainerStop id 10) → answer i = None →
       ∀ c, c ∈ containers w' → ID c = id → State c = "exited") ∧
    filter (λ c, ID c ∉ [Example.id_c]) (containers w')
      = filter (λ c, ID c ∉ [Example.id_c]) (containers w) ∧
    (∀ c, c ∈ containers w → ID c ∈ [Example.id_a] → c ∈ containers w').
Proof.
  intros E w config w1.
  apply (rollback_touches_new_containers_only E config
           [Example.id_a] [Example.id_a; Example.id_c] w
           (inspect_error "boom") w1).
  vm_compute. reflexivity.
Defined.

(** C5 — for a service with [n] containers before scaling, [main] asks
    for [2n] replicas; the new containers it goes on with are the scaled
    set minus the old one: every scaled identifier that is not old, none
    that is old, and [n] of them when the scaled set has [2n] members and
    holds all the old ones. *)
Theorem scale_target_and_new_containers E config w :
  let service := Config_Service config in
  let pre := serviceContainerIDs service (containers w) in
  let scale := (Z.of_nat (length pre) * 2)%Z in
  let w3 := record (EvComposeScale service scale)
              (record EvContainerList (record EvContainerList w)) in
  let w4 := record EvContainerList
              (set_containers (scaled E service scale (containers w)) w3) in
  let post := serviceContainerIDs service (containers w4) in
  (service ≠ "up" → service ≠ "up -d" → pre ≠ [] →
   daemon_error E (length (events w)) = None →
   daemon_error E (S (length (events w))) = None →
   daemon_error E (S (S (length (events w)))) = None →
   daemon_error E (S (S (S (length (events w))))) = None →
   main E config w = finishUpdate E config pre (filteredNewContainers pre post) w4) ∧
  (service ≠ "up" → service ≠ "up -d" → pre ≠ [] →
   daemon_error E (length (events w)) = None →
   daemon_error E (S (length (events w))) = None →
   ∃ later,
     events (snd (main E config w))
     = later ++ EvComposeScale service scale
          :: EvContainerList :: EvContainerList :: events w) ∧
  (∀ oldContainers scaledContainers id,
     id ∈ filteredNewContainers oldContainers scaledContainers
     ↔ id ∈ scaledContainers ∧ id ∉ oldContainers) ∧
  (∀ oldContainers scaledContainers,
     NoDup oldContainers → NoDup scaledContainers →
     oldContainers ⊆ scaledContainers →
     length scaledContainers = 2 * length oldContainers →
     length (filteredNewContainers oldContainers scaledContainers)
     = length oldContainers).
Proof.
  intros service pre scale w3 w4 post. split_and!.
  - apply main_scaling.
  - apply main_requests_double.
  - apply elem_of_filteredNewContainers.
  - intros old new Hold Hnew Hsub Hlen.
    rewrite length_filteredNewContainers by done. lia.
Qed.

Lemma scale_target_and_new_containers_witness :
  let E := Example.quiet [Example.api Example.id_c "Host(`a.com`)"] in
  let w := Example.world [Example.api Example.id_a "Host(`a.com`)"]
             (Example.routing "Host(`a.com`)" ["http://aaaaaaaaaaaa:80"]) in
  let w4 := mkWorld [Example.api Example.id_a "Host(`a.com`)";
                     Example.api Example.id_c "Host(`a.com`)"]
              0 (fs w) []
              [EvContainerList; EvComposeScale "api" 2; EvContainerList; EvContainerList] in
  main E (Example.config "api") w
    = finishUpdate E (Example.config "api") [Example.id_a] [Example.id_c] w4 ∧
  length (filteredNewContainers [Example.id_a] [Example.id_a; Example.id_c]) = 1.
Proof.
  intros E w w4.
  destruct (scale_target_and_new_containers E (Example.config "api") w)
    as (Hmain & _ & _ & Hlen).
  split.
  - apply Hmain; done.
  - apply (Hlen [Example.id_a] [Example.id_a; Example.id_c]).
    + apply NoDup_singleton.
    + apply NoDup_cons. split; [| apply NoDup_singleton].
      intros Hin%list_elem_of_singleton. discriminate Hin.
    + intros id Hid%list_elem_of_singleton. subst. by left.
    + reflexivity.
Defined.

(** When [main] returns from a rolling update, the last thing it did was to
    remove the last old container: nothing follows the cleanup. *)
Lemma main_returns_after_cleanup E config w :
  let service := Config_Service config in
  let pre := serviceContainerIDs service (containers w) in
  service ≠ "up" → service ≠ "up -d" → pre ≠ [] →
  fst (main E config w) = Done tt →
  ∃ earlier, events (snd (main E config w)) = rev (cleanup_calls pre) ++ earlier.
Proof.
  intros service pre Hup Hupd Hpre Hdone.
  destruct (decide (is_Some (daemon_error E (length (events w))) ∨
                    is_Some (daemon_error E (S (length (events w)))) ∨
                    is_Some (daemon_error E (S (S (length (events w))))) ∨
                    is_Some (daemon_error E (S (S (S (length (events w))))))))
    as [Hfail | Hfine].
  { destruct (main_scaling_failure_run E config w Hup Hupd Hpre Hfail)
      as (? & ? & ? & Hmain & _).
    by rewrite Hmain in Hdone. }
  assert (daemon_error E (length (events w)) = None) as H0
    by (apply eq_None_not_Some; tauto).
  assert (daemon_error E (S (length (events w))) = None) as H1
    by (apply eq_None_not_Some; tauto).
  assert (daemon_error E (S (S (length (events w)))) = None) as H2
    by (apply eq_None_not_Some; tauto).
  assert (daemon_error E (S (S (S (length (events w))))) = None) as H3
    by (apply eq_None_not_Some; tauto).
  rewrite main_scaling in Hdone |- * by done.
  cbv zeta in Hdone |- *.
  match goal with
  | |- context [finishUpdate E config ?old ?new ?w4] =>
      destruct (finishUpdate_unfold E config old new w4)
        as (e & k & evs & _ & _ & _ & Hrun);
      cbv zeta in Hrun; rewrite Hrun in Hdone |- *; destruct e as [msg|];
      [destruct (rollBack_spec E new (set_clock (clock w4 + Z.of_nat k * Go.Second)
                                        (observe evs w4))) as (? & ? & ? & Hrb & _);
       by rewrite Hrb in Hdone
      | by apply switchOver_Done]
  end.
Qed.

(** C2 — a rolling update of [api] during which the router rule of the
    service changed: [main] returns right after removing the old container.
    It does not run the synthesizer, so the published document keeps the old
    rule, while a run of the synthesizer on the final state would publish
    the new one. *)
Theorem main_ends_without_resync :
  let E := Example.quiet [Example.api Example.id_c "Host(`b.com`)"] in
  let w := Example.world [Example.api Example.id_a "Host(`a.com`)"]
             (Example.routing "Host(`a.com`)" ["http://aaaaaaaaaaaa:80"]) in
  let patched := Doc (Yaml.Marshal
                   (Example.routing "Host(`a.com`)" ["http://cccccccccccc:80"])) in
  let w' := snd (main E (Example.config "api") w) in
  fst (main E (Example.config "api") w) = Done tt ∧
  events w' = [EvContainerRemove Example.id_a true; EvContainerStop Example.id_a 10;
               EvSleep (10 * Go.Second);
               EvWriteData Example.conf patched; EvOpenTrunc Example.conf;
               EvReadFile Example.conf;
               EvContainerInspect Example.id_c;
               EvContainerList; EvComposeScale "api" 2;
               EvContainerList; EvContainerList] ∧
  containers w' = [Example.api Example.id_c "Host(`b.com`)"] ∧
  fs w' !! Example.conf = Some patched ∧
  fs (snd (GenerateConfig E Example.no_json (containers w') [Example.compose_file]
             Example.conf w')) !! Example.conf
  = Some (Doc (Yaml.Marshal
                 (Example.routing "Host(`b.com`)" ["http://cccccccccccc:80"]))).
Proof. vm_compute. split_and!; reflexivity. Qed.

End OrchestratorClaims.

(** ** The health gate: what the specification states *)

Section HealthGateClaims.

(** Two runs that the specification does not describe.  A healthy
    container whose inspection fails: the gate returns the inspection error
    on the first tick, neither success nor the timeout.  Two containers of
    which the first never gets healthy: every poll stops at the first, and
    the second is never inspected. *)
Lemma gate_differs_from_specification :
  ¬ gate_as_specified (Example.failing 0 (Some "healthy") []) [Example.id_c]
      (5 * Go.Second)
      (Example.world [Example.api Example.id_c "Host(`a.com`)"]
         (Example.routing "Host(`a.com`)" ["http://cccccccccccc:80"])) ∧
  ¬ gate_polls_every_container (Example.healthy_from (60 * Go.Second))
      [Example.id_c; Example.id_d] (5 * Go.Second)
      (Example.world [] (Example.routing "" [])).
Proof.
  split.
  - intros [Hsuccess _]. destruct (Hsuccess 0%nat) as [Hrun _].
    + done.
    + by repeat constructor.
    + intros j Hj. lia.
    + vm_compute in Hrun. discriminate Hrun.
  - intros (evs & Hevs & Hsame).
    assert (inspections Example.id_c evs = inspections Example.id_d evs) as Hbad
      by (apply Hsame; set_solver).
    replace (events (Example.world [] (Example.routing "" []))) with (@nil Event)
      in Hevs by reflexivity.
    rewrite app_nil_r in Hevs. subst evs. vm_compute in Hbad. discriminate Hbad.
Qed.

Lemma failed_poll_not_all_healthy E containerIDs t :
  failed_poll E containerIDs t → ¬ all_healthy E containerIDs t.
Proof.
  intros (id & Hid & Hbad) Hall. unfold all_healthy in Hall.
  rewrite list.Forall_forall in Hall. specialize (Hall id Hid). congruence.
Qed.

(** C9 (amended) — a container without a health check counts as healthy.
    The gate always returns, and its run is the one that [gate_run]
    describes: at every tick before the deadline it inspects the containers
    in order, up to the first one that is not healthy or whose inspection
    fails; it returns success at the first tick at which every container is
    inspected and healthy, the error of a failed inspection as soon as one
    fails, and after a poll that found a container not healthy it sleeps one
    second; it returns the timeout error when a tick is at or past the
    deadline.  It only inspects and sleeps.  When no inspection fails the
    outcome is what the specification states. *)
Theorem health_gate_outcomes E containerIDs timeout w :
  (∀ id w0,
     daemon_error E (length (events w0)) = None →
     health_of E id (clock w0) = None →
     fst (CheckContainerHealth E id w0) = Done (ok true)) ∧
  (∃ e (k : nat) evs,
     let w' := set_clock (clock w + Z.of_nat k * Go.Second) (observe evs w) in
     WaitForHealthyContainers E containerIDs timeout w = (Done e, w') ∧
     gate_run E containerIDs (clock w + timeout) w k e w' ∧
     Forall (gate_event containerIDs) evs ∧
     (∀ j : nat, (j < k)%nat →
        (Z.of_nat j * Go.Second < timeout)%Z ∧
        failed_poll E containerIDs (clock w + Z.of_nat j * Go.Second)) ∧
     gate_verdict E containerIDs (clock w + timeout)
       (clock w + Z.of_nat k * Go.Second) e) ∧
  (∀ k e w',
     gate_run E containerIDs (clock w + timeout) w k e w' →
     WaitForHealthyContainers E containerIDs timeout w = (Done e, w')) ∧
  ((∀ i, daemon_error E i = None) → gate_as_specified E containerIDs timeout w).
Proof.
  split_and!.
  - intros id w0 Herr Hnone. rewrite CheckContainerHealth_unfold, Herr, Hnone. done.
  - destruct (WaitForHealthyContainers_spec E containerIDs timeout w)
      as (e & k & evs & Hrun & Hevs & Hpolls & Hv).
    destruct (WaitForHealthyContainers_run E containerIDs timeout w)
      as [(e0 & k0 & w0 & Hrun0 & Hgate) _].
    rewrite Hrun in Hrun0. injection Hrun0 as <- <-.
    pose proof (gate_run_clock _ _ _ _ _ _ _ Hgate) as Hclock. simpl in Hclock.
    assert (k0 = k) as -> by (unfold Go.Second in Hclock; lia).
    exists e, k, evs. cbv zeta. by split_and!.
  - apply WaitForHealthyContainers_run.
  - intros Hquiet. unfold gate_as_specified.
    destruct (WaitForHealthyContainers_spec E containerIDs timeout w)
      as (e & k & evs & -> & _ & Hpolls & Hv).
    cbn [fst snd clock set_clock]. split.
    + intros k0 Hk0 Hall Hfirst.
      destruct (Nat.lt_trichotomy k k0) as [Hlt | [-> | Hgt]].
      * exfalso. destruct e as [msg|]; simpl in Hv.
        -- destruct Hv as [[_ Hd] | [_ (m & i & _ & Hi)]];
             [unfold Go.Second in *; lia | by rewrite Hquiet in Hi].
        -- destruct Hv as [_ Hv]. by apply (Hfirst k).
      * destruct e as [msg|]; simpl in Hv; [| done]. exfalso.
        destruct Hv as [[_ Hd] | [_ (m & i & _ & Hi)]];
          [lia | by rewrite Hquiet in Hi].
      * exfalso. destruct (Hpolls k0 Hgt) as [_ Hfail].
        by apply (failed_poll_not_all_healthy _ _ _ Hfail).
    + intros Hnever. destruct e as [msg|]; simpl in Hv.
      * destruct Hv as [[-> Hd] | [_ (m & i & _ & Hi)]];
          [done | by rewrite Hquiet in Hi].
      * exfalso. destruct Hv as [Hlt Hall]. apply (Hnever k); [lia | done].
Qed.

Lemma health_gate_outcomes_witness :
  let E := Example.quiet [] in
  let F := Example.failing 1 (Some "healthy") [] in
  let w := Example.world [Example.api Example.id_c "Host(`a.com`)"]
             (Example.routing "Host(`a.com`)" ["http://cccccccccccc:80"]) in
  fst (CheckContainerHealth E Example.id_c w) = Done (ok true) ∧
  gate_as_specified E [Example.id_c] (5 * Go.Second) w ∧
  WaitForHealthyContainers F [Example.id_a; Example.id_c; Example.id_d] (5 * Go.Second) w
  = (Done (Some (inspect_error "boom")), inspected [Example.id_a; Example.id_c] w).
Proof.
  intros E F w.
  destruct (health_gate_outcomes E [Example.id_c] (5 * Go.Second) w)
    as (Hnone & _ & _ & Hspec).
  destruct (health_gate_outcomes F [Example.id_a; Example.id_c; Example.id_d]
              (5 * Go.Second) w) as (_ & _ & Hrun & _).
  split_and!.
  - apply Hnone; reflexivity.
  - apply Hspec. reflexivity.
  - apply (Hrun 0%nat).
    apply (gate_inspection_failed F _ _ w [Example.id_a] Example.id_c [Example.id_d] "boom").
    + reflexivity.
    + reflexivity.
    + intros [|i] id Hi; simpl in Hi; [| by rewrite lookup_nil in Hi].
      simplify_eq. split; reflexivity.
    + reflexivity.
Defined.

End HealthGateClaims.

(** ** Publication of the routing document *)

Section Publication.

(** Writing to a temporary file and renaming it is atomic. *)
Lemma publish_by_rename_atomic E tmp path data w :
  tmp ≠ path → publishes_atomically (publish_by_rename E tmp path data) path w.
Proof.
  intros Hne. unfold publishes_atomically, publish_by_rename, os_WriteFile,
    sys_open_trunc, sys_write, sys_rename, mbind, M_bind, mret, M_ret.
  destruct (write_denied E tmp); simpl.
  { exists []. split; [done |]. intros; constructor. }
  rewrite lookup_insert_eq. simpl.
  eexists [_; _; _]. split; [done |].
  intros after Hafter. unfold atomic_publication.
  rewrite lookup_delete_ne, lookup_insert_eq in Hafter by done. simplify_eq.
  repeat apply Forall_cons_2; [| | | apply Forall_nil_2].
  - right. by rewrite lookup_delete_ne, lookup_insert_eq by done.
  - left. by rewrite !lookup_insert_ne by done.
  - left. by rewrite !lookup_insert_ne by done.
Qed.

Lemma Marshal_not_empty config : Doc (Yaml.Marshal config) ≠ empty_file.
Proof. done. Qed.

(** Every successful run of the patcher lets a reader find the truncated
    file. *)
Lemma UpdateConfig_not_atomic E oldIds newIds path w data config :
  fs w !! path = Some data →
  yaml_Unmarshal data = ok config →
  paired_ids_long oldIds newIds →
  write_denied E path = false →
  data ≠ empty_file →
  ¬ publishes_atomically (UpdateConfig E oldIds newIds path) path w.
Proof.
  intros Hfile Hparse [cm Hcm]%buildContainerMap_total Hw Hdata (states & Hhist & Hatomic).
  rewrite UpdateConfig_unfold in Hhist, Hatomic. cbv zeta in Hhist, Hatomic.
  rewrite Hfile, Hparse, Hcm, Hw in Hhist, Hatomic. simpl in Hhist, Hatomic.
  change (?a :: ?b :: fs_history w) with ([a; b] ++ fs_history w) in Hhist.
  apply app_inv_tail in Hhist as <-.
  specialize (Hatomic _ (lookup_insert_eq _ _ _)).
  apply Forall_cons in Hatomic as [_ Hatomic]. apply Forall_cons in Hatomic as [Hmid _].
  rewrite lookup_insert_eq in Hmid. destruct Hmid as [[= ?] | [= ?]]; done.
Qed.

(** Reading the compose files changes nothing. *)
Lemma readComposeServices_spec composeFiles : ∀ services w,
  ∃ r evs, readComposeServices composeFiles services w = (Done r, observe evs w).
Proof.
  induction composeFiles as [|file rest IH]; intros services w; cbn [readComposeServices].
  - exists (ok services), []. by rewrite observe_nil.
  - unfold mbind, M_bind, os_ReadFile, mret, M_ret.
    destruct (fs w !! file) as [data|]; [| by eexists _, [_]].
    destruct (composeFileServices data) as [s | e]; [| by eexists _, [_]].
    destruct (IH (services ∪ s) (record (EvReadFile file) w)) as (r & evs & ->).
    exists r, (evs ++ [EvReadFile file]). by rewrite <- observe_observe.
Qed.

(** So does every successful run of the synthesizer. *)
Lemma GenerateConfig_not_atomic E json cs composeFiles path w :
  fst (GenerateConfig E json cs composeFiles path w) = Done None →
  fs w !! path ≠ Some empty_file →
  ¬ publishes_atomically (GenerateConfig E json cs composeFiles path) path w.
Proof.
  intros Hrun Hold (states & Hhist & Hatomic). revert Hrun Hhist Hatomic.
  unfold GenerateConfig.
  destruct (readComposeServices_spec composeFiles ∅ w) as (r & evs & Hread).
  rewrite (bind_Done _ _ _ _ _ Hread). destruct r as [services | e]; [| done].
  unfold or_panic, os_WriteFile, sys_open_trunc, sys_write, mbind, M_bind, mret, M_ret.
  destruct (buildConfig json (groupByService services cs ∅)) as [config|]; [| done].
  destruct (write_denied E path); [done |]. simpl. intros _ Hhist Hatomic.
  change (?a :: ?b :: fs_history w) with ([a; b] ++ fs_history w) in Hhist.
  apply app_inv_tail in Hhist as <-.
  specialize (Hatomic _ (lookup_insert_eq _ _ _)).
  apply Forall_cons in Hatomic as [_ Hatomic]. apply Forall_cons in Hatomic as [Hmid _].
  rewrite lookup_insert_eq in Hmid.
  destruct Hmid as [Hmid | Hmid]; [by rewrite <- Hmid in Hold | done].
Qed.

(** C1 — the patcher and the synthesizer both write the configuration
    file in place: between the truncation and the write a reader finds an
    empty file, which is neither the old document nor the new one.  No
    temporary file and no rename are involved; publishing through a rename,
    as the shell script does, would be atomic. *)
Theorem publication_truncates_in_place :
  let E := Example.quiet [] in
  let old := Example.routing "Host(`a.com`)" ["http://aaaaaaaaaaaa:80"] in
  let new := Example.routing "Host(`a.com`)" ["http://cccccccccccc:80"] in
  let w := Example.world [Example.api Example.id_c "Host(`a.com`)"] old in
  let patch := UpdateConfig E [Example.id_a] [Example.id_c] Example.conf in
  let generate := GenerateConfig E Example.no_json (containers w)
                    [Example.compose_file] Example.conf in
  (fst (patch w) = Done None ∧
   events (snd (patch w))
     = [EvWriteData Example.conf (Doc (Yaml.Marshal new));
        EvOpenTrunc Example.conf; EvReadFile Example.conf] ∧
   (λ files, files !! Example.conf) <$> fs_history (snd (patch w))
     = [Some (Doc (Yaml.Marshal new)); Some empty_file] ∧
   ¬ publishes_atomically patch Example.conf w) ∧
  (fst (generate w) = Done None ∧
   events (snd (generate w))
     = [EvWriteData Example.conf (Doc (Yaml.Marshal new));
        EvOpenTrunc Example.conf; EvReadFile Example.compose_file] ∧
   (λ files, files !! Example.conf) <$> fs_history (snd (generate w))
     = [Some (Doc (Yaml.Marshal new)); Some empty_file] ∧
   ¬ publishes_atomically generate Example.conf w) ∧
  publishes_atomically
    (publish_by_rename E "dynamic.tmp" Example.conf (Doc (Yaml.Marshal new)))
    Example.conf w.
Proof.
  intros E old new w patch generate. split_and!.
  - vm_compute. reflexivity.
  - vm_compute. reflexivity.
  - vm_compute. reflexivity.
  - apply (UpdateConfig_not_atomic E _ _ _ _ (Doc (Yaml.Marshal old)) old).
    + reflexivity.
    + vm_compute. reflexivity.
    + vm_compute. repeat constructor.
    + reflexivity.
    + apply Marshal_not_empty.
  - vm_compute. reflexivity.
  - vm_compute. reflexivity.
  - vm_compute. reflexivity.
  - apply GenerateConfig_not_atomic.
    + vm_compute. reflexivity.
    + vm_compute. intros [= ?].
  - by apply publish_by_rename_atomic.
Qed.

End Publication.

(** ** The YAML codec *)

Section Codec.

Import Yaml.












End Codec.

(** ** The patcher: what it leaves alone *)

Section PatcherFrame.





End PatcherFrame.

(** ** The synthesizer: health checks *)

Section SynthesizerHealthCheck.

Variable json : string → option (option (gmap string string)).








(** Two containers of [api], no port label: two targets on port 80. *)
Example synthesize_default_port :
  buildConfig Example.no_json
    (groupByService {[ "api" ]}
       [Example.api Example.id_a "Host(`a.com`)"; Example.api Example.id_b "Host(`a.com`)"] ∅)
  = Some (Example.routing "Host(`a.com`)"
            ["http://aaaaaaaaaaaa:80"; "http://bbbbbbbbbbbb:80"]).
Proof. vm_compute. reflexivity. Qed.

(** A JSON null under [headers] followed by a single header: the store
    into the nil map panics. *)
Example headers_nil_map_panics :
  extractHeaders (λ _, Some None)
    [("p.headers", "null"); ("p.headers.X", "1")] "p" (Some ∅) = None.
Proof. reflexivity. Qed.

(** The two forms of header labels: the outcome depends on the order in
    which the labels are visited. *)
Example headers_order_matters :
  extractHeaders (λ _, Some (Some {[ "A" := "1" ]}))
    [("p.headers", "{}"); ("p.headers.X", "2")] "p" (Some ∅)
  ≠ extractHeaders (λ _, Some (Some {[ "A" := "1" ]}))
      [("p.headers.X", "2"); ("p.headers", "{}")] "p" (Some ∅).
Proof. vm_compute. intros [= H]. Qed.

End SynthesizerHealthCheck.

Section SynthesizerFields.



End SynthesizerFields.

(** ** The command line *)

Section ArgumentFacts.

Variable pd : string → result Z.

Ltac parse_cases :=
  cbn [parseLoop];
  repeat (case_decide || case_match);
  unfold os_Exit, log_Fatalf, mret, M_ret in *.

Lemma parseLoop_Done_len n : ∀ args c w c' w',
  (length args ≤ n)%nat → parseLoop pd c args w = (Done c', w') →
  w' = w ∧ Detach c' = Detach c.
Proof.
  induction n as [|n IH]; intros args c w c' w' Hn.
  - destruct args; [| simpl in Hn; lia]. simpl. by intros [= <- <-].
  - destruct args as [|arg rest]; [simpl; by intros [= <- <-] |].
    parse_cases; try done.
    all: intros Hrun; apply IH in Hrun as [? ?]; [by split | simplify_eq; simpl in *; lia].
Qed.

Lemma parseLoop_Done args c w c' w' :
  parseLoop pd c args w = (Done c', w') → w' = w ∧ Detach c' = Detach c.
Proof. by apply (parseLoop_Done_len (length args)). Qed.

Lemma parseLoop_app_len n : ∀ pre c w c' w' rest,
  (length pre ≤ n)%nat → parseLoop pd c pre w = (Done c', w') →
  parseLoop pd c (pre ++ rest) w = parseLoop pd c' rest w.
Proof.
  induction n as [|n IH]; intros pre c w c' w' rest Hn.
  - destruct pre; [| simpl in Hn; lia]. simpl. by intros [= <- <-].
  - destruct pre as [|arg pre]; [simpl; by intros [= <- <-] |].
    rewrite <- app_comm_cons. cbn [parseLoop].
    repeat case_decide; unfold os_Exit, log_Fatalf; try done.
    all: try (destruct pre as [|value pre]; [done |]; rewrite <- app_comm_cons;
              try (destruct (pd _); [| done])).
    all: try (destruct (Go.HasPrefix arg "-"); [done |]).
    all: intros Hrun; first [done | apply IH with (w' := w'); [simpl in *; lia | done]].
Qed.

Lemma parseLoop_app pre c w c' w' rest :
  parseLoop pd c pre w = (Done c', w') →
  parseLoop pd c (pre ++ rest) w = parseLoop pd c' rest w.
Proof. by apply (parseLoop_app_len (length pre)). Qed.

End ArgumentFacts.

Section ArgumentCoverage.

Lemma parseLoop_run pd c pre c' w rest :
  fst (parseLoop pd c pre w) = Done c' →
  parseLoop pd c (pre ++ rest) w = parseLoop pd c' rest w.
Proof.
  destruct (parseLoop pd c pre w) as [o w'] eqn:Hrun. simpl. intros ->.
  by apply (parseLoop_app pd pre c w c' w').
Qed.

Lemma parseArgs_unfold pd a0 a1 args w :
  parseArgs pd (a0 :: a1 :: args) w =
  match parseLoop pd defaultConfig args w with
  | (Done config, w') =>
      if decide (ProxyType config ≠ "traefik" ∧ ProxyType config ≠ "nginx-proxy")
      then log_Fatalf ("Invalid proxy type: " +:+ ProxyType config
                         +:+ ". Must be either 'traefik' or 'nginx-proxy'") w'
      else (Done config, w')
  | (Exited code, w') => (Exited code, w')
  | (Panicked, w') => (Panicked, w')
  | (OutOfFuel, w') => (OutOfFuel, w')
  end.
Proof.
  unfold parseArgs, slice_from, or_panic, mbind, M_bind, mret, M_ret. simpl.
  rewrite drop_0.
  destruct (parseLoop pd defaultConfig args w) as [[config | | |] w']; try done.
  by case_decide.
Qed.

(** X1 — when [parseArgs] returns a configuration, it has logged nothing,
    the process had at least two arguments, the proxy type is [traefik] or
    [nginx-proxy], and [Detach] is not set; with fewer than two process
    arguments it panics on [os.Args[2:]]. *)
Theorem parseArgs_returns_checked_config pd os_Args w :
  (∀ c w', parseArgs pd os_Args w = (Done c, w') →
     w' = w ∧ (2 ≤ length os_Args)%nat ∧
     (ProxyType c = "traefik" ∨ ProxyType c = "nginx-proxy") ∧ Detach c = false) ∧
  ((length os_Args < 2)%nat → parseArgs pd os_Args w = (Panicked, w)).
Proof.
  split.
  - intros c w'. destruct os_Args as [|a0 [|a1 args]]; [done | done |].
    rewrite parseArgs_unfold.
    destruct (parseLoop pd defaultConfig args w) as [[config | | |] w1] eqn:Hrun;
      try done.
    apply parseLoop_Done in Hrun as [-> Hdetach].
    case_decide as Hproxy; [done |]. intros [= <- <-].
    split_and!; [done | simpl; lia | | done].
    destruct (decide (ProxyType config = "traefik")); [by left |].
    destruct (decide (ProxyType config = "nginx-proxy")); [by right | tauto].
  - intros Hshort. unfold parseArgs, slice_from, or_panic, mbind, M_bind.
    by rewrite decide_False by lia.
Qed.

Lemma parseArgs_returns_checked_config_witness :
  let os_Args := ["docker"; "ztd"; "--proxy"; "nginx-proxy"; "-t"; "120"; "api"] in
  let c := set_Service "api" (set_HealthcheckTimeout (120 * Go.Second)
                                (set_ProxyType "nginx-proxy" defaultConfig)) in
  (idle = idle ∧ (2 ≤ length os_Args)%nat ∧
   (ProxyType c = "traefik" ∨ ProxyType c = "nginx-proxy") ∧ Detach c = false) ∧
  parseArgs sample_durations ["docker-ztd"] idle = (Panicked, idle).
Proof.
  intros os_Args c. split.
  - apply (proj1 (parseArgs_returns_checked_config sample_durations os_Args idle) c idle).
    reflexivity.
  - apply (proj2 (parseArgs_returns_checked_config sample_durations ["docker-ztd"] idle)).
    simpl. lia.
Defined.

(** X2 — once the arguments before it have been accepted, [--help] or
    [-h] ends the process with exit code 0 and no log line: what follows is
    not read, and the proxy type given before is not checked. *)
Theorem help_ends_parsing pd a0 a1 pre c help rest w :
  fst (parseLoop pd defaultConfig pre w) = Done c →
  help = "--help" ∨ help = "-h" →
  parseArgs pd (a0 :: a1 :: pre ++ help :: rest) w = (Exited 0, w).
Proof.
  intros Hpre Hhelp. rewrite parseArgs_unfold, (parseLoop_run _ _ _ _ _ _ Hpre).
  cbn [parseLoop]. by rewrite decide_True.
Qed.

Lemma help_ends_parsing_witness :
  parseArgs sample_durations
    ["docker"; "ztd"; "--proxy"; "haproxy"; "-h"; "--timeout"] idle = (Exited 0, idle).
Proof.
  apply (help_ends_parsing sample_durations "docker" "ztd" ["--proxy"; "haproxy"]
           (set_ProxyType "haproxy" defaultConfig) "-h" ["--timeout"] idle).
  - reflexivity.
  - by right.
Defined.

(** X3 — after arguments that have been accepted, [parseArgs] ends the
    process with exit code 1 and one fatal log line when the next argument
    starts with a dash and is not a flag it knows (so [-d] after [up] is
    refused), when it is a service name and one has been given already, and
    when it is a flag that takes a value and nothing follows it. *)
Theorem parseArgs_fatal_arguments pd a0 a1 pre c w :
  fst (parseLoop pd defaultConfig pre w) = Done c →
  (∀ arg rest, Go.HasPrefix arg "-" = true → arg ∉ flagSpellings →
     parseArgs pd (a0 :: a1 :: pre ++ arg :: rest) w
     = (Exited 1, record (EvLog "fatal" ("Unknown flag: " +:+ arg)) w)) ∧
  (∀ arg rest, Go.HasPrefix arg "-" = false → Config_Service c ≠ "" →
     parseArgs pd (a0 :: a1 :: pre ++ arg :: rest) w
     = (Exited 1, record (EvLog "fatal" "Service name can only be specified once") w)) ∧
  (∀ flag name, (flag, name) ∈ valueFlags →
     parseArgs pd (a0 :: a1 :: pre ++ [flag]) w
     = (Exited 1, record (EvLog "fatal" ("Missing value for --" +:+ name +:+ " flag")) w)).
Proof.
  intros Hpre. split_and!.
  - intros arg rest Hdash Hflag.
    rewrite parseArgs_unfold, (parseLoop_run _ _ _ _ _ _ Hpre). cbn [parseLoop].
    unfold flagSpellings in Hflag. rewrite !not_elem_of_cons in Hflag.
    repeat (rewrite decide_False by tauto). by rewrite Hdash.
  - intros arg rest Hdash Hservice.
    rewrite parseArgs_unfold, (parseLoop_run _ _ _ _ _ _ Hpre). cbn [parseLoop].
    repeat (rewrite decide_False by (intros [-> | ->]; discriminate Hdash)).
    by rewrite Hdash, decide_True.
  - intros flag name Hflag.
    rewrite parseArgs_unfold, (parseLoop_run _ _ _ _ _ _ Hpre).
    unfold valueFlags in Hflag. rewrite !elem_of_cons in Hflag.
    destruct Hflag as [Hf | [Hf | [Hf | [Hf | [Hf | [Hf | [Hf | [Hf | [Hf | [Hf |
                      [Hf | [Hf | [Hf | [Hf | Hf%elem_of_nil]]]]]]]]]]]]]];
      [.. | done]; simplify_eq; reflexivity.
Qed.

Lemma parseArgs_fatal_arguments_witness :
  parseArgs sample_durations ["docker"; "ztd"; "up"; "-d"] idle
  = (Exited 1, record (EvLog "fatal" "Unknown flag: -d") idle) ∧
  parseArgs sample_durations ["docker"; "ztd"; "up"; "api"] idle
  = (Exited 1, record (EvLog "fatal" "Service name can only be specified once") idle) ∧
  parseArgs sample_durations ["docker"; "ztd"; "up"; "-f"] idle
  = (Exited 1, record (EvLog "fatal" "Missing value for --file flag") idle).
Proof.
  destruct (parseArgs_fatal_arguments sample_durations "docker" "ztd" ["up"]
              (set_Service "up" defaultConfig) idle eq_refl) as (Hdash & Hservice & Hvalue).
  split_and!.
  - apply (Hdash "-d" []); [reflexivity |].
    unfold flagSpellings. rewrite !not_elem_of_cons. split_and!; try done.
    apply not_elem_of_nil.
  - apply (Hservice "api" []); [reflexivity | done].
  - apply (Hvalue "-f" "file"). unfold valueFlags. rewrite !elem_of_cons. tauto.
Defined.

Lemma parseLoop_files pd flag files : ∀ c w,
  flag = "--file" ∨ flag = "-f" →
  parseLoop pd c (files ≫= λ file, [flag; file]) w
  = (Done (set_ComposeFiles (ComposeFiles c ++ files) c), w).
Proof.
  induction files as [|file files IH]; intros c w Hflag.
  - simpl. rewrite app_nil_r. by destruct c.
  - change ((file :: files) ≫= λ file, [flag; file])
      with (flag :: file :: (files ≫= λ file, [flag; file])).
    cbn [parseLoop].
    rewrite decide_False by (intros [? | ?]; destruct Hflag; simplify_eq).
    rewrite decide_False by (intros [? | ?]; destruct Hflag; simplify_eq).
    rewrite decide_False by (intros [? | ?]; destruct Hflag; simplify_eq).
    rewrite decide_False by (intros [? | ?]; destruct Hflag; simplify_eq).
    rewrite decide_False by (intros [? | ?]; destruct Hflag; simplify_eq).
    rewrite decide_False by (intros [? | ?]; destruct Hflag; simplify_eq).
    rewrite decide_True by done. rewrite IH by done. simpl.
    by rewrite <- app_assoc.
Qed.

Lemma parseLoop_envs pd flag files : ∀ c w,
  flag = "--env-file" ∨ flag = "-e" →
  parseLoop pd c (files ≫= λ file, [flag; file]) w
  = (Done (set_EnvFiles (EnvFiles c ++ files) c), w).
Proof.
  induction files as [|file files IH]; intros c w Hflag.
  - simpl. rewrite app_nil_r. by destruct c.
  - change ((file :: files) ≫= λ file, [flag; file])
      with (flag :: file :: (files ≫= λ file, [flag; file])).
    cbn [parseLoop].
    rewrite decide_False by (intros [? | ?]; destruct Hflag; simplify_eq).
    rewrite decide_False by (intros [? | ?]; destruct Hflag; simplify_eq).
    rewrite decide_False by (intros [? | ?]; destruct Hflag; simplify_eq).
    rewrite decide_False by (intros [? | ?]; destruct Hflag; simplify_eq).
    rewrite decide_False by (intros [? | ?]; destruct Hflag; simplify_eq).
    rewrite decide_False by (intros [? | ?]; destruct Hflag; simplify_eq).
    rewrite decide_False by (intros [? | ?]; destruct Hflag; simplify_eq).
    rewrite decide_True by done. rewrite IH by done. simpl.
    by rewrite <- app_assoc.
Qed.

(** X4 — with compose files given by [-f], environment files given by
    [-e] and then a service name, [parseArgs] returns the default
    configuration (60 s health timeout, 10 s wait, no settling delay,
    [traefik/dynamic_conf.yml], proxy [traefik]) with the files in the order
    of the command line, each value taken as it stands, and that service. *)
Theorem parseArgs_collects_files pd a0 a1 files envs service w :
  Go.HasPrefix service "-" = false →
  parseArgs pd (a0 :: a1 :: (files ≫= λ file, ["-f"; file])
                   ++ (envs ≫= λ file, ["-e"; file]) ++ [service]) w
  = (Done (mkConfig (60 * Go.Second) (10 * Go.Second) 0 "traefik/dynamic_conf.yml"
             "traefik" files envs service false), w).
Proof.
  intros Hservice. rewrite parseArgs_unfold.
  rewrite (parseLoop_run pd _ _ (set_ComposeFiles files defaultConfig))
    by (by rewrite parseLoop_files by auto).
  rewrite (parseLoop_run pd _ _ (set_EnvFiles envs (set_ComposeFiles files defaultConfig)))
    by (by rewrite parseLoop_envs by auto).
  cbn [parseLoop].
  repeat (rewrite decide_False by (intros [-> | ->]; discriminate Hservice)).
  rewrite Hservice. case_decide as Hs; [done |]. reflexivity.
Qed.

Lemma parseArgs_collects_files_witness :
  parseArgs sample_durations
    ["docker"; "ztd"; "-f"; "base.yml"; "-f"; "-e"; "-e"; ".env"; "api"] idle
  = (Done (mkConfig (60 * Go.Second) (10 * Go.Second) 0 "traefik/dynamic_conf.yml"
             "traefik" ["base.yml"; "-e"] [".env"] "api" false), idle).
Proof.
  apply (parseArgs_collects_files sample_durations "docker" "ztd" ["base.yml"; "-e"]
           [".env"] "api" idle).
  reflexivity.
Defined.

End ArgumentCoverage.

(** ** The compose files *)

Section ComposeFiles.

Lemma dom_omap_result {A} (dec : yaml → result A) (m : gmap string yaml) :
  map_Forall (λ _ v, is_ok (dec v) = true) m →
  dom (omap (λ v, result_get (dec v)) m) = dom m.
Proof.
  intros Hok. apply set_eq. intros k. rewrite !elem_of_dom, lookup_omap.
  destruct (m !! k) as [v|] eqn:Hk; simpl; [| by split; intros [? ?]].
  specialize (Hok k v Hk). simpl in Hok. destruct (dec v); [| done]. simpl.
  split; eauto.
Qed.

Lemma yaml_Unmarshal_ComposeFile_services data composeFile :
  yaml_Unmarshal_ComposeFile data = ok composeFile →
  composeFileServices data = ok (dom (ComposeFile_Services composeFile)).
Proof.
  destruct data as [|y]; [done |]. unfold yaml_Unmarshal_ComposeFile, composeFileServices,
    Yaml.decodeFields.
  destruct y as [| |l|m]; try done.
  { intros [= <-]. simpl. by rewrite dom_empty_L. }
  unfold Yaml.decodeMap.
  destruct (m !! "services") as [[| |l|services]|]; simpl; try done.
  1, 3: intros [= <-]; simpl; by rewrite dom_empty_L.
  case_decide as Hok; simpl; [| done]. intros [= <-]. simpl.
  by rewrite dom_omap_result.
Qed.

Lemma composeServiceNames_spec composeFiles : ∀ names w,
  ∃ r evs,
    composeServiceNames composeFiles names w = (Done r, observe evs w) ∧
    Forall (reads_of composeFiles) evs ∧
    (composeFiles = [] → evs = []) ∧
    match r with
    | ok names' =>
        Forall (compose_file_parses w) composeFiles ∧
        ∀ name, name ∈ names' ↔
          name ∈ names ∨ Exists (compose_file_declares w name) composeFiles
    | err _ => ¬ Forall (compose_file_parses w) composeFiles
    end.
Proof.
  induction composeFiles as [|file rest IH]; intros names w; cbn [composeServiceNames].
  - exists (ok names), []. rewrite observe_nil. split_and!; try done.
    intros name. rewrite Exists_nil. tauto.
  - unfold parseComposeFile, os_ReadFile, mbind, M_bind, mret, M_ret.
    assert (reads_of (file :: rest) (EvReadFile file)) as Hread
      by (exists file; split; [by left | done]).
    destruct (fs w !! file) as [data|] eqn:Hfile.
    2: { eexists (err _), [EvReadFile file]. split_and!; [done | by constructor | done |].
         intros Hall. apply Forall_cons in Hall as [(d & cf & Hd & _) _]. congruence. }
    destruct (yaml_Unmarshal_ComposeFile data) as [cf | e] eqn:Hparse.
    2: { eexists (err _), [EvReadFile file]. split_and!; [done | by constructor | done |].
         intros Hall. apply Forall_cons in Hall as [(d & cf & Hd & Hcf) _]. congruence. }
    destruct (IH (names ∪ dom (ComposeFile_Services cf)) (record (EvReadFile file) w))
      as (r & evs & -> & Hevs & _ & Hr).
    exists r, (evs ++ [EvReadFile file]). split_and!.
    + by rewrite <- observe_observe.
    + apply Forall_app. split; [| by constructor].
      eapply Forall_impl; [done |]. intros ev (f & Hf & ->). exists f. split; [by right | done].
    + done.
    + assert (compose_file_parses w file) as Hfirst by (by exists data, cf).
      destruct r as [names' | e].
      * destruct Hr as [Hall Hnames]. split; [by constructor |].
        intros name. rewrite Hnames, elem_of_union, Exists_cons. split.
        -- intros [[? | Hin] | ?]; [by left | | by right; right].
           right. left. by exists data, cf.
        -- intros [? | [(d & cf' & Hd & Hcf & Hin) | ?]]; [by left; left | | by right].
           left. right. congruence.
      * intros Hall. apply Forall_cons in Hall as [_ Hall]. by apply Hr.
Qed.

End ComposeFiles.

Section ComposeFileCoverage.

(** X5 — the two readers of compose files agree where both accept: when
    the reader of [DeployService] accepts a file, the reader of
    [GenerateConfig] accepts it and finds the same service names.  The
    first is stricter: a file in which a service gives its environment as a
    list is refused by it and read by the other. *)
Theorem compose_readers_agree :
  (∀ data composeFile,
     yaml_Unmarshal_ComposeFile data = ok composeFile →
     composeFileServices data = ok (dom (ComposeFile_Services composeFile))) ∧
  (∀ (top services fields : gmap string yaml) name l,
     top !! "services" = Some (YMap services) →
     services !! name = Some (YMap fields) →
     fields !! "environment" = Some (YSeq l) →
     (∃ e, yaml_Unmarshal_ComposeFile (Doc (YMap top)) = err e) ∧
     composeFileServices (Doc (YMap top)) = ok (dom services)).
Proof.
  split; [apply yaml_Unmarshal_ComposeFile_services |].
  intros top services fields name l Htop Hname Henv.
  unfold yaml_Unmarshal_ComposeFile, composeFileServices, Yaml.decodeFields,
    Yaml.decodeMap at 1.
  rewrite Htop. split; [| done].
  rewrite decide_False; [by eexists |].
  intros Hall. specialize (Hall name _ Hname). simpl in Hall.
  unfold decodeComposeService, Yaml.decodeFields, Yaml.decodeMap in Hall.
  rewrite Henv in Hall.
  destruct (Yaml.decodeString (fields !! "image")); simpl in Hall; [| done].
  destruct (Yaml.decodeString (fields !! "container_name")); simpl in Hall; done.
Qed.

Lemma compose_readers_agree_witness :
  let fields := <["image" := YStr "nginx"]> {[ "environment" := YSeq [YStr "PORT=80"] ]} in
  let services : gmap string yaml := {[ "api" := YMap fields ]} in
  composeFileServices (Doc Example.compose_doc)
  = ok (dom (ComposeFile_Services (mkComposeFile {[ "api" := mkComposeService "" "" ∅ ]}))) ∧
  (∃ e, yaml_Unmarshal_ComposeFile (Doc compose_with_list_environment) = err e) ∧
  composeFileServices (Doc compose_with_list_environment) = ok (dom services).
Proof.
  intros fields services. destruct compose_readers_agree as [Hagree Hstrict]. split.
  - apply Hagree. vm_compute. reflexivity.
  - apply (Hstrict {[ "services" := YMap services ]} services fields "api" [YStr "PORT=80"]);
      reflexivity.
Defined.

(** X6 — [DeployService] goes on with a single service only when every
    compose file given to it is read and parsed and one of them declares the
    service; up to that point it only reads those files.  With no compose
    file at all it fails with [service ... not found in compose files]
    without reading anything. *)
Theorem service_must_be_declared serviceName composeFiles w :
  ∃ e evs,
    serviceExists serviceName composeFiles w = (Done e, observe evs w) ∧
    Forall (reads_of composeFiles) evs ∧
    (e = None ↔
       Forall (compose_file_parses w) composeFiles ∧
       Exists (compose_file_declares w serviceName) composeFiles) ∧
    (composeFiles = [] →
       e = Some ("service " +:+ serviceName +:+ " not found in compose files") ∧
       evs = []).
Proof.
  unfold serviceExists.
  destruct (composeServiceNames_spec composeFiles ∅ w) as (r & evs & Hrun & Hevs & Hnil & Hr).
  rewrite (bind_Done _ _ _ _ _ Hrun). destruct r as [names | msg].
  - destruct Hr as [Hall Hnames]. case_decide as Hin.
    + exists None, evs. split_and!; [done | done | | ].
      * split; [intros _ | done]. split; [done |].
        apply Hnames in Hin as [Hin | ?]; [set_solver | done].
      * intros ->. apply Hnames in Hin as [Hin | Hin]; [set_solver |].
        by apply Exists_nil in Hin.
    + eexists (Some _), evs. split_and!; [done | done | | ].
      * split; [done |]. intros [_ Hex]. exfalso. apply Hin, Hnames. by right.
      * intros ->. split; [done | by apply Hnil].
  - eexists (Some _), evs. split_and!; [done | done | | ].
    + split; [done |]. intros [Hall _]. by exfalso.
    + intros ->. exfalso. apply Hr. constructor.
Qed.

End ComposeFileCoverage.

(** ** The synthesizer: what it publishes *)

Section Synthesizer.

Variable json : string → option (option (gmap string string)).

Lemma groupByService_lookup composeServices cs : ∀ grouped name,
  groupByService composeServices cs grouped !! name =
  if decide (name ≠ "" ∧ name ∈ composeServices)
  then match grouped !! name, filter (in_service name) cs with
       | None, [] => None
       | prior, found => Some (default [] prior ++ found)
       end
  else grouped !! name.
Proof.
  induction cs as [|c cs IH]; intros grouped name; cbn [groupByService].
  - destruct (decide (name ≠ "" ∧ name ∈ composeServices)); [| done].
    rewrite filter_nil. destruct (grouped !! name); simpl; [| done].
    by rewrite app_nil_r.
  - cbv zeta. set (s := label (Labels c) "com.docker.compose.service").
    destruct (decide (s = name)) as [Heq | Hne].
    + rewrite (filter_cons_True (in_service name)) by exact Heq.
      destruct (decide (s = "")) as [Hs | Hs].
      { rewrite IH. rewrite !decide_False; [done | |]; intros [? _]; congruence. }
      destruct (decide (s ∈ composeServices)) as [Hin | Hin].
      2: { rewrite IH. rewrite !decide_False; [done | |]; intros [_ ?]; congruence. }
      rewrite IH. subst name. rewrite decide_True by done. rewrite lookup_insert_eq. simpl.
      rewrite <- app_assoc. simpl. rewrite decide_True by done.
      by destruct (grouped !! s).
    + rewrite (filter_cons_False (in_service name)) by exact Hne.
      destruct (decide (s = "")) as [Hs | Hs]; [apply IH |].
      destruct (decide (s ∈ composeServices)) as [Hin | Hin]; [| apply IH].
      rewrite IH. by rewrite lookup_insert_ne.
Qed.

Lemma groupByService_empty composeServices cs name :
  groupByService composeServices cs ∅ !! name =
  if decide (name ≠ "" ∧ name ∈ composeServices)
  then match filter (in_service name) cs with
       | [] => None
       | found => Some found
       end
  else None.
Proof.
  rewrite groupByService_lookup, lookup_empty. case_decide; [| done].
  by destruct (filter (in_service name) cs).
Qed.

Lemma serverList_Some cs port :
  Forall (λ c, long_enough (ID c)) cs →
  serverList cs port = Some (server_of port <$> cs).
Proof.
  induction 1 as [|c cs Hc Hcs IH]; [done |]. cbn [serverList].
  rewrite slice_to_Some by done. simpl. by rewrite IH.
Qed.

Lemma serverList_None cs port :
  Exists (λ c, ¬ long_enough (ID c)) cs → serverList cs port = None.
Proof.
  induction 1 as [c cs Hc | c cs Hcs IH]; cbn [serverList].
  - rewrite slice_to_None; [done |]. unfold long_enough in Hc. lia.
  - rewrite IH. by destruct (Go.slice_to 12 (ID c)).
Qed.

Lemma serverList_cases cs port :
  (Forall (λ c, long_enough (ID c)) cs ∧ serverList cs port = Some (server_of port <$> cs))
  ∨ (Exists (λ c, ¬ long_enough (ID c)) cs ∧ serverList cs port = None).
Proof.
  destruct (decide (Forall (λ c, long_enough (ID c)) cs)) as [Hall | Hex].
  - left. split; [done |]. by apply serverList_Some.
  - right. apply not_Forall_Exists in Hex; [| apply _].
    split; [done |]. by apply serverList_None.
Qed.

(** The headers loop does not panic when no label value decodes to a nil
    map. *)
Lemma extractHeaders_total labels prefix : ∀ headers,
  no_null_label json labels →
  is_Some (extractHeaders json labels prefix (Some headers) ≫= id).
Proof.
  unfold no_null_label.
  induction labels as [|[key value] rest IH]; intros headers Hjson; [by eexists |].
  assert (∀ key value, (key, value) ∈ rest → json value ≠ Some None) as Hrest
    by (intros k v Hin; apply (Hjson k v); by right).
  cbn [extractHeaders]. case_decide.
  - destruct (json value) as [[parsed|]|] eqn:Hv; [by apply IH | | by apply IH].
    exfalso. apply (Hjson key value); [by left | done].
  - destruct (Go.HasPrefix key (prefix +:+ ".headers.")); by apply IH.
Qed.

Lemma extractHealthCheck_total labels serviceName :
  no_null_label json labels →
  is_Some (extractHealthCheck json labels serviceName).
Proof.
  intros Hjson. unfold extractHealthCheck.
  destruct (negb _); [by eexists |].
  destruct (extractHeaders_total labels (healthCheckPrefix serviceName) ∅ Hjson)
    as [h Hh].
  destruct (extractHeaders json labels (healthCheckPrefix serviceName) (Some ∅))
    as [[h'|]|]; simpl in *; [by eexists | done | done].
Qed.

(** The entry of a service, case by case. *)
Lemma serviceEntry_cases serviceName first rest :
  let cs := first :: rest in
  serviceEntry json serviceName cs =
  if decide (routed serviceName first) then
    servers ← serverList cs (server_port serviceName first);
    healthCheck ← extractHealthCheck json (Labels first) serviceName;
    Some (Some (mkRouter (label (Labels first)
                            ("traefik.http.routers." +:+ serviceName +:+ ".rule"))
                         serviceName,
                mkService (mkLoadBalancer servers
                  match healthCheck with
                  | Some hc => if hasValues hc then Some hc else None
                  | None => None
                  end)))
  else Some None.
Proof.
  cbv zeta. unfold serviceEntry.
  change (if decide (label (Labels first)
                       ("traefik.http.services." +:+ serviceName
                          +:+ ".loadbalancer.server.port") = "")
          then "80"
          else label (Labels first)
                 ("traefik.http.services." +:+ serviceName
                    +:+ ".loadbalancer.server.port"))
    with (server_port serviceName first).
  destruct (decide (routed serviceName first)) as [[He Hr] | Hn].
  - rewrite (bool_decide_eq_true_2 _ He). cbn [negb].
    rewrite (decide_False _ _ Hr).
    destruct (serverList_cases (first :: rest) (server_port serviceName first))
      as [[_ ->] | [_ ->]]; [| done].
    cbn [mbind option_bind].
    rewrite decide_False by (rewrite length_fmap; simpl; lia). done.
  - destruct (decide (label (Labels first) "traefik.enable" = "true")) as [He | He].
    + rewrite (bool_decide_eq_true_2 _ He). cbn [negb].
      rewrite decide_True; [done |].
      destruct (decide (label (Labels first)
                          ("traefik.http.routers." +:+ serviceName +:+ ".rule") = ""));
        [done |]. exfalso. by apply Hn.
    + by rewrite (bool_decide_eq_false_2 _ He).
Qed.

Lemma buildConfig_lookup grouped config name :
  buildConfig json grouped = Some config →
  Routers (HTTP config) !! name
    = fst <$> (grouped !! name ≫= λ cs, mjoin (serviceEntry json name cs)) ∧
  Services (HTTP config) !! name
    = snd <$> (grouped !! name ≫= λ cs, mjoin (serviceEntry json name cs)).
Proof.
  unfold buildConfig. case_decide; [| done]. intros [= <-]. simpl.
  by rewrite !lookup_fmap, map_lookup_imap.
Qed.

Lemma buildConfig_None grouped :
  buildConfig json grouped = None ↔
  ∃ name cs, grouped !! name = Some cs ∧ serviceEntry json name cs = None.
Proof.
  unfold buildConfig. case_decide as Hall.
  - split; [done |]. intros (name & cs & Hcs & Hnone).
    specialize (Hall name cs Hcs). simpl in Hall. rewrite Hnone in Hall. by destruct Hall.
  - split; [intros _ | done].
    apply map_not_Forall in Hall as (name & cs & Hcs & Hnot); [| apply _].
    exists name, cs. split; [done |]. by apply eq_None_not_Some.
Qed.

End Synthesizer.

Section SynthesizerRuns.

Lemma readComposeServices_result composeFiles : ∀ services w,
  ∃ r evs,
    readComposeServices composeFiles services w = (Done r, observe evs w) ∧
    Forall (reads_of composeFiles) evs ∧
    match r with
    | ok _ => Forall (compose_file_lists w) composeFiles
    | err _ => ¬ Forall (compose_file_lists w) composeFiles
    end.
Proof.
  induction composeFiles as [|file rest IH]; intros services w; cbn [readComposeServices].
  - exists (ok services), []. rewrite observe_nil. by split_and!.
  - unfold os_ReadFile, mbind, M_bind, mret, M_ret.
    assert (reads_of (file :: rest) (EvReadFile file)) as Hread
      by (exists file; split; [by left | done]).
    destruct (fs w !! file) as [data|] eqn:Hfile.
    2: { eexists (err _), [EvReadFile file]. split_and!; [done | by constructor |].
         intros Hall. apply Forall_cons in Hall as [(d & s & Hd & _) _]. congruence. }
    destruct (composeFileServices data) as [s | e] eqn:Hparse.
    2: { eexists (err _), [EvReadFile file]. split_and!; [done | by constructor |].
         intros Hall. apply Forall_cons in Hall as [(d & s & Hd & Hs) _]. congruence. }
    destruct (IH (services ∪ s) (record (EvReadFile file) w)) as (r & evs & -> & Hevs & Hr).
    exists r, (evs ++ [EvReadFile file]). split_and!.
    + by rewrite <- observe_observe.
    + apply Forall_app. split; [| by constructor].
      eapply Forall_impl; [done |]. intros ev (f & Hf & ->). exists f. split; [by right | done].
    + assert (compose_file_lists w file) as Hfirst by (by exists data, s).
      destruct r as [names | e]; [by constructor |].
      intros Hall. apply Forall_cons in Hall as [_ Hall]. by apply Hr.
Qed.

(** [GenerateConfig], one outcome per way through it. *)
Lemma GenerateConfig_unfold E json cs composeFiles path w :
  ∃ r evs,
    readComposeServices composeFiles ∅ w = (Done r, observe evs w) ∧
    Forall (reads_of composeFiles) evs ∧
    GenerateConfig E json cs composeFiles path w =
    let w1 := observe evs w in
    match r with
    | err e => (Done (Some e), w1)
    | ok composeServices =>
        match buildConfig json (groupByService composeServices cs ∅) with
        | None => (Panicked, w1)
        | Some config =>
            let w2 := record (EvOpenTrunc path) w1 in
            if write_denied E path
            then (Done (Some ("failed to write config file: " +:+ "permission denied")), w2)
            else
              let doc := Doc (Yaml.Marshal config) in
              (Done None,
               set_file path doc (record (EvWriteData path doc) (set_file path empty_file w2)))
        end
    end.
Proof.
  destruct (readComposeServices_result composeFiles ∅ w) as (r & evs & Hrun & Hevs & _).
  exists r, evs. split_and!; [done | done |].
  unfold GenerateConfig. rewrite (bind_Done _ _ _ _ _ Hrun). cbv zeta.
  destruct r as [services | e]; [| done].
  unfold or_panic, os_WriteFile, sys_open_trunc, sys_write, mbind, M_bind, mret, M_ret.
  destruct (buildConfig json (groupByService services cs ∅)) as [config|]; [| done].
  by destruct (write_denied E path).
Qed.

End SynthesizerRuns.

Section ComposeServices.



End ComposeServices.

Section Published.




End Published.

Section SynthesizerCoverage.



(** X8 — what is published for a service: a router with the rule of the
    first listed container of the service and the service's own name, and
    one target for every listed container of the service, in the order of
    the listing and whatever its state, addressed by the first 12 bytes of
    its identifier and the port label of the first container, 80 without
    that label. *)
Theorem published_entry json composeServices cs config name service :
  buildConfig json (groupByService composeServices cs ∅) = Some config →
  Services (HTTP config) !! name = Some service →
  ∃ first rest,
    filter (in_service name) cs = first :: rest ∧
    Routers (HTTP config) !! name
      = Some (mkRouter (label (Labels first)
                          ("traefik.http.routers." +:+ name +:+ ".rule")) name) ∧
    Servers (Service_LoadBalancer service)
      = server_of (server_port name first) <$> first :: rest ∧
    Forall (λ c, long_enough (ID c)) (first :: rest).
Proof.
  intros Hbuild.
  destruct (buildConfig_lookup json _ _ name Hbuild) as [-> ->].
  rewrite groupByService_empty.
  case_decide as Hname; [| done].
  destruct (filter (in_service name) cs) as [|first rest] eqn:Hfilter; [done |].
  cbn [mbind option_bind]. rewrite serviceEntry_cases. cbv zeta.
  destruct (decide (routed name first)) as [Hrouted | Hnot]; [| done].
  destruct (serverList_cases (first :: rest) (server_port name first))
    as [[Hlong ->] | [_ ->]]; [| done].
  cbn [mbind option_bind].
  destruct (extractHealthCheck json (Labels first) name) as [hc|]; [| done].
  simpl. intros [= <-]. by exists first, rest.
Qed.

Lemma published_entry_witness :
  let cs := [Example.api Example.id_a "Host(`a.com`)";
             mkSummary Example.id_c (Example.api_labels "Host(`b.com`)") "exited"] in
  let service := mkService (mkLoadBalancer
                   [mkServer "http://aaaaaaaaaaaa:80"; mkServer "http://cccccccccccc:80"]
                   None) in
  ∃ first rest,
    filter (in_service "api") cs = first :: rest ∧
    Routers (HTTP (Example.routing "Host(`a.com`)"
                     ["http://aaaaaaaaaaaa:80"; "http://cccccccccccc:80"])) !! "api"
      = Some (mkRouter (label (Labels first)
                          ("traefik.http.routers." +:+ "api" +:+ ".rule")) "api") ∧
    Servers (Service_LoadBalancer service)
      = server_of (server_port "api" first) <$> first :: rest ∧
    Forall (λ c, long_enough (ID c)) (first :: rest).
Proof.
  intros cs service.
  apply (published_entry Example.no_json {[ "api" ]} cs
           (Example.routing "Host(`a.com`)"
              ["http://aaaaaaaaaaaa:80"; "http://cccccccccccc:80"]) "api" service).
  - vm_compute. reflexivity.
  - reflexivity.
Defined.

End SynthesizerCoverage.

Section SynthesizerEdges.

Lemma serviceEntry_None json serviceName cs :
  Forall (λ c, no_null_label json (Labels c)) cs →
  serviceEntry json serviceName cs = None ↔
  ∃ first rest, cs = first :: rest ∧ routed serviceName first ∧
    Exists (λ c, (String.length (ID c) < 12)%nat) cs.
Proof.
  intros Hjson. destruct cs as [|first rest].
  { split; [done | by intros (? & ? & ? & _)]. }
  apply Forall_cons in Hjson as [Hjson _].
  rewrite serviceEntry_cases. cbv zeta.
  destruct (decide (routed serviceName first)) as [Hrouted | Hnot].
  2: { split; [done |]. intros (? & ? & [= <- <-] & ? & _). done. }
  destruct (extractHealthCheck_total json (Labels first) serviceName Hjson) as [hc ->].
  destruct (serverList_cases (first :: rest) (server_port serviceName first))
    as [[Hlong ->] | [Hshort ->]]; cbn [mbind option_bind].
  - split; [done |]. intros (? & ? & _ & _ & Hex). exfalso.
    apply Exists_exists in Hex as (c & Hc & Hlen).
    rewrite list.Forall_forall in Hlong. specialize (Hlong c Hc).
    unfold long_enough in Hlong. lia.
  - split; [intros _ | done]. exists first, rest. split_and!; [done | done |].
    eapply Exists_impl; [done |]. unfold long_enough. intros c Hc. simpl in Hc. lia.
Qed.

Lemma Forall_filter_in_service {P : Summary → Prop} name cs :
  Forall P cs → Forall P (filter (in_service name) cs).
Proof.
  rewrite !list.Forall_forall. intros Hall c [_ Hc]%list_elem_of_filter. by apply Hall.
Qed.

(** X9 — when no label value of a listed container decodes to a nil map
    (the JSON [null]), [GenerateConfig] panics exactly when the compose
    files have been read and a service that it would publish has a listed
    container whose identifier is shorter than 12 bytes. *)
Theorem GenerateConfig_panics_on_short_identifier E json cs composeFiles configPath w :
  Forall (λ c, no_null_label json (Labels c)) cs →
  fst (GenerateConfig E json cs composeFiles configPath w) = Panicked ↔
  ∃ composeServices name first rest,
    fst (readComposeServices composeFiles ∅ w) = Done (ok composeServices) ∧
    name ≠ "" ∧ name ∈ composeServices ∧
    filter (in_service name) cs = first :: rest ∧ routed name first ∧
    Exists (λ c, (String.length (ID c) < 12)%nat) (first :: rest).
Proof.
  intros Hjson.
  destruct (GenerateConfig_unfold E json cs composeFiles configPath w)
    as (r & evs & Hread & _ & ->).
  rewrite Hread. cbv zeta. simpl. destruct r as [services | e].
  2: { split; [done | by intros (? & ? & ? & ? & ? & _)]. }
  destruct (buildConfig json (groupByService services cs ∅)) as [config|] eqn:Hbuild.
  - split; [by destruct (write_denied E configPath) |].
    intros (services' & name & first & rest & [= <-] & Hne & Hin & Hfilter & Hrouted & Hex).
    exfalso. assert (buildConfig json (groupByService services cs ∅) = None) as Hbad;
      [| congruence].
    apply buildConfig_None. exists name, (first :: rest). split.
    + by rewrite groupByService_empty, decide_True, Hfilter.
    + apply serviceEntry_None; [| by exists first, rest].
      rewrite <- Hfilter. by apply Forall_filter_in_service.
  - split; [intros _ | done].
    apply buildConfig_None in Hbuild as (name & found & Hfound & Hnone).
    rewrite groupByService_empty in Hfound. case_decide as Hname; [| done].
    assert (filter (in_service name) cs = found) as Hfilter
      by (destruct (filter (in_service name) cs); by simplify_eq).
    apply serviceEntry_None in Hnone as (first & rest & -> & Hrouted & Hex).
    2: { rewrite <- Hfilter. by apply Forall_filter_in_service. }
    exists services, name, first, rest. destruct Hname. by split_and!.
Qed.

Lemma GenerateConfig_panics_on_short_identifier_witness :
  let cs := [Example.api Example.id_a "Host(`a.com`)"; Example.api "c3" "Host(`a.com`)"] in
  let w := Example.world cs (Example.routing "Host(`a.com`)" []) in
  fst (GenerateConfig (Example.quiet []) Example.no_json cs [Example.compose_file]
         Example.conf w) = Panicked.
Proof.
  intros cs w.
  apply (GenerateConfig_panics_on_short_identifier (Example.quiet []) Example.no_json cs
           [Example.compose_file] Example.conf w).
  - repeat apply Forall_cons_2; [| | apply Forall_nil_2]; intros key value _; done.
  - exists {[ "api" ]}, "api", (Example.api Example.id_a "Host(`a.com`)"),
      [Example.api "c3" "Host(`a.com`)"].
    split_and!.
    + vm_compute. reflexivity.
    + done.
    + set_solver.
    + reflexivity.
    + split; [reflexivity | done].
    + apply Exists_cons_tl, Exists_cons_hd. simpl. lia.
Defined.

(** X10 — when a compose file cannot be read or parsed, [GenerateConfig]
    returns an error after reading compose files only: it builds nothing and
    does not open the configuration file. *)
Theorem GenerateConfig_stops_at_bad_compose_file E json cs composeFiles configPath w :
  ¬ Forall (compose_file_lists w) composeFiles →
  ∃ e evs,
    GenerateConfig E json cs composeFiles configPath w = (Done (Some e), observe evs w) ∧
    Forall (reads_of composeFiles) evs.
Proof.
  intros Hbad.
  destruct (readComposeServices_result composeFiles ∅ w) as (r & evs & Hrun & Hevs & Hr).
  destruct r as [services | e]; [done |].
  exists e, evs. split; [| done].
  unfold GenerateConfig. by rewrite (bind_Done _ _ _ _ _ Hrun).
Qed.

Lemma GenerateConfig_stops_at_bad_compose_file_witness :
  let cs := [Example.api Example.id_a "Host(`a.com`)"] in
  let w := Example.world cs (Example.routing "Host(`a.com`)" ["http://aaaaaaaaaaaa:80"]) in
  ∃ e evs,
    GenerateConfig (Example.quiet []) Example.no_json cs
      [Example.compose_file; "missing.yml"] Example.conf w
    = (Done (Some e), observe evs w) ∧
    Forall (reads_of [Example.compose_file; "missing.yml"]) evs.
Proof.
  intros cs w.
  apply (GenerateConfig_stops_at_bad_compose_file (Example.quiet []) Example.no_json cs
           [Example.compose_file; "missing.yml"] Example.conf w).
  intros Hall. apply Forall_cons in Hall as [_ Hall].
  apply Forall_cons in Hall as [(data & services & Hdata & _) _].
  vm_compute in Hdata. discriminate Hdata.
Defined.

Lemma buildConfig_empty json : buildConfig json ∅ = Some emptyConfig.
Proof.
  unfold buildConfig. rewrite decide_True by apply map_Forall_empty.
  by rewrite map_imap_empty, !fmap_empty.
Qed.

(** X11 — when no listed container carries the compose label of a service
    that the compose files declare, as when no compose file is given,
    [GenerateConfig] publishes a configuration without routers and without
    services, whatever is running. *)
Theorem GenerateConfig_publishes_empty_configuration
    E json cs composeFiles configPath w composeServices :
  fst (readComposeServices composeFiles ∅ w) = Done (ok composeServices) →
  Forall (λ c, label (Labels c) "com.docker.compose.service" = "" ∨
               label (Labels c) "com.docker.compose.service" ∉ composeServices) cs →
  write_denied E configPath = false →
  fst (GenerateConfig E json cs composeFiles configPath w) = Done None ∧
  fs (snd (GenerateConfig E json cs composeFiles configPath w)) !! configPath
    = Some (Doc (Yaml.Marshal emptyConfig)).
Proof.
  intros Hread Hnone Hwrite.
  destruct (GenerateConfig_unfold E json cs composeFiles configPath w)
    as (r & evs & Hrun & _ & ->).
  rewrite Hrun in Hread. simpl in Hread. simplify_eq. cbv zeta.
  assert (groupByService composeServices cs ∅ = ∅) as ->.
  { apply map_eq. intros name. rewrite groupByService_empty, lookup_empty.
    case_decide as Hname; [| done].
    assert (filter (in_service name) cs = []) as ->; [| done].
    clear -Hnone Hname. induction Hnone as [|c cs Hc _ IH]; [done |].
    rewrite filter_cons_False; [done |]. unfold in_service. intros <-.
    destruct Hname, Hc; done. }
  rewrite buildConfig_empty, Hwrite. simpl. split; [done |]. apply lookup_insert_eq.
Qed.

Lemma GenerateConfig_publishes_empty_configuration_witness :
  let cs := [Example.api Example.id_a "Host(`a.com`)"] in
  let w := Example.world cs (Example.routing "Host(`a.com`)" ["http://aaaaaaaaaaaa:80"]) in
  fst (GenerateConfig (Example.quiet []) Example.no_json cs [] Example.conf w) = Done None ∧
  fs (snd (GenerateConfig (Example.quiet []) Example.no_json cs [] Example.conf w))
    !! Example.conf
    = Some (Doc (Yaml.Marshal emptyConfig)).
Proof.
  intros cs w.
  apply (GenerateConfig_publishes_empty_configuration (Example.quiet []) Example.no_json cs
           [] Example.conf w ∅).
  - reflexivity.
  - apply Forall_cons. split; [right; set_solver | constructor].
  - reflexivity.
Defined.

End SynthesizerEdges.

Section SynthesizerThenPatcher.

Lemma server_port_safe_parse port c :
  address_safe (short (ID c)) → address_safe port →
  parseTarget (URL (server_of port c)) = Some (short (ID c), port).
Proof. intros [? ?] [? ?]. by apply parseTarget_generated. Qed.

Lemma paired_ids_long_fmap olds news :
  Forall (λ c, long_enough (ID c)) olds → Forall (λ c, long_enough (ID c)) news →
  paired_ids_long (ID <$> olds) (ID <$> news).
Proof.
  intros Holds Hnews. apply paired_ids_long_lookup. intros i o n [Ho Hn].
  rewrite list_lookup_fmap in Ho, Hn.
  destruct (olds !! i) as [c|] eqn:Hc; [| done].
  destruct (news !! i) as [c'|] eqn:Hc'; [| done]. simpl in *. simplify_eq.
  rewrite list.Forall_forall in Holds, Hnews. split.
  - eapply Holds, list_elem_of_lookup_2, Hc.
  - eapply Hnews, list_elem_of_lookup_2, Hc'.
Qed.

(** The patcher maps the targets generated for the old containers to the
    targets generated for the new ones. *)
Lemma updateServer_generated olds news port cm :
  buildContainerMap (ID <$> news) 0 (ID <$> olds) ∅ = Some cm →
  length news = length olds →
  NoDup (short ∘ ID <$> olds) →
  Forall (λ c, address_safe (short (ID c))) olds →
  address_safe port →
  updateServer cm <$> (server_of port <$> olds) = server_of port <$> news.
Proof.
  intros Hcm Hlen Hnodup Hsafe Hport. apply list_eq. intros i.
  rewrite !list_lookup_fmap.
  destruct (olds !! i) as [o|] eqn:Ho.
  2: { apply lookup_ge_None in Ho.
       by rewrite (proj2 (lookup_ge_None news i)) by lia. }
  destruct (lookup_lt_is_Some_2 news i) as [n Hn].
  { apply lookup_lt_Some in Ho. lia. }
  rewrite Hn. simpl. f_equal.
  rewrite updateServer_parseTarget, server_port_safe_parse; [| | done].
  2: { rewrite list.Forall_forall in Hsafe. eapply Hsafe, list_elem_of_lookup_2, Ho. }
  destruct (buildContainerMap_lookup _ _ (short (ID o)) _ _ _ Hcm)
    as [[_ Hno] | (j & oldID & newID & Hj & Hj' & Hs & ->)].
  - exfalso. apply (Hno i (ID o)).
    + by rewrite list_lookup_fmap, Ho.
    + simpl. rewrite list_lookup_fmap, Hn. by eexists.
    + done.
  - simpl in Hj'. rewrite list_lookup_fmap in Hj, Hj'.
    destruct (olds !! j) as [o'|] eqn:Ho'; [| done]. simpl in Hj. simplify_eq.
    assert (j = i) as ->.
    { eapply NoDup_lookup; [exact Hnodup | |].
      - rewrite list_lookup_fmap, Ho'. simpl. by rewrite Hs.
      - by rewrite list_lookup_fmap, Ho. }
    rewrite Hn in Hj'. simpl in Hj'. by simplify_eq.
Qed.

(** The entry built for the new containers is the entry built for the old
    ones, patched. *)
Lemma serviceEntry_patched json name (first : Summary) (rest : list Summary)
    (first' : Summary) (rest' : list Summary) (cm : gmap string string) :
  let olds := first :: rest in
  let news := first' :: rest' in
  is_Some (serviceEntry json name olds) →
  same_routing_labels json name first first' →
  length news = length olds →
  Forall (λ c, long_enough (ID c)) news →
  NoDup (short ∘ ID <$> olds) →
  Forall (λ c, address_safe (short (ID c))) olds →
  address_safe (server_port name first) →
  buildContainerMap (ID <$> news) 0 (ID <$> olds) ∅ = Some cm →
  serviceEntry json name news
  = (λ entry : option (Router * Service),
       (λ p : Router * Service, (p.1, updateService cm p.2)) <$> entry)
    <$> serviceEntry json name olds.
Proof.
  intros olds news Hsome (Henable & Hrule & Hport & Hcheck) Hlen Hnews Hnodup Hsafe
    Hsafeport Hcm.
  unfold olds, news in *. rewrite !serviceEntry_cases in *. cbv zeta in *.
  assert (server_port name first' = server_port name first) as Hp
    by (unfold server_port; by rewrite Hport).
  destruct (decide (routed name first)) as [[He Hr] | Hnot].
  2: { rewrite decide_False; [done |]. intros [? ?]. apply Hnot. split; congruence. }
  rewrite decide_True by (split; congruence).
  destruct (serverList_cases (first :: rest) (server_port name first))
    as [[Holds Hservers] | [_ Hservers]]; rewrite Hservers in Hsome |- *;
    [| by destruct Hsome].
  cbn [mbind option_bind] in Hsome |- *.
  rewrite Hp, (serverList_Some _ _ Hnews). cbn [mbind option_bind]. rewrite Hcheck.
  destruct (extractHealthCheck json (Labels first) name) as [hc|]; [| by destruct Hsome].
  cbn [mbind option_bind fmap option_fmap option_map fst snd].
  rewrite Hrule. do 3 f_equal. unfold updateService.
  cbn [Servers Service_LoadBalancer LB_HealthCheck]. do 3 f_equal.
  symmetry. by apply (updateServer_generated (first :: rest) (first' :: rest')).
Qed.

(** X12 — the patcher agrees with the synthesizer: when
    [GenerateConfig] builds an entry for the old containers of a service,
    the new containers are as many as the old ones, carry the same routing
    labels and have identifiers of at least 12 bytes, the first 12 bytes of
    the old identifiers differ from one another, and neither they nor the
    port of the service hold a slash or a colon, then patching the entry
    built for the old containers gives the entry that [GenerateConfig]
    builds for the new ones. *)
Theorem patcher_follows_synthesizer json name first rest first' rest' router service :
  let olds := first :: rest in
  let news := first' :: rest' in
  serviceEntry json name olds = Some (Some (router, service)) →
  same_routing_labels json name first first' →
  length news = length olds →
  Forall (λ c, long_enough (ID c)) news →
  NoDup (short ∘ ID <$> olds) →
  Forall (λ c, address_safe (short (ID c))) olds →
  address_safe (server_port name first) →
  ∃ cm,
    buildContainerMap (ID <$> news) 0 (ID <$> olds) ∅ = Some cm ∧
    serviceEntry json name news = Some (Some (router, updateService cm service)).
Proof.
  intros olds news Hentry Hlabels Hlen Hnews Hnodup Hsafe Hsafeport.
  assert (Forall (λ c, long_enough (ID c)) olds) as Holds.
  { unfold olds in *. rewrite serviceEntry_cases in Hentry. cbv zeta in Hentry.
    destruct (decide (routed name first)); [| done].
    destruct (serverList_cases (first :: rest) (server_port name first))
      as [[? _] | [_ Hservers]]; [done |]. by rewrite Hservers in Hentry. }
  destruct (proj2 (buildContainerMap_total (ID <$> olds) (ID <$> news))
              (paired_ids_long_fmap olds news Holds Hnews)) as [cm Hcm].
  exists cm. split; [done |].
  unfold news. rewrite (serviceEntry_patched json name first rest first' rest' cm);
    try done.
  all: fold olds; by rewrite Hentry.
Qed.

Lemma patcher_follows_synthesizer_witness :
  let first := Example.api Example.id_a "Host(`a.com`)" in
  let rest := [Example.api Example.id_b "Host(`a.com`)"] in
  let first' := Example.api Example.id_c "Host(`a.com`)" in
  let rest' := [Example.api Example.id_d "Host(`a.com`)"] in
  let service := mkService (mkLoadBalancer
                   [mkServer "http://aaaaaaaaaaaa:80"; mkServer "http://bbbbbbbbbbbb:80"]
                   None) in
  ∃ cm,
    buildContainerMap (ID <$> first' :: rest') 0 (ID <$> first :: rest) ∅ = Some cm ∧
    serviceEntry Example.no_json "api" (first' :: rest')
    = Some (Some (mkRouter "Host(`a.com`)" "api", updateService cm service)).
Proof.
  intros first rest first' rest' service.
  apply (patcher_follows_synthesizer Example.no_json "api" first rest first' rest'
           (mkRouter "Host(`a.com`)" "api") service).
  - vm_compute. reflexivity.
  - by split_and!.
  - reflexivity.
  - repeat constructor; vm_compute; lia.
  - vm_compute. repeat constructor; set_solver.
  - repeat constructor; reflexivity.
  - split; reflexivity.
Defined.

End SynthesizerThenPatcher.

(** ** The synthesizer: headers of a health check *)

Section Headers.

Variable json : string → option (option (gmap string string)).

Lemma substring_all s : String.substring 0 (String.length s) s = s.
Proof. induction s as [|c s IH]; [done |]. simpl. by rewrite IH. Qed.

Lemma TrimPrefix_app p s : Go.TrimPrefix (p +:+ s) p = s.
Proof.
  unfold Go.TrimPrefix. rewrite HasPrefix_app.
  induction p as [|c p IH].
  - rewrite app_nil. simpl. rewrite Nat.sub_0_r. apply substring_all.
  - rewrite app_cons. simpl. apply IH.
Qed.

Lemma HasPrefix_split key p :
  Go.HasPrefix key p = true → key = p +:+ Go.TrimPrefix key p.
Proof.
  intros Hp. unfold Go.TrimPrefix. rewrite Hp. unfold Go.HasPrefix in Hp.
  revert key Hp. induction p as [|c p IH]; intros key Hp.
  - rewrite app_nil. simpl. rewrite Nat.sub_0_r. by rewrite substring_all.
  - destruct key as [|k key]; [done |]. simpl in Hp.
    destruct (ascii_dec c k) as [-> |]; [| done].
    rewrite app_cons. simpl. f_equal. by apply IH.
Qed.

Lemma string_app_inj p a b : p +:+ a = p +:+ b → a = b.
Proof.
  induction p as [|c p IH]; [by rewrite !app_nil |].
  rewrite !app_cons. intros [= ?]. by apply IH.
Qed.

Lemma string_app_assoc a b c : (a +:+ b) +:+ c = a +:+ (b +:+ c).
Proof. induction a as [|x a IH]; [done |]. rewrite !app_cons. by rewrite IH. Qed.

Lemma headers_key_not_json prefix name : prefix +:+ ".headers." +:+ name ≠ prefix +:+ ".headers".
Proof.
  intros Heq. apply string_app_inj in Heq. discriminate Heq.
Qed.

(** The headers loop when the labels hold no JSON form of the headers. *)
Lemma extractHeaders_individual labels prefix : ∀ headers,
  NoDup labels.*1 →
  (∀ value, (prefix +:+ ".headers", value) ∉ labels) →
  ∃ headers',
    extractHeaders json labels prefix (Some headers) = Some (Some headers') ∧
    ∀ name value,
      headers' !! name = Some value ↔
      (prefix +:+ ".headers." +:+ name, value) ∈ labels ∨
      (headers !! name = Some value ∧ prefix +:+ ".headers." +:+ name ∉ labels.*1).
Proof.
  induction labels as [|[key v] rest IH]; intros headers Hnodup Hjson.
  - exists headers. split; [done |]. intros name value. split.
    + intros ?. right. split; [done | apply not_elem_of_nil].
    + intros [?%elem_of_nil | [? _]]; done.
  - rewrite fmap_cons in Hnodup. apply NoDup_cons in Hnodup as [Hkey Hnodup].
    assert (∀ value, (prefix +:+ ".headers", value) ∉ rest) as Hjson'.
    { intros value Hin. apply (Hjson value). by right. }
    cbn [extractHeaders].
    rewrite decide_False by (intros ->; apply (Hjson v); by left).
    destruct (Go.HasPrefix key (prefix +:+ ".headers.")) eqn:Hp.
    + destruct (IH (<[Go.TrimPrefix key (prefix +:+ ".headers.") := v]> headers)
                  Hnodup Hjson') as (h & -> & Hh).
      exists h. split; [done |]. intros name value. rewrite Hh. clear Hh.
      apply HasPrefix_split in Hp. rewrite string_app_assoc in Hp.
      rewrite elem_of_cons, fmap_cons, not_elem_of_cons.
      destruct (decide (name = Go.TrimPrefix key (prefix +:+ ".headers."))) as [-> | Hne].
      * rewrite <- Hp, lookup_insert_eq. split.
        -- intros [Hin | [[= ->] _]]; [| by left; left].
           exfalso. apply Hkey. apply list_elem_of_fmap. by exists (key, value).
        -- intros [[[= ->] | Hin] | [_ [? _]]]; [by right | | done].
           exfalso. apply Hkey. apply list_elem_of_fmap. by exists (key, value).
      * rewrite lookup_insert_ne by done.
        assert (prefix +:+ ".headers." +:+ name ≠ key) as Hk.
        { rewrite Hp. intros Heq. apply string_app_inj, string_app_inj in Heq. done. }
        split.
        -- intros [? | [? ?]]; [by left; right | by right].
        -- intros [[[= ? ?] | ?] | [? [_ ?]]]; [done | by left | by right].
    + destruct (IH headers Hnodup Hjson') as (h & -> & Hh).
      exists h. split; [done |]. intros name value. rewrite Hh. clear Hh.
      assert (prefix +:+ ".headers." +:+ name ≠ key) as Hk.
      { intros <-. by rewrite <- string_app_assoc, HasPrefix_app in Hp. }
      rewrite elem_of_cons, fmap_cons, not_elem_of_cons. split.
      * intros [? | [? ?]]; [by left; right | by right].
      * intros [[[= ? ?] | ?] | [? [_ ?]]]; [done | by left | by right].
Qed.

End Headers.

Section SynthesizerClaims.



End SynthesizerClaims.

Section HeaderCoverage.

(** X13 — when no label gives the headers in the JSON form,
    [extractHealthCheck] does not panic; it returns a health check exactly
    when some label key starts with the health-check prefix of the service,
    so whenever a label gives a header; and the headers of the health check
    it returns are those of the labels under [.headers.], each under the
    name that follows that prefix, in whatever order the labels are
    visited. *)
Theorem headers_from_individual_labels json labels serviceName :
  let prefix := healthCheckPrefix serviceName in
  NoDup labels.*1 →
  (∀ value, (prefix +:+ ".headers", value) ∉ labels) →
  ∃ extracted,
    extractHealthCheck json labels serviceName = Some extracted ∧
    (is_Some extracted ↔ ∃ suffix value, (prefix +:+ suffix, value) ∈ labels) ∧
    (∀ name value,
       (prefix +:+ ".headers." +:+ name, value) ∈ labels →
       ∃ healthCheck,
         extracted = Some healthCheck ∧ Headers healthCheck !! name = Some value) ∧
    ∀ healthCheck, extracted = Some healthCheck →
      ∀ name value,
        Headers healthCheck !! name = Some value ↔
        (prefix +:+ ".headers." +:+ name, value) ∈ labels.
Proof.
  intros prefix Hnodup Hjson.
  assert (hasConfig labels prefix = true ↔ ∃ suffix value, (prefix +:+ suffix, value) ∈ labels)
    as Hconfig.
  { clear. induction labels as [|[key v] rest IH]; simpl.
    - split; [done | by intros (? & ? & ?%elem_of_nil)].
    - destruct (Go.HasPrefix key prefix) eqn:Hp.
      + split; [intros _ | done]. apply HasPrefix_split in Hp.
        exists (Go.TrimPrefix key prefix), v. rewrite <- Hp. by left.
      + rewrite IH. split.
        * intros (s & value & Hin). exists s, value. by right.
        * intros (s & value & [[= <- <-] | Hin]%elem_of_cons); [| by eauto].
          by rewrite HasPrefix_app in Hp. }
  unfold extractHealthCheck. fold prefix.
  destruct (hasConfig labels prefix) eqn:Hc; cbn [negb].
  - destruct (extractHeaders_individual json labels prefix ∅ Hnodup Hjson) as (h & -> & Hh).
    eexists. split; [done |]. cbn [mbind option_bind].
    assert (∀ name value,
              h !! name = Some value ↔ (prefix +:+ ".headers." +:+ name, value) ∈ labels)
      as Hheaders.
    { intros name value. rewrite Hh, lookup_empty.
      split; [intros [? | [? _]]; done | by left]. }
    split_and!.
    + split; [intros _; by apply Hconfig | by eexists].
    + intros name value Hin. eexists. split; [done |]. simpl. by apply Hheaders.
    + intros hc [= <-]. simpl. apply Hheaders.
  - exists None. split; [done |]. split_and!.
    + split; [by intros [? ?] |]. intros Hin%Hconfig. congruence.
    + intros name value Hin.
      assert (false = true) as Hbad; [| done]. apply Hconfig.
      by exists (".headers." +:+ name), value.
    + done.
Qed.

Lemma headers_from_individual_labels_witness :
  let labels :=
    [("traefik.http.services.api.loadbalancer.healthCheck.headers.X-Probe", "1");
     ("traefik.http.services.api.loadbalancer.healthCheck.path", "/health");
     ("traefik.http.services.api.loadbalancer.healthCheck.headers.Host", "a.com")] in
  let prefix := healthCheckPrefix "api" in
  ∃ extracted,
    extractHealthCheck Example.no_json labels "api" = Some extracted ∧
    (is_Some extracted ↔ ∃ suffix value, (prefix +:+ suffix, value) ∈ labels) ∧
    (∀ name value,
       (prefix +:+ ".headers." +:+ name, value) ∈ labels →
       ∃ healthCheck,
         extracted = Some healthCheck ∧ Headers healthCheck !! name = Some value) ∧
    ∀ healthCheck, extracted = Some healthCheck →
      ∀ name value,
        Headers healthCheck !! name = Some value ↔
        (prefix +:+ ".headers." +:+ name, value) ∈ labels.
Proof.
  intros labels prefix.
  apply (headers_from_individual_labels Example.no_json labels "api").
  - vm_compute. repeat constructor; set_solver.
  - intros value. unfold labels. rewrite !not_elem_of_cons.
    split_and!; [done | done | done | apply not_elem_of_nil].
Defined.

End HeaderCoverage.

(** ** The hand-over *)

Section HandOver.

Variable E : Env.

Lemma StopAndRemoveContainers_quiet containerIDs : ∀ w,
  daemon_answers E → fst (StopAndRemoveContainers E containerIDs w) = Done None.
Proof.
  intros w Hquiet. revert w.
  induction containerIDs as [|id ids IH]; intros w; cbn [StopAndRemoveContainers]; [done |].
  unfold mbind, M_bind, ContainerStop at 1. rewrite Hquiet.
  unfold ContainerRemove at 1. rewrite Hquiet. apply IH.
Qed.

Lemma UpdateConfig_frame oldIds newIds path w :
  containers (snd (UpdateConfig E oldIds newIds path w)) = containers w ∧
  clock (snd (UpdateConfig E oldIds newIds path w)) = clock w.
Proof.
  rewrite UpdateConfig_unfold. cbv zeta. by repeat case_match.
Qed.

(** The switch-over when no call fails and the patcher does not panic. *)
Lemma switchOver_run config oldContainers newContainers w e w1 :
  daemon_answers E →
  UpdateConfig E oldContainers newContainers (TraefikConfFile config) w = (Done e, w1) →
  ∃ w',
    let earlier :=
      ((if decide (0 < WaitAfterHealthyDelay config)%Z
        then [EvSleep (WaitAfterHealthyDelay config)] else [])
       ++ match e with
          | Some msg => [EvLog "warning" ("Failed to update Traefik configuration: " +:+ msg)]
          | None => []
          end)%list in
    switchOver E config oldContainers newContainers w = (Done tt, w') ∧
    containers w' = filter (λ c, ID c ∉ oldContainers) (containers w) ∧
    fs w' = fs w1 ∧
    clock w' = (clock w + hand_over_delay config)%Z ∧
    events w' = rev (cleanup_calls oldContainers)
                  ++ EvSleep (NoHealthcheckTimeout config) :: earlier ++ events w1.
Proof.
  intros Hquiet Hupd.
  destruct (UpdateConfig_frame oldContainers newContainers (TraefikConfFile config) w)
    as [Hcs Hclock].
  rewrite Hupd in Hcs, Hclock. simpl in Hcs, Hclock.
  unfold switchOver. rewrite (bind_Done _ _ _ _ _ Hupd).
  set (warn := match e with
               | Some e => log_Warnf ("Failed to update Traefik configuration: " +:+ e)
               | None => mret tt
               end).
  set (warned := match e with
                 | Some e => [EvLog "warning" ("Failed to update Traefik configuration: " +:+ e)]
                 | None => []
                 end).
  assert (warn w1 = (Done tt, observe warned w1)) as Hw2.
  { unfold warn, warned. destruct e; [done |]. by rewrite observe_nil. }
  rewrite (bind_Done _ _ _ _ _ Hw2).
  set (settle := if decide (0 < WaitAfterHealthyDelay config)%Z
                 then time_Sleep (WaitAfterHealthyDelay config) else mret tt).
  set (delay := if decide (0 < WaitAfterHealthyDelay config)%Z
                then WaitAfterHealthyDelay config else 0%Z).
  set (settled := if decide (0 < WaitAfterHealthyDelay config)%Z
                  then [EvSleep (WaitAfterHealthyDelay config)] else []).
  assert (settle (observe warned w1)
          = (Done tt, set_clock (clock w1 + delay) (observe (settled ++ warned) w1))) as Hw3.
  { unfold settle, delay, settled, time_Sleep. case_decide.
    - unfold set_clock, record, observe. simpl. do 2 f_equal. lia.
    - unfold mret, M_ret, set_clock, observe. simpl. destruct w1. simpl. do 2 f_equal. lia. }
  rewrite (bind_Done _ _ _ _ _ Hw3).
  rewrite (bind_Done (time_Sleep (NoHealthcheckTimeout config)) _ _ tt _ eq_refl).
  set (w4 := set_clock _ _).
  destruct (StopAndRemoveContainers_spec E oldContainers w4)
    as (e' & calls & w' & Hrun & Hev & _ & Hc & Hfs & _ & _ & Hok).
  pose proof (StopAndRemoveContainers_quiet oldContainers w4 Hquiet) as Hnone.
  rewrite Hrun in Hnone. simpl in Hnone. simplify_eq.
  destruct (Hok eq_refl) as [-> Hcont].
  rewrite (bind_Done _ _ _ _ _ Hrun).
  exists w'. cbv zeta. fold settled warned. split_and!.
  - done.
  - rewrite Hcont. simpl. by rewrite Hcs.
  - by rewrite Hfs.
  - rewrite Hc. unfold hand_over_delay. fold delay. simpl. lia.
  - by rewrite Hev.
Qed.

(** The gate succeeds at the first tick at which every container is
    healthy, when no inspection fails. *)
Lemma WaitForHealthyContainers_success containerIDs timeout w (k : nat) :
  daemon_answers E →
  (Z.of_nat k * Go.Second < timeout)%Z →
  all_healthy E containerIDs (clock w + Z.of_nat k * Go.Second) →
  ∃ (k0 : nat) evs,
    (k0 ≤ k)%nat ∧
    WaitForHealthyContainers E containerIDs timeout w
      = (Done None, set_clock (clock w + Z.of_nat k0 * Go.Second) (observe evs w)) ∧
    Forall (gate_event containerIDs) evs.
Proof.
  intros Hquiet Hk Hall.
  destruct (WaitForHealthyContainers_spec E containerIDs timeout w)
    as (e & k0 & evs & Hrun & Hevs & Hpolls & Hv).
  assert (k0 ≤ k)%nat as Hle.
  { destruct (decide (k0 ≤ k)%nat) as [? | Hgt]; [done |]. exfalso.
    destruct (Hpolls k) as [_ (id & Hid & Hbad)]; [lia |].
    unfold all_healthy in Hall. rewrite list.Forall_forall in Hall.
    specialize (Hall id Hid). congruence. }
  exists k0, evs. split_and!; [done | | done].
  destruct e as [msg|]; [| done]. exfalso. simpl in Hv.
  destruct Hv as [[_ Hd] | [_ (m & i & _ & Hi)]].
  - unfold Go.Second in *. nia.
  - by rewrite Hquiet in Hi.
Qed.

End HandOver.

Section HealthGateCoverage.

(** X14 — with a health-check timeout of zero or less the gate returns
    the timeout error at once, without inspecting a container and whatever
    the containers report, so [main] rolls back: it logs the rollback and
    exits with code 1. *)
Theorem gate_without_time_rolls_back E config oldContainers newContainers w :
  (HealthcheckTimeout config ≤ 0)%Z →
  WaitForHealthyContainers E newContainers (HealthcheckTimeout config) w
    = (Done (Some timeout_error), w) ∧
  fst (finishUpdate E config oldContainers newContainers w) = Exited 1 ∧
  rollback_logged (snd (finishUpdate E config oldContainers newContainers w)).
Proof.
  intros Htimeout.
  assert (WaitForHealthyContainers E newContainers (HealthcheckTimeout config) w
          = (Done (Some timeout_error), w)) as Hgate.
  { unfold WaitForHealthyContainers, polls. cbn [waitLoop].
    unfold mbind, M_bind, time_Now. by rewrite decide_False by lia. }
  split; [done |]. unfold finishUpdate. rewrite (bind_Done _ _ _ _ _ Hgate).
  destruct (rollBack_spec E newContainers w) as (calls & failure & w' & -> & Hev & _).
  split; [done |]. unfold rollback_logged. simpl. rewrite Hev.
  rewrite !elem_of_app, elem_of_cons. auto.
Qed.

Lemma gate_without_time_rolls_back_witness :
  let E := Example.quiet [] in
  let config := mkConfig 0 (10 * Go.Second) 0 Example.conf "traefik"
                  [Example.compose_file] [] "api" false in
  let w := Example.world [Example.api Example.id_a "Host(`a.com`)";
                          Example.api Example.id_c "Host(`a.com`)"]
             (Example.routing "Host(`a.com`)" ["http://aaaaaaaaaaaa:80"]) in
  WaitForHealthyContainers E [Example.id_c] (HealthcheckTimeout config) w
    = (Done (Some timeout_error), w) ∧
  fst (finishUpdate E config [Example.id_a] [Example.id_c] w) = Exited 1 ∧
  rollback_logged (snd (finishUpdate E config [Example.id_a] [Example.id_c] w)).
Proof.
  intros E config w.
  apply (gate_without_time_rolls_back E config [Example.id_a] [Example.id_c] w).
  simpl. lia.
Defined.

(** X15 — the gate always returns, with success or with an error, and in
    time: the clock does not go back and advances by less than the timeout
    plus one second; the gate changes neither the container inventory nor
    the file system. *)
Theorem gate_returns_in_time E containerIDs timeout w :
  ∃ e w',
    WaitForHealthyContainers E containerIDs timeout w = (Done e, w') ∧
    (clock w ≤ clock w')%Z ∧
    (clock w' < clock w + Z.max 0 timeout + Go.Second)%Z ∧
    containers w' = containers w ∧ fs w' = fs w ∧ fs_history w' = fs_history w.
Proof.
  destruct (WaitForHealthyContainers_spec E containerIDs timeout w)
    as (e & k & evs & -> & _ & Hpolls & _).
  eexists _, _. split; [done |]. simpl. split_and!; try done.
  - unfold Go.Second. lia.
  - destruct k as [|k]; [unfold Go.Second; lia |].
    destruct (Hpolls k) as [Hk _]; [lia |]. unfold Go.Second in *. lia.
Qed.

End HealthGateCoverage.

Section OrchestratorCoverage.

Lemma UpdateConfig_returns E oldIds newIds path w :
  paired_ids_long oldIds newIds →
  ∃ e w1, UpdateConfig E oldIds newIds path w = (Done e, w1).
Proof.
  intros [cm Hcm]%buildContainerMap_total. rewrite UpdateConfig_unfold. cbv zeta.
  rewrite Hcm. repeat case_match; by eexists _, _.
Qed.

Lemma elem_of_serviceContainerIDs service cs id :
  id ∈ serviceContainerIDs service cs ↔
  ∃ c, c ∈ cs ∧ ID c = id ∧ label (Labels c) "com.docker.compose.service" = service.
Proof.
  induction cs as [|c cs IH]; cbn [serviceContainerIDs].
  - split; [by intros ?%elem_of_nil | by intros (? & ?%elem_of_nil & _)].
  - case_decide as Hc.
    + rewrite elem_of_cons, IH. split.
      * intros [-> | (c' & Hin & Hid & Hl)]; [exists c | exists c'];
          (split; [by constructor | done]).
      * intros (c' & [-> | Hin]%elem_of_cons & Hid & Hl); [by left | right; by exists c'].
    + rewrite IH. split.
      * intros (c' & Hin & Hid & Hl). exists c'. split; [by right | done].
      * intros (c' & [-> | Hin]%elem_of_cons & Hid & Hl); [done | by exists c'].
Qed.

(** The rolling update when no call fails and the new containers get
    healthy in time. *)
Lemma main_hand_over E config w (k : nat) :
  let service := Config_Service config in
  let pre := serviceContainerIDs service (containers w) in
  let scaledContainers := scaled E service (Z.of_nat (length pre) * 2) (containers w) in
  let new := filteredNewContainers pre (serviceContainerIDs service scaledContainers) in
  service ≠ "up" → service ≠ "up -d" → pre ≠ [] →
  daemon_answers E →
  paired_ids_long pre new →
  (Z.of_nat k * Go.Second < HealthcheckTimeout config)%Z →
  all_healthy E new (clock w + Z.of_nat k * Go.Second) →
  ∃ (k0 : nat) w' earlier,
    (k0 ≤ k)%nat ∧
    main E config w = (Done tt, w') ∧
    containers w' = filter (λ c, ID c ∉ pre) scaledContainers ∧
    clock w' = (clock w + Z.of_nat k0 * Go.Second + hand_over_delay config)%Z ∧
    events w' = rev (cleanup_calls pre)
                  ++ EvSleep (NoHealthcheckTimeout config) :: earlier.
Proof.
  intros service pre scaledContainers new Hup Hupd Hpre Hquiet Hlong Hk Hall.
  rewrite main_scaling by (try done; apply Hquiet). cbv zeta.
  fold service pre scaledContainers. cbn [containers record set_containers]. fold new.
  set (w4 := record EvContainerList _).
  destruct (WaitForHealthyContainers_success E new (HealthcheckTimeout config) w4 k
              Hquiet Hk Hall) as (k0 & evs & Hle & Hgate & _).
  unfold finishUpdate. rewrite (bind_Done _ _ _ _ _ Hgate).
  set (w5 := set_clock _ _).
  destruct (UpdateConfig_returns E pre new (TraefikConfFile config) w5 Hlong)
    as (e & w6 & Hpatch).
  destruct (switchOver_run E config pre new w5 e w6 Hquiet Hpatch)
    as (w' & Hrun & Hcs & _ & Hclock & Hev).
  eexists k0, w', _. split_and!; [done | done | by rewrite Hcs | by rewrite Hclock | done].
Qed.

(** X16 — a rolling update in which no call fails, the identifiers have
    at least 12 bytes and the new containers are all healthy at some tick
    before the timeout returns normally; it has removed exactly the
    containers that the service had before, has left every other container
    of the scaled inventory in place, and has stopped the first old
    container only after the settling delay and the wait have passed. *)
Theorem rolling_update_replaces_old_containers E config w (k : nat) :
  let service := Config_Service config in
  let pre := serviceContainerIDs service (containers w) in
  let scaledContainers := scaled E service (Z.of_nat (length pre) * 2) (containers w) in
  let new := filteredNewContainers pre (serviceContainerIDs service scaledContainers) in
  service ≠ "up" → service ≠ "up -d" → pre ≠ [] →
  daemon_answers E →
  paired_ids_long pre new →
  (Z.of_nat k * Go.Second < HealthcheckTimeout config)%Z →
  all_healthy E new (clock w + Z.of_nat k * Go.Second) →
  fst (main E config w) = Done tt ∧
  containers (snd (main E config w)) = filter (λ c, ID c ∉ pre) scaledContainers ∧
  (∃ k0 : nat, (k0 ≤ k)%nat ∧
     clock (snd (main E config w))
     = (clock w + Z.of_nat k0 * Go.Second + hand_over_delay config)%Z) ∧
  ∃ earlier,
    events (snd (main E config w))
    = rev (cleanup_calls pre) ++ EvSleep (NoHealthcheckTimeout config) :: earlier.
Proof.
  intros service pre scaledContainers new Hup Hupd Hpre Hquiet Hlong Hk Hall.
  destruct (main_hand_over E config w k Hup Hupd Hpre Hquiet Hlong Hk Hall)
    as (k0 & w' & earlier & Hle & -> & Hcs & Hclock & Hev).
  simpl. split_and!; [done | done | by exists k0 | by exists earlier].
Qed.

Lemma rolling_update_replaces_old_containers_witness :
  let E := Example.quiet [Example.api Example.id_c "Host(`a.com`)"] in
  let w := Example.world [Example.api Example.id_a "Host(`a.com`)"]
             (Example.routing "Host(`a.com`)" ["http://aaaaaaaaaaaa:80"]) in
  let config := Example.config "api" in
  fst (main E config w) = Done tt ∧
  containers (snd (main E config w))
  = filter (λ c, ID c ∉ [Example.id_a])
      [Example.api Example.id_a "Host(`a.com`)"; Example.api Example.id_c "Host(`a.com`)"] ∧
  (∃ k0 : nat, (k0 ≤ 0)%nat ∧
     clock (snd (main E config w))
     = (clock w + Z.of_nat k0 * Go.Second + hand_over_delay config)%Z) ∧
  ∃ earlier,
    events (snd (main E config w))
    = rev (cleanup_calls [Example.id_a]) ++ EvSleep (NoHealthcheckTimeout config) :: earlier.
Proof.
  intros E w config.
  apply (rolling_update_replaces_old_containers E config w 0).
  - done.
  - done.
  - done.
  - intros i. reflexivity.
  - vm_compute. repeat constructor.
  - reflexivity.
  - by repeat constructor.
Defined.

(** X17 — when the patcher cannot read or parse the configuration file,
    [main] logs a warning and goes on: with no call failing it stops and
    removes the old containers all the same, and leaves the file system as
    it was. *)
Theorem cleanup_despite_patcher_error E config oldContainers newContainers w :
  daemon_answers E →
  fs w !! TraefikConfFile config = None ∨
  (∃ data msg, fs w !! TraefikConfFile config = Some data ∧ yaml_Unmarshal data = err msg) →
  ∃ msg w',
    switchOver E config oldContainers newContainers w = (Done tt, w') ∧
    EvLog "warning" ("Failed to update Traefik configuration: " +:+ msg) ∈ events w' ∧
    fs w' = fs w ∧
    containers w' = filter (λ c, ID c ∉ oldContainers) (containers w).
Proof.
  intros Hquiet Hfile.
  assert (∃ msg, UpdateConfig E oldContainers newContainers (TraefikConfFile config) w
                 = (Done (Some msg), record (EvReadFile (TraefikConfFile config)) w))
    as [msg Hpatch].
  { rewrite UpdateConfig_unfold. cbv zeta.
    destruct Hfile as [-> | (data & e & -> & ->)]; by eexists. }
  destruct (switchOver_run E config oldContainers newContainers w _ _ Hquiet Hpatch)
    as (w' & Hrun & Hcs & Hfs & _ & Hev).
  exists msg, w'. split_and!; [done | | done | done].
  rewrite Hev. rewrite elem_of_app. right. apply elem_of_cons. right.
  rewrite !elem_of_app. left. right. by left.
Qed.

Lemma cleanup_despite_patcher_error_witness :
  let E := Example.quiet [] in
  let config := Example.config "api" in
  let w := mkWorld [Example.api Example.id_a "Host(`a.com`)";
                    Example.api Example.id_c "Host(`a.com`)"] 0 ∅ [] [] in
  ∃ msg w',
    switchOver E config [Example.id_a] [Example.id_c] w = (Done tt, w') ∧
    EvLog "warning" ("Failed to update Traefik configuration: " +:+ msg) ∈ events w' ∧
    fs w' = fs w ∧
    containers w' = filter (λ c, ID c ∉ [Example.id_a]) (containers w).
Proof.
  intros E config w.
  apply (cleanup_despite_patcher_error E config [Example.id_a] [Example.id_c] w).
  - intros i. reflexivity.
  - left. reflexivity.
Defined.

(** X18 — [main] does not check that scaling has added containers: when
    the health-check timeout is positive, the service has the same
    containers after scaling as before, and no call fails, the gate has
    nothing to wait for, and [main] removes them all and returns normally,
    leaving the service without a container. *)
Theorem update_without_new_containers E config w :
  let service := Config_Service config in
  let pre := serviceContainerIDs service (containers w) in
  let scaledContainers := scaled E service (Z.of_nat (length pre) * 2) (containers w) in
  service ≠ "up" → service ≠ "up -d" → pre ≠ [] →
  daemon_answers E →
  (0 < HealthcheckTimeout config)%Z →
  serviceContainerIDs service scaledContainers ⊆ pre →
  fst (main E config w) = Done tt ∧
  serviceContainerIDs service (containers (snd (main E config w))) = [].
Proof.
  intros service pre scaledContainers Hup Hupd Hpre Hquiet Htimeout Hsame.
  assert (filteredNewContainers pre (serviceContainerIDs service scaledContainers) = [])
    as Hnew.
  { apply elem_of_nil_inv. intros id Hid.
    apply elem_of_filteredNewContainers in Hid as [Hin Hnot]. by apply Hnot, Hsame. }
  destruct (main_hand_over E config w 0 Hup Hupd Hpre Hquiet) as
    (k0 & w' & earlier & _ & -> & Hcs & _).
  - fold service pre scaledContainers. rewrite Hnew.
    apply paired_ids_long_lookup. intros i o n [_ Hn]. by rewrite lookup_nil in Hn.
  - simpl. lia.
  - fold service pre scaledContainers. rewrite Hnew. constructor.
  - simpl. split; [done |]. rewrite Hcs. fold service pre scaledContainers.
    apply elem_of_nil_inv. intros id Hid.
    apply elem_of_serviceContainerIDs in Hid as (c & Hc & Hid & Hl).
    apply list_elem_of_filter in Hc as [Hnot Hc]. apply Hnot. rewrite Hid.
    apply Hsame. apply elem_of_serviceContainerIDs. by exists c.
Qed.

Lemma update_without_new_containers_witness :
  let E := Example.quiet [] in
  let w := Example.world [Example.api Example.id_a "Host(`a.com`)"]
             (Example.routing "Host(`a.com`)" ["http://aaaaaaaaaaaa:80"]) in
  fst (main E (Example.config "api") w) = Done tt ∧
  serviceContainerIDs "api" (containers (snd (main E (Example.config "api") w))) = [].
Proof.
  intros E w.
  apply (update_without_new_containers E (Example.config "api") w).
  - done.
  - done.
  - done.
  - intros i. reflexivity.
  - reflexivity.
  - vm_compute. set_solver.
Defined.

End OrchestratorCoverage.

Section RollbackCoverage.

Lemma rollBack_frame E newContainers w :
  fs (snd (rollBack E newContainers w)) = fs w ∧
  fs_history (snd (rollBack E newContainers w)) = fs_history w.
Proof.
  unfold rollBack.
  rewrite (bind_Done _ _ w tt (record (EvLog "error" rolling_back) w)) by done.
  destruct (StopAndRemoveContainers_spec E newContainers
              (record (EvLog "error" rolling_back) w))
    as (e & calls & w' & Hrun & _ & _ & _ & Hfs & Hhist & _).
  rewrite (bind_Done _ _ _ _ _ Hrun). unfold mbind, M_bind.
  destruct e as [msg|]; simpl; by rewrite Hfs, Hhist.
Qed.

(** X19 — when the health gate fails, [main] rolls back without reading
    or writing any file: the published configuration stays as it was, and
    the file system has gone through no other state. *)
Theorem rollback_keeps_published_document E config oldContainers newContainers w e w1 :
  WaitForHealthyContainers E newContainers (HealthcheckTimeout config) w
    = (Done (Some e), w1) →
  fs (snd (finishUpdate E config oldContainers newContainers w)) = fs w ∧
  fs_history (snd (finishUpdate E config oldContainers newContainers w)) = fs_history w ∧
  ∃ evs,
    events (snd (finishUpdate E config oldContainers newContainers w)) = evs ++ events w ∧
    Forall (λ ev, ∀ path, ¬ file_event path ev) evs.
Proof.
  intros Hgate.
  destruct (finishUpdate_unfold E config oldContainers newContainers w)
    as (e' & k & evs & Hgate' & Hevs & _ & ->).
  cbv zeta in Hgate'. rewrite Hgate in Hgate'. simplify_eq.
  set (w1 := set_clock _ _).
  destruct (rollBack_frame E newContainers w1) as [-> ->].
  split; [done |]. split; [done |].
  destruct (rollBack_spec E newContainers w1)
    as (calls & failure & w' & -> & Hev & Hpre & Hf & _).
  exists (failure ++ rev calls ++ EvLog "error" rolling_back :: evs).
  cbn [snd]. rewrite Hev. unfold w1. cbn [events set_clock observe].
  split; [by rewrite <- !app_assoc |].
  apply Forall_app. split; [| apply Forall_app; split; [| apply Forall_cons; split]].
  - destruct Hf as [-> | [msg ->]]; [constructor |].
    apply Forall_singleton. intros path [? | [? | [? ?]]]; done.
  - apply Forall_rev. destruct Hpre as [rest Hrest].
    pose proof (cleanup_calls_events newContainers) as Hall. rewrite Hrest in Hall.
    apply Forall_app in Hall as [Hall _]. eapply Forall_impl; [done |].
    intros ev (id & _ & [-> | ->]) path [? | [? | [? ?]]]; done.
  - intros path [? | [? | [? ?]]]; done.
  - eapply Forall_impl; [done |].
    intros ev [(id & _ & ->) | ->] path [? | [? | [? ?]]]; done.
Qed.

Lemma rollback_keeps_published_document_witness :
  let E := Example.healthy_from (60 * Go.Second) in
  let config := Example.config "api" in
  let w := Example.world [Example.api Example.id_a "Host(`a.com`)";
                          Example.api Example.id_c "Host(`a.com`)"]
             (Example.routing "Host(`a.com`)" ["http://aaaaaaaaaaaa:80"]) in
  let run := finishUpdate E config [Example.id_a] [Example.id_c] w in
  fs (snd run) = fs w ∧ fs_history (snd run) = fs_history w ∧
  ∃ evs, events (snd run) = evs ++ events w ∧
         Forall (λ ev, ∀ path, ¬ file_event path ev) evs.
Proof.
  intros E config w run.
  apply (rollback_keeps_published_document E config [Example.id_a] [Example.id_c] w
           timeout_error
           (snd (WaitForHealthyContainers E [Example.id_c] (HealthcheckTimeout config) w))).
  vm_compute. reflexivity.
Defined.

End RollbackCoverage.

(** ** The synthesizer after a hand-over *)

Section Regeneration.

Variable json : string → option (option (gmap string string)).










End Regeneration.

Section RegenerationCoverage.



End RegenerationCoverage.
